(** * Launchpad sampler: the scheduling core of [launchpad35.js] and
      [launchpad37.js], embedded in Rocq.

    Number model.  JavaScript numbers are IEEE doubles; times, tempi,
    velocities and gains are modelled as exact rationals [Q], so rounding,
    NaN and the infinities are outside the model.  Step counts and array
    indices are [nat]; MIDI notes and shift amounts are [Z].

    Container model.  A JavaScript [Map] is a [gmap] (insertion order is
    not kept); a JavaScript array is a list of optional cells, where
    [None] is a hole or an [undefined] element. *)

From Stdlib Require Import QArith Qminmax Qround Qabs Lqa ZArith Lia.
From stdpp Require Import gmap strings list.

Open Scope Q_scope.

(** ** JavaScript helpers *)

Definition Math_max (a b : Q) : Q := Qmax a b.
Definition Math_min (a b : Q) : Q := Qmin a b.

(** [a < b] on numbers is decidable. *)
#[global] Instance Qlt_decision (x y : Q) : Decision (x < y) :=
  match Qlt_le_dec x y with
  | left H => left H
  | right H => right (Qle_not_lt _ _ H)
  end.

(** A JavaScript array: [None] is a hole / [undefined]. *)
Abbreviation jsarray A := (list (option A)).

(** [new Array(n).fill(v)] *)
Definition Array_fill {A} (n : nat) (v : A) : jsarray A := replicate n (Some v).

(** [arr[i]]: [undefined] out of range and at a hole. *)
Definition js_get {A} (arr : jsarray A) (i : nat) : option A := mjoin (arr !! i).

(** [arr[i] = v]: in range the cell is replaced; at or beyond the length
    the array grows to [i + 1] cells, the new cells in between being holes. *)
Definition js_set {A} (arr : jsarray A) (i : nat) (v : option A) : jsarray A :=
  if decide (i < length arr)%nat then <[i := v]> arr
  else arr ++ replicate (i - length arr) None ++ [v].

(** [arr[i] = v] for a possibly negative integer [i]: a negative index names
    an ordinary property, not an element, so the cells are unchanged. *)
Definition js_set_Z {A} (arr : jsarray A) (i : Z) (v : option A) : jsarray A :=
  if decide (i < 0)%Z then arr else js_set arr (Z.to_nat i) v.

(** [arr.fill(v)] *)
Definition js_fill {A} (arr : jsarray A) (v : A) : jsarray A :=
  replicate (length arr) (Some v).

(** [x ?? d] *)
Definition nullish {A} (x : option A) (d : A) : A := default d x.

(** Truthiness of a number cell: [undefined] and [0] are falsy. *)
Definition truthyQ (x : option Q) : bool :=
  match x with
  | Some q => negb (Qeq_bool q 0)
  | None => false
  end.

Definition truthyZ (x : option Z) : bool :=
  match x with
  | Some z => negb (z =? 0)%Z
  | None => false
  end.

(** [x || d] on a number *)
Definition orQ (x : option Q) (d : Q) : Q := if truthyQ x then nullish x d else d.

(** [s || d] on a string: the empty string is falsy. *)
Definition orString (s : option string) (d : string) : string :=
  match s with
  | Some EmptyString => d
  | Some t => t
  | None => d
  end.

Definition BEAT_STEPS : nat := 32.
Definition STEPS_PER_QUARTER : Q := 8.

(** ** Pattern (launchpad35.js) *)

Module Pattern.

Record Timing := mkTiming {
  swing : Q;
  humanize : Q;
  timing_stepDuration : Q
}.

Record t := mk {
  steps : nat;
  name : string;
  tracks : gmap Z (jsarray Z);
  velocities : gmap Z (jsarray Q);
  id : string;
  isNew : bool;
  manuallyTriggeredNotes : gset Z;
  lastStepTriggered : Z;
  timing : Timing
}.

Definition set_tracks (tr : gmap Z (jsarray Z)) (p : t) : t :=
  mk (steps p) (name p) tr (velocities p) (id p) (isNew p)
     (manuallyTriggeredNotes p) (lastStepTriggered p) (timing p).

Definition set_velocities (ve : gmap Z (jsarray Q)) (p : t) : t :=
  mk (steps p) (name p) (tracks p) ve (id p) (isNew p)
     (manuallyTriggeredNotes p) (lastStepTriggered p) (timing p).

Definition set_steps (n : nat) (p : t) : t :=
  mk n (name p) (tracks p) (velocities p) (id p) (isNew p)
     (manuallyTriggeredNotes p) (lastStepTriggered p) (timing p).

Definition set_manual (s : gset Z) (last : Z) (p : t) : t :=
  mk (steps p) (name p) (tracks p) (velocities p) (id p) (isNew p)
     s last (timing p).

(** [constructor(steps = 32, name = "Untitled")]; [now] is
    [Date.now().toString()]. *)
Definition constructor (now : string) (steps : nat) (name : string) : t :=
  mk steps name ∅ ∅ now true ∅ (-1)%Z (mkTiming 0 0 0).

Definition addTrack (note : Z) (p : t) : t :=
  match tracks p !! note with
  | Some _ => p
  | None =>
      set_velocities (<[note := Array_fill (steps p) 1.0]> (velocities p))
        (set_tracks (<[note := Array_fill (steps p) 0%Z]> (tracks p)) p)
  end.

(** [recordNote(note, step, velocity = 1.0)]; the track is first set up as
    in [addTrack].  [None] is the [TypeError] of
    [this.velocities.get(note)[step] = ...] when the note has a track but
    no velocity array. *)
Definition recordNote (note : Z) (step : nat) (velocity : Q) (p : t) : option t :=
  let p1 := addTrack note p in
  track ← tracks p1 !! note;
  let p2 := set_tracks (<[note := js_set track step (Some 1%Z)]> (tracks p1)) p1 in
  let clampedVelocity := Math_max 0.1 (Math_min 1.0 velocity) in
  vel ← velocities p2 !! note;
  Some (set_velocities (<[note := js_set vel step (Some clampedVelocity)]> (velocities p2)) p2).

Definition clearTriggeredNotesIfNeeded (currentStep : Z) (p : t) : t :=
  if decide (lastStepTriggered p ≠ currentStep) then set_manual ∅ currentStep p
  else p.

Definition getStep (note : Z) (step : nat) (p : t) : Z :=
  nullish (tracks p !! note ≫= λ a, js_get a step) 0%Z.

Definition getVelocity (note : Z) (step : nat) (p : t) : Q :=
  nullish (velocities p !! note ≫= λ a, js_get a step) 1.0.

Record NoteParams := mkParams { active : bool; velocity : Q }.

Definition getNoteParams (note : Z) (step : nat) (p : t) : NoteParams :=
  mkParams (0 <? getStep note step p)%Z (getVelocity note step p).

Definition clear (p : t) : t :=
  set_velocities ((λ a, js_fill a 1.0) <$> velocities p)
    (set_tracks ((λ a, js_fill a 0%Z) <$> tracks p) p).

(** [None]: [TypeError] on a note with a track and no velocity array. *)
Definition clearTrack (note : Z) (p : t) : option t :=
  match tracks p !! note with
  | Some track =>
      vel ← velocities p !! note;
      Some (set_velocities (<[note := js_fill vel 1.0]> (velocities p))
              (set_tracks (<[note := js_fill track 0%Z]> (tracks p)) p))
  | None => Some p
  end.

(** The record produced by [toJSON] and consumed by [fromJSON]; an absent
    property is [None]. *)
Record Data := mkData {
  d_id : option string;
  d_name : option string;
  d_steps : nat;
  d_tracks : list (Z * jsarray Z);
  d_velocities : option (list (Z * jsarray Q));
  d_timing : option Timing;
  d_isNew : option bool
}.

(** [new Map(entries)]: of two entries with one key the later one wins. *)
Definition Map_of_entries {A} (entries : list (Z * A)) : gmap Z A :=
  list_to_map (reverse entries).

(** [Array.from(map.entries())] *)
Definition entries_of_Map {A} (m : gmap Z A) : list (Z * A) := map_to_list m.

Definition toJSON (p : t) : Data :=
  mkData (Some (id p)) (Some (name p)) (steps p)
    (entries_of_Map (tracks p)) (Some (entries_of_Map (velocities p)))
    (Some (timing p)) (Some (isNew p)).

(** [fromJSON(data)]; [now] is [Date.now().toString()]. *)
Definition fromJSON (now : string) (data : Data) (p : t) : t :=
  let tracks' := Map_of_entries (d_tracks data) in
  let velocities' :=
    match d_velocities data with
    | Some ve => Map_of_entries ve
    | None => (λ _, Array_fill (d_steps data) 1.0) <$> tracks'
    end in
  mk (d_steps data) (orString (d_name data) "Untitled Pattern")
     tracks' velocities' (orString (d_id data) now)
     (nullish (d_isNew data) false)
     (manuallyTriggeredNotes p) (lastStepTriggered p)
     (match d_timing data with Some ti => ti | None => timing p end).

(** [this.velocities.get(note)] inside a loop that runs [count] times:
    reading an element of a missing array is a [TypeError] ([None]), which
    needs at least one iteration. *)
Definition with_velocity (count : nat) (init : jsarray Q)
    (body : jsarray Q → jsarray Q) (ve : option (jsarray Q)) : option (jsarray Q) :=
  match ve with
  | Some vel => Some (body vel)
  | None => match count with O => Some init | S _ => None end
  end.

(** [this.tracks.forEach((track, note) => { ...; this.tracks.set(note,
    f track); this.velocities.set(note, g (this.velocities.get(note))) })]:
    every note of the track map gets a rebuilt track and velocity array;
    velocity arrays of other notes stay.  [None] when [g] throws. *)
Definition forEach_track (f : jsarray Z → jsarray Z)
    (g : option (jsarray Q) → option (jsarray Q)) (p : t) : option t :=
  if decide (map_Forall (λ note _, is_Some (g (velocities p !! note))) (tracks p))
  then Some (set_velocities
               (merge (λ tr ve, match tr with Some _ => g ve | None => ve end)
                  (tracks p) (velocities p))
               (set_tracks (f <$> tracks p) p))
  else None.

(** The body of the [for] loop of [shift], for one source array. *)
Definition shift_loop {A} (steps : nat) (amount : Z) (fill : A) (src : jsarray A) : jsarray A :=
  foldl (λ acc i,
           let newPos := Z.rem (Z.of_nat i + amount + Z.of_nat steps) (Z.of_nat steps) in
           js_set_Z acc newPos (js_get src i))
        (Array_fill steps fill) (seq 0 steps).

Definition shift (amount : Z) (p : t) : option t :=
  forEach_track (shift_loop (steps p) amount 0%Z)
    (with_velocity (steps p) (Array_fill (steps p) 1.0) (shift_loop (steps p) amount 1.0)) p.

(** The body of the [for] loop of [double]: the source is copied twice. *)
Definition double_loop {A} (steps : nat) (fill : A) (src : jsarray A) : jsarray A :=
  foldl (λ acc i, js_set (js_set acc i (js_get src i)) (i + steps) (js_get src i))
        (Array_fill (steps * 2) fill) (seq 0 steps).

Definition double (p : t) : option t :=
  if decide (64 ≤ steps p)%nat then Some p
  else
    let newSteps := (steps p * 2)%nat in
    p' ← forEach_track (double_loop (steps p) 0%Z)
           (with_velocity (steps p) (Array_fill newSteps 1.0) (double_loop (steps p) 1.0)) p;
    Some (set_steps newSteps p').

(** The body of the [for] loop of [halve]: the first half is kept. *)
Definition halve_loop {A} (newSteps : nat) (fill : A) (src : jsarray A) : jsarray A :=
  foldl (λ acc i, js_set acc i (js_get src i)) (Array_fill newSteps fill) (seq 0 newSteps).

(** [halve()].  [this.steps / 2] is a JavaScript division: for an odd
    step count above 4 the quotient is not an integer ([new Array] throws
    a [RangeError] when a track exists, and the step count stops being an
    integer otherwise); both are [None] here. *)
Definition halve (p : t) : option t :=
  if decide (steps p ≤ 4)%nat then Some p
  else if Nat.even (steps p) then
    let newSteps := (steps p / 2)%nat in
    p' ← forEach_track (halve_loop newSteps 0%Z)
           (with_velocity newSteps (Array_fill newSteps 1.0) (halve_loop newSteps 1.0)) p;
    Some (set_steps newSteps p')
  else None.

(** The data invariant of the pattern store. *)
Definition Inv (p : t) : Prop :=
  ∀ note track, tracks p !! note = Some track →
    length track = steps p ∧
    ∃ vel, velocities p !! note = Some vel ∧ length vel = steps p.

End Pattern.

(** ** Clock (launchpad35.js)

    The clock lives in a host that owns the timers: [setTimeout],
    [setInterval] and [requestAnimationFrame] register a callback under a
    fresh handle, and the host later fires it.  What the clock hands to its
    subscribers is kept in a log: a [StepEvent] is one call of the pattern
    callback, a [Tick] one round of the [onTick] subscribers. *)

Module Clock.

Inductive callback :=
| CbScheduleAhead                  (* () => this.scheduleAhead() *)
| CbTickTimeout (step : nat)       (* () => if (isPlaying) requestAnimationFrame(tick) *)
| CbTickFrame (step : nat)         (* () => callbacks.forEach(cb => cb(step)) *)
| CbGuardedTickFrame (step : nat)  (* () => if (isPlaying) callbacks.forEach(...) *)
| CbRecalibrate.                   (* () => if (isPlaying) this.recalibrate() *)

Inductive timer_kind := Timeout | Interval | Frame.

Record timer := mkTimer { cb : callback; kind : timer_kind; delay_ms : Q }.

Inductive output :=
| StepEvent (step : nat) (time : Q)
| Tick (step : nat).

Record t := mk {
  bpm : Q;
  isPlaying : bool;
  currentStep : nat;
  nextStepTime : Q;
  stepDuration : Q;
  scheduledEvents : gset nat;
  scheduledNotes : gmap nat (gset nat);
  scheduleTimeout : option nat;
  recalibrationInterval : option nat;
  (* the host *)
  timers : gmap nat timer;
  nextTimerId : nat;
  log : list output
}.

Definition calculateStepDuration (bpm : Q) : Q :=
  let beatsPerSecond := bpm / 60 in
  1 / (beatsPerSecond * STEPS_PER_QUARTER).

(** [constructor(audioContext, bpm = 120)]: the call of
    [startRecalibrationInterval] is commented out in the source. *)
Definition constructor (bpm : Q) : t :=
  mk bpm false 0 0 (calculateStepDuration bpm) ∅ ∅ None None ∅ 0 [].

Definition set_tempo (b d : Q) (c : t) : t :=
  mk b (isPlaying c) (currentStep c) (nextStepTime c) d (scheduledEvents c)
     (scheduledNotes c) (scheduleTimeout c) (recalibrationInterval c)
     (timers c) (nextTimerId c) (log c).

Definition set_position (playing : bool) (step : nat) (next : Q) (c : t) : t :=
  mk (bpm c) playing step next (stepDuration c) (scheduledEvents c)
     (scheduledNotes c) (scheduleTimeout c) (recalibrationInterval c)
     (timers c) (nextTimerId c) (log c).

Definition set_scheduled (ev : gset nat) (no : gmap nat (gset nat)) (c : t) : t :=
  mk (bpm c) (isPlaying c) (currentStep c) (nextStepTime c) (stepDuration c) ev
     no (scheduleTimeout c) (recalibrationInterval c)
     (timers c) (nextTimerId c) (log c).

Definition set_handles (st ri : option nat) (c : t) : t :=
  mk (bpm c) (isPlaying c) (currentStep c) (nextStepTime c) (stepDuration c)
     (scheduledEvents c) (scheduledNotes c) st ri
     (timers c) (nextTimerId c) (log c).

Definition set_timers (ti : gmap nat timer) (next : nat) (c : t) : t :=
  mk (bpm c) (isPlaying c) (currentStep c) (nextStepTime c) (stepDuration c)
     (scheduledEvents c) (scheduledNotes c) (scheduleTimeout c)
     (recalibrationInterval c) ti next (log c).

Definition emit (o : output) (c : t) : t :=
  mk (bpm c) (isPlaying c) (currentStep c) (nextStepTime c) (stepDuration c)
     (scheduledEvents c) (scheduledNotes c) (scheduleTimeout c)
     (recalibrationInterval c) (timers c) (nextTimerId c) (log c ++ [o]).

(** [setTimeout], [setInterval], [requestAnimationFrame]: the handle and the
    host with the callback registered. *)
Definition register (f : callback) (k : timer_kind) (delay : Q) (c : t) : nat * t :=
  (nextTimerId c,
   set_timers (<[nextTimerId c := mkTimer f k delay]> (timers c)) (S (nextTimerId c)) c).

(** [scheduleStep(step, time)]; [now] is [audioContext.currentTime]. *)
Definition scheduleStep (step : nat) (time : Q) (now : Q) (c : t) : t :=
  if negb (isPlaying c) then c
  else
    let c := emit (StepEvent step time) c in
    let delayMs := Math_max 0 ((time - now) * 1000) in
    if decide (0 < delayMs) then
      let callbackTime := Math_max 0 (delayMs - 15) in
      let '(callbackId, c) := register (CbTickTimeout step) Timeout callbackTime c in
      let ids := default ∅ (scheduledNotes c !! step) in
      set_scheduled (scheduledEvents c)
        (<[step := ids ∪ {[callbackId]}]> (scheduledNotes c)) c
    else
      snd (register (CbGuardedTickFrame step) Frame 0 c).

(** The sum is exact here; the doubles round it, which matters when the
    step duration is lost in the rounding or a target time falls on the
    end of a pass's window. *)
Definition advanceStep (c : t) : t :=
  set_position (isPlaying c) ((currentStep c + 1) mod BEAT_STEPS)
    (nextStepTime c + stepDuration c) c.

(** The [while] loop of [scheduleAhead].  [None]: the loop is still running
    after [fuel] iterations. *)
Fixpoint scheduleAhead_loop (fuel : nat) (now endTime : Q) (c : t) : option t :=
  if decide (nextStepTime c < endTime) then
    match fuel with
    | O => None
    | S fuel => scheduleAhead_loop fuel now endTime
                  (advanceStep (scheduleStep (currentStep c) (nextStepTime c) now c))
    end
  else Some c.

(** The number of iterations the loop makes when the step duration is
    positive. *)
Definition iterations (endTime : Q) (c : t) : nat :=
  Z.to_nat (Qceiling ((endTime - nextStepTime c) / stepDuration c)).

(** [scheduleAhead()]; [now] is [audioContext.currentTime].  [None]: the
    loop does not end (a step duration that is not positive). *)
Definition scheduleAhead (now : Q) (c : t) : option t :=
  let currentTime := now in
  let endTime := currentTime + 0.2 in
  c ← scheduleAhead_loop (iterations endTime c) now endTime c;
  if isPlaying c then
    let timeUntilNextSchedule := (endTime - currentTime) * 0.8 in
    let '(id, c) := register CbScheduleAhead Timeout (timeUntilNextSchedule * 1000) c in
    Some (set_handles (Some id) (recalibrationInterval c) c)
  else Some c.

(** [clearScheduledEvents()]: the oscillator timers of [scheduledEvents] are
    stopped and both tables are emptied; the loop over [scheduledNotes] has
    an empty body, and no host timer is cancelled. *)
Definition clearScheduledEvents (c : t) : t := set_scheduled ∅ ∅ c.

Definition setBPM (newBpm : Q) (now : Q) (c : t) : option t :=
  let prevBpm := bpm c in
  let b := Math_max 40 (Math_min 240 newBpm) in
  let c := set_tempo b (calculateStepDuration b) c in
  if isPlaying c && bool_decide (5 < Qabs (prevBpm - bpm c)) then
    scheduleAhead now (clearScheduledEvents c)
  else Some c.

Definition start (now : Q) (c : t) : option t :=
  if isPlaying c then Some c
  else scheduleAhead now (set_position true 0 now c).

Definition stop (c : t) : t :=
  let c := set_position false 0 (nextStepTime c) c in
  let c := clearScheduledEvents c in
  set_scheduled (scheduledEvents c) ∅ c.

Definition recalibrate (now : Q) (c : t) : t :=
  let audioTime := now in
  let expectedTime := nextStepTime c - stepDuration c in
  let drift := expectedTime - audioTime in
  if decide (0.05 < Qabs drift)
  then set_position (isPlaying c) (currentStep c) (audioTime + stepDuration c) c
  else c.

Definition startRecalibrationInterval (c : t) : t :=
  let '(id, c) := register CbRecalibrate Interval 5000 c in
  set_handles (scheduleTimeout c) (Some id) c.

(** The host runs the callback registered under [id]; a timeout or a frame
    runs once, an interval stays registered. *)
Definition fire (id : nat) (now : Q) (c : t) : option t :=
  match timers c !! id with
  | None => Some c
  | Some tm =>
      let c := match kind tm with
               | Interval => c
               | _ => set_timers (delete id (timers c)) (nextTimerId c) c
               end in
      match cb tm with
      | CbScheduleAhead => scheduleAhead now c
      | CbTickTimeout step =>
          Some (if isPlaying c then snd (register (CbTickFrame step) Frame 0 c) else c)
      | CbTickFrame step => Some (emit (Tick step) c)
      | CbGuardedTickFrame step =>
          Some (if isPlaying c then emit (Tick step) c else c)
      | CbRecalibrate =>
          Some (if isPlaying c then recalibrate now c else c)
      end
  end.

End Clock.

(** [Math.sqrt] on the rationals: the root of the reduced fraction taken on
    numerator and denominator, which is the exact root whenever the root is
    rational (0, 1/4, 1, 4, ...); elsewhere it is a lower approximation. *)
Definition Math_sqrt (x : Q) : Q :=
  let r := Qred x in Z.sqrt (Qnum r) # Pos.sqrt (Qden r).

(** ** SampleManager (launchpad35.js) *)

Module SampleManager.

(** An entry of [this.samples]: the decoded buffer (its duration) and the
    trim region. *)
Record Sample := mkSample {
  buffer_duration : Q;
  file : string;
  start : Q;
  end' : Q
}.

(** The audio nodes of one voice: the arguments of [source.start(when,
    offset, duration)] and the envelope written to the gain node. *)
Record SoundInfo := mkSound {
  source_when : Q;
  source_offset : Q;
  source_duration : Q;
  gain : Q;
  release : bool;
  startTime : Q;
  duration : Q;
  endTime : Q
}.

Record t := mk {
  samples : gmap Z Sample;
  playing : gmap Z (list SoundInfo)
}.

Definition constructor : t := mk ∅ ∅.

Definition getSample (note : Z) (sm : t) : option Sample := samples sm !! note.

(** [triggerSound(note, velocity = 1, time = now)]; [now] is
    [audioEngine.getCurrentTime()].  The result is the new [soundInfo], or
    [None] for the [undefined] / [null] returns.  The LED and grid updates
    and the [scheduledSounds] bookkeeping are left out. *)
Definition triggerSound (note : Z) (velocity : Q) (time : Q) (now : Q) (sm : t)
    : t * option SoundInfo :=
  match samples sm !! note with
  | None => (sm, None)
  | Some sample =>
      let velocity := 1 in
      let debounceThreshold := 0.02 in
      let playingInstances := playing sm !! note in
      let recentTriggers :=
        filter (λ info, now - startTime info < debounceThreshold)
               (default [] playingInstances) in
      if bool_decide (0 < length recentTriggers)%nat then (sm, None)
      else
        let velocityGain := Math_min (Math_sqrt velocity) 1.0 * 0.7 in
        let startTime := buffer_duration sample * orQ (Some (start sample)) 0 in
        let endTime := buffer_duration sample * orQ (Some (end' sample)) 1 in
        let duration := endTime - startTime in
        let soundInfo :=
          mkSound time startTime duration velocityGain
                  (bool_decide (0.01 < duration))
                  time duration (time + duration) in
        (mk (samples sm)
            (<[note := default [] (playing sm !! note) ++ [soundInfo]]> (playing sm)),
         Some soundInfo)
  end.

Definition setSampleRange (note : Z) (start_ end_ : Q) (sm : t) : t :=
  match samples sm !! note with
  | Some sample =>
      let sample :=
        mkSample (buffer_duration sample) (file sample)
                 (Math_max 0 (Math_min start_ 1)) (Math_max 0 (Math_min end_ 1)) in
      mk (<[note := sample]> (samples sm)) (playing sm)
  | None => sm
  end.

End SampleManager.

(** ** LaunchpadApp (launchpad35.js): the step dispatcher *)

Module LaunchpadApp.

Record NoteInfo := mkNote { note : Z; velocity : Q; time : Q }.

Record t := mk {
  patternEnabled : bool;
  currentPattern : option Pattern.t;   (* patternManager.getCurrentPattern() *)
  sampleManager : SampleManager.t;
  clock : Clock.t;
  triggered : list (Z * SampleManager.SoundInfo)   (* voices started, in order *)
}.

(** The notes gathered by the pattern callback for one step. *)
Definition scheduledNotes (step : nat) (adjustedTime : Q) (pattern : Pattern.t)
    (sm : SampleManager.t) : list NoteInfo :=
  omap (λ '(note, track),
          if bool_decide (note ∈ Pattern.manuallyTriggeredNotes pattern) then None
          else if truthyZ (js_get track step) then
            match SampleManager.getSample note sm with
            | Some _ =>
                Some (mkNote note
                        (orQ (Pattern.velocities pattern !! note ≫= λ a, js_get a step) 1.0)
                        adjustedTime)
            | None => None
            end
          else None)
       (map_to_list (Pattern.tracks pattern)).

Definition triggerSound (note_ : Z) (velocity_ time_ now : Q) (app : t) : t :=
  let '(sm, result) :=
    SampleManager.triggerSound note_ velocity_ time_ now (sampleManager app) in
  mk (patternEnabled app) (currentPattern app) sm (clock app)
     (triggered app ++ match result with Some info => [(note_, info)] | None => [] end).

(** The callback registered by [setupClock] with [clock.setPatternCallback]. *)
Definition patternCallback (step : nat) (time_ : Q) (now : Q) (app : t) : t :=
  if negb (patternEnabled app) then app
  else match currentPattern app with
  | None => app
  | Some pattern =>
      let pattern := Pattern.clearTriggeredNotesIfNeeded (Z.of_nat step) pattern in
      let app := mk (patternEnabled app) (Some pattern) (sampleManager app)
                    (clock app) (triggered app) in
      let lookAheadCompensation := 0.005 in
      let adjustedTime := time_ + lookAheadCompensation in
      let batch := scheduledNotes step adjustedTime pattern (sampleManager app) in
      foldl (λ app noteInfo,
               let compensationOffset := 0 in
               triggerSound (note noteInfo) (velocity noteInfo)
                 (time noteInfo + compensationOffset) now app)
            app batch
  end.

(** The clock calls the pattern callback at each [StepEvent]; the callback
    does not touch the clock, so the calls of one clock operation are run
    on its step events in order. *)
Definition dispatch (now : Q) (app : t) (o : Clock.output) : t :=
  match o with
  | Clock.StepEvent step time => patternCallback step time now app
  | Clock.Tick _ => app
  end.

Definition with_clock (op : Clock.t → option Clock.t) (now : Q) (app : t) : option t :=
  let before := length (Clock.log (clock app)) in
  c ← op (clock app);
  Some (foldl (dispatch now)
          (mk (patternEnabled app) (currentPattern app) (sampleManager app) c (triggered app))
          (drop before (Clock.log c))).

(** [handleBeatModePadPress(note, velocity)].  [None]: an exception, or a
    clock loop that does not end. *)
Definition handleBeatModePadPress (note_ : Z) (velocity_ : Q) (now : Q) (app : t) : option t :=
  match currentPattern app with
  | None => Some app
  | Some _ =>
      app ← (if negb (Clock.isPlaying (clock app))
             then with_clock (Clock.start now) now app else Some app);
      let app := match SampleManager.getSample note_ (sampleManager app) with
                 | Some _ => triggerSound note_ velocity_ now now app
                 | None => app
                 end in
      pattern ← currentPattern app;
      let currentStep := Clock.currentStep (clock app) in
      let pattern := Pattern.clearTriggeredNotesIfNeeded (Z.of_nat currentStep) pattern in
      let pattern :=
        Pattern.set_manual ({[note_]} ∪ Pattern.manuallyTriggeredNotes pattern)
          (Pattern.lastStepTriggered pattern) pattern in
      pattern ← Pattern.recordNote note_ currentStep velocity_ pattern;
      let pattern :=
        Pattern.mk (Pattern.steps pattern) (Pattern.name pattern) (Pattern.tracks pattern)
          (Pattern.velocities pattern) (Pattern.id pattern) false
          (Pattern.manuallyTriggeredNotes pattern) (Pattern.lastStepTriggered pattern)
          (Pattern.timing pattern) in
      Some (mk (patternEnabled app) (Some pattern) (sampleManager app) (clock app)
               (triggered app))
  end.

End LaunchpadApp.

(** ** BeatSequencer (launchpad37.js) *)

Module BeatSequencer.

(** An entry of [sampleManager.samples] in version 3.7. *)
Record Sample := mkSample { gain : Q; startTime : Q; endTime : Q }.

Record t := mk {
  isPlaying : bool;
  currentStep : nat;
  bpm : Q;
  resolution : nat;
  swing : Q;
  nextStepTime : Q;
  stepInterval : Q;
  samples : gmap Z Sample
}.

Definition constructor (samples : gmap Z Sample) : t :=
  mk false 0 120 16 0 0 0 samples.

Definition setTempo (newBpm : Q) (s : t) : t :=
  let b := Math_max 40 (Math_min 300 newBpm) in
  mk (isPlaying s) (currentStep s) b (resolution s) (swing s) (nextStepTime s)
     (if isPlaying s then 60.0 / b / 4 else stepInterval s) (samples s).

(** The voice started by [scheduleSampleAtTime]: the gain node's value and
    the arguments of [source.start]. *)
Record Voice := mkVoice { gain_value : Q; when : Q; offset : Q; duration : Q }.

Definition scheduleSampleAtTime (note : Z) (velocity : Q) (time : Q) (s : t) : option Voice :=
  match samples s !! note with
  | None => None
  | Some sample =>
      let duration := endTime sample - startTime sample in
      Some (mkVoice ((velocity / 127) * gain sample) time (startTime sample) duration)
  end.

End BeatSequencer.

(** ** Reading the clock's log *)

(** The pattern-callback calls of a log, in order. *)
Definition steps_of (l : list Clock.output) : list (nat * Q) :=
  omap (λ o, match o with
             | Clock.StepEvent step time => Some (step, time)
             | Clock.Tick _ => None
             end) l.

(** [n] consecutive step events from step [step] at time [time], [d] apart. *)
Fixpoint expected (n : nat) (step : nat) (time d : Q) : list Clock.output :=
  match n with
  | O => []
  | S n => Clock.StepEvent step time :: expected n ((step + 1) mod BEAT_STEPS) (time + d) d
  end.

(** [time + d + ... + d], [n] times, as the loop computes it. *)
Fixpoint advance_time (n : nat) (time d : Q) : Q :=
  match n with
  | O => time
  | S n => advance_time n (time + d) d
  end.

Fixpoint advance_index (n : nat) (step : nat) : nat :=
  match n with
  | O => step
  | S n => advance_index n ((step + 1) mod BEAT_STEPS)
  end.

#[global] Instance callback_eq_dec : EqDecision Clock.callback.
Proof. solve_decision. Defined.

(** No registered host timer runs the recalibration. *)
Definition no_recalibration (c : Clock.t) : Prop :=
  map_Forall (λ _ tm, Clock.cb tm ≠ Clock.CbRecalibrate) (Clock.timers c).

(** What can happen to a clock: the calls of its public methods and the
    host firing a registered timer. *)
Inductive clock_op :=
| OpStart (now : Q)
| OpStop
| OpSetBPM (bpm : Q) (now : Q)
| OpFire (id : nat) (now : Q).

Definition run_op (o : clock_op) (c : Clock.t) : option Clock.t :=
  match o with
  | OpStart now => Clock.start now c
  | OpStop => Some (Clock.stop c)
  | OpSetBPM b now => Clock.setBPM b now c
  | OpFire id now => Clock.fire id now c
  end.

Fixpoint run_ops (ops : list clock_op) (c : Clock.t) : option Clock.t :=
  match ops with
  | [] => Some c
  | o :: ops => c ← run_op o c; run_ops ops c
  end.


(** ** Predicates on clock, pattern and dispatcher states *)

(** What a pass never changes. *)
Definition same_tempo (c c' : Clock.t) : Prop :=
  Clock.bpm c' = Clock.bpm c ∧ Clock.stepDuration c' = Clock.stepDuration c ∧
  Clock.isPlaying c' = Clock.isPlaying c ∧
  Clock.recalibrationInterval c' = Clock.recalibrationInterval c.


(** What no method of the clock and no timer callback changes: the
    recalibration interval stays unset and no timer runs [recalibrate]. *)
Definition never_recalibrates (c : Clock.t) : Prop :=
  Clock.recalibrationInterval c = None ∧ no_recalibration c.

(** Two patterns with the same steps: only the manual-trigger marker may
    differ. *)
Definition same_content (pattern pattern' : Pattern.t) : Prop :=
  Pattern.tracks pattern' = Pattern.tracks pattern ∧
  Pattern.velocities pattern' = Pattern.velocities pattern ∧
  Pattern.steps pattern' = Pattern.steps pattern.

(** What a trigger or a pattern callback leaves alone. *)
Definition same_setup (app app' : LaunchpadApp.t) : Prop :=
  LaunchpadApp.patternEnabled app' = LaunchpadApp.patternEnabled app ∧
  LaunchpadApp.clock app' = LaunchpadApp.clock app ∧
  SampleManager.samples (LaunchpadApp.sampleManager app')
    = SampleManager.samples (LaunchpadApp.sampleManager app) ∧
  match LaunchpadApp.currentPattern app, LaunchpadApp.currentPattern app' with
  | Some pattern, Some pattern' => same_content pattern pattern'
  | None, None => True
  | _, _ => False
  end.

(** ** Example states *)

(** A 32-step pattern with note 36 recorded at steps 0, 8, 16 and 24, each
    at its own velocity. *)
Definition four_on_the_floor : option Pattern.t :=
  p ← Pattern.recordNote 36 0 1.0 (Pattern.constructor "1700000000000" 32 "Untitled");
  p ← Pattern.recordNote 36 8 0.8 p;
  p ← Pattern.recordNote 36 16 0.6 p;
  Pattern.recordNote 36 24 0.4 p.

(** An app in beat mode: a stopped 120 BPM clock, a 32-step pattern in
    which note 38 is active at step 4, sounds on notes 36 and 38. *)
Definition snare_on_4 : Pattern.t :=
  Pattern.mk 32 "Untitled"
    {[ 38%Z := js_set (Array_fill 32 0%Z) 4 (Some 1%Z) ]}
    {[ 38%Z := Array_fill 32 1.0 ]}
    "1700000000000" true ∅ (-1)%Z (Pattern.mkTiming 0 0 0).

Definition beat_mode_app : LaunchpadApp.t :=
  LaunchpadApp.mk true (Some snare_on_4)
    (SampleManager.mk
       {[ 36%Z := SampleManager.mkSample 2 "kick.wav" 0 1;
          38%Z := SampleManager.mkSample 1 "snare.wav" 0 1 ]} ∅)
    (Clock.constructor 120) [].


(** ** More of Pattern (launchpad35.js) *)

Module PatternMore.

(** [getStepTime(step, time, clockStepDuration)]: the swing delay. *)
Definition getStepTime (step : nat) (time clockStepDuration : Q) (p : Pattern.t) : Q :=
  if Qeq_bool (Pattern.swing (Pattern.timing p)) 0 then time
  else
    let is16th := bool_decide (BEAT_STEPS = 32%nat) in
    let is16thNote :=
      is16th && negb (step mod 4 =? 0)%nat && (step mod 2 =? 1)%nat in
    if is16thNote then
      let swingAmount := Pattern.swing (Pattern.timing p) / 100 * 0.33 in
      time + clockStepDuration * swingAmount
    else time.

End PatternMore.


(** ** More of SampleManager (launchpad35.js) *)

Module SampleManagerMore.

(** [stopSound(note)]: every voice of the note is faded and stopped, and the
    note leaves [playing]. *)
Definition stopSound (note : Z) (sm : SampleManager.t) : SampleManager.t :=
  match SampleManager.playing sm !! note with
  | None => sm
  | Some _ => SampleManager.mk (SampleManager.samples sm)
                (delete note (SampleManager.playing sm))
  end.

Definition hasActivePlayback (note : Z) (sm : SampleManager.t) : bool :=
  match SampleManager.playing sm !! note with
  | Some sources => bool_decide (0 < length sources)%nat
  | None => false
  end.

(** [stopAll()] *)
Definition stopAll (sm : SampleManager.t) : SampleManager.t :=
  SampleManager.mk (SampleManager.samples sm) ∅.

#[global] Instance Q_eq_dec : EqDecision Q.
Proof. solve_decision. Defined.

#[global] Instance SoundInfo_eq_dec : EqDecision SampleManager.SoundInfo.
Proof. solve_decision. Defined.

(** [sources.delete(soundInfo)]: one voice leaves the set.  A voice is told
    apart by its fields here; two voices with the same fields are the same
    to everything that reads them. *)
Fixpoint Set_delete (info : SampleManager.SoundInfo)
    (sources : list SampleManager.SoundInfo) : list SampleManager.SoundInfo :=
  match sources with
  | [] => []
  | x :: sources => if decide (x = info) then sources else x :: Set_delete info sources
  end.

(** The [source.onended] handler installed by [triggerSound] for the voice
    [soundInfo] of [note]. *)
Definition onended (note : Z) (soundInfo : SampleManager.SoundInfo)
    (sm : SampleManager.t) : SampleManager.t :=
  match SampleManager.playing sm !! note with
  | Some sources =>
      let sources := Set_delete soundInfo sources in
      if bool_decide (length sources = 0%nat)
      then SampleManager.mk (SampleManager.samples sm)
             (delete note (SampleManager.playing sm))
      else SampleManager.mk (SampleManager.samples sm)
             (<[note := sources]> (SampleManager.playing sm))
  | None => sm
  end.

End SampleManagerMore.


(** A call of [start()]. *)
Definition is_start (o : clock_op) : Prop :=
  match o with OpStart _ => True | _ => False end.

(** Every handle in the host's timer table was given out already. *)
Definition handles_below (c : Clock.t) : Prop :=
  ∀ id, is_Some (Clock.timers c !! id) → (id < Clock.nextTimerId c)%nat.

(** A step, a loop and a pass give out new handles only. *)
Definition keeps_timers (c c' : Clock.t) : Prop :=
  handles_below c' ∧ (Clock.nextTimerId c ≤ Clock.nextTimerId c')%nat ∧
  ∀ id, (id < Clock.nextTimerId c)%nat → Clock.timers c' !! id = Clock.timers c !! id.


(** ** MatrixState (launchpad35.js): the 9 x 9 LED matrix *)

Module MatrixState.

(** [Object.values(MIDI.TOP)] and [Object.values(MIDI.RIGHT)] *)
Definition MIDI_TOP : list Z := [0x68; 0x69; 0x6A; 0x6B; 0x6C; 0x6D; 0x6E; 0x6F]%Z.
Definition MIDI_RIGHT : list Z := [8; 24; 40; 56; 72; 88; 96; 120]%Z.

(** [arr[i]] for an integer [i]; [None] is [undefined]. *)
Definition at_Z {A} (arr : list A) (i : Z) : option A :=
  if decide (i < 0)%Z then None else arr !! Z.to_nat i.

(** [arr.indexOf(x)] *)
Fixpoint indexOf (arr : list Z) (x : Z) : Z :=
  match arr with
  | [] => -1
  | y :: arr =>
      if decide (y = x) then 0
      else let r := indexOf arr x in if decide (r = -1) then -1 else r + 1
  end%Z.

(** [arr.includes(x)] *)
Definition includes (arr : list Z) (x : Z) : bool := bool_decide (x ∈ arr).

(** [matrix] is a [Uint8Array(9 * 9)]: its cells are bytes, and a store
    keeps the low eight bits. *)
Record t := mk {
  matrix : list Z;
  dirty : bool
}.

Definition constructor : t := mk (replicate (9 * 9) 0%Z) false.

(** [toNote(x, y)] on integers; [None] is [undefined]. *)
Definition toNote (x y : Z) : option Z :=
  if decide (y = 8)%Z then at_Z MIDI_TOP x
  else if decide (x = 8)%Z then at_Z MIDI_RIGHT y
  else Some (y * 16 + x)%Z.

(** [fromNote(note)]: [%] is the remainder of the truncated division and
    [Math.floor(note / 16)] the floored quotient. *)
Definition fromNote (note : Z) : Z * Z :=
  if decide (0x68 ≤ note ∧ note ≤ 0x6F)%Z then (indexOf MIDI_TOP note, 8%Z)
  else if includes MIDI_RIGHT note then (8%Z, indexOf MIDI_RIGHT note)
  else (Z.rem note 16, note / 16)%Z.

Definition out_of_range (x y : Z) : bool :=
  bool_decide (x < 0)%Z || bool_decide (8 < x)%Z ||
  bool_decide (y < 0)%Z || bool_decide (8 < y)%Z.

(** A store into the typed array: out of its bounds nothing is written. *)
Definition Uint8_set (arr : list Z) (i : Z) (v : Z) : list Z :=
  if decide (i < 0)%Z then arr else <[Z.to_nat i := (v mod 256)%Z]> arr.

Definition setColor (x y color : Z) (m : t) : t :=
  if out_of_range x y then m
  else
    let index := (y * 9 + x)%Z in
    let current := at_Z (matrix m) index in
    if decide (current ≠ Some color)
    then mk (Uint8_set (matrix m) index color) true
    else m.

Definition setColorByNote (note color : Z) (m : t) : t :=
  let '(x, y) := fromNote note in setColor x y color m.

(** [getColor(x, y)]; [None] is [undefined]. *)
Definition getColor (x y : Z) (m : t) : option Z :=
  if out_of_range x y then Some 0%Z
  else at_Z (matrix m) (y * 9 + x)%Z.

Definition getColorByNote (note : Z) (m : t) : option Z :=
  let '(x, y) := fromNote note in getColor x y m.

Definition clear (m : t) : t := mk (replicate (length (matrix m)) 0%Z) true.

(** The matrix as the constructor makes it and every method keeps it. *)
Definition Inv (m : t) : Prop :=
  length (matrix m) = 81%nat ∧ Forall (λ v, 0 ≤ v < 256)%Z (matrix m).

End MatrixState.


(** ** BeatSequencer (launchpad37.js): pattern store and scheduler *)

Module Sequencer.

(** A call of [scheduleSampleAtTime(note, velocity, time)]. *)
Record Call := mkCall { call_note : Z; call_velocity : Z; call_time : Q }.

(** A pattern is a [Map] from notes to [Uint8Array]s of velocities.
    [intervals] is the host's table of running [setInterval] timers, all of
    which run [scheduleNextSteps]. *)
Record t := mk {
  isPlaying : bool;
  currentStep : nat;
  bpm : Q;
  resolution : nat;
  swing : Q;
  patterns : gmap string (gmap Z (list Z));
  currentPattern : string;
  nextStepTime : Q;
  stepInterval : Q;
  schedulerTimer : option nat;
  intervals : gset nat;
  nextTimerId : nat;
  calls : list Call
}.

Definition set_store (res step : nat) (ps : gmap string (gmap Z (list Z)))
    (cur : string) (s : t) : t :=
  mk (isPlaying s) step (bpm s) res (swing s) ps cur (nextStepTime s)
     (stepInterval s) (schedulerTimer s) (intervals s) (nextTimerId s) (calls s).

Definition set_position (step : nat) (next : Q) (s : t) : t :=
  mk (isPlaying s) step (bpm s) (resolution s) (swing s) (patterns s)
     (currentPattern s) next (stepInterval s) (schedulerTimer s) (intervals s)
     (nextTimerId s) (calls s).

(** [createPattern(name)] *)
Definition createPattern (name : string) (s : t) : t :=
  set_store (resolution s) (currentStep s) (<[name := ∅]> (patterns s)) name s.

(** The constructor ends with [createPattern("Default")], so there is
    always a current pattern name. *)
Definition constructor : t :=
  createPattern "Default" (mk false 0 120 16 0 ∅ "" 0 0 None ∅ 0 []).

Definition getCurrentPattern (s : t) : option (gmap Z (list Z)) :=
  patterns s !! currentPattern s.

(** A store into a [Uint8Array]: the low eight bits are kept, and out of
    the array's bounds nothing is written. *)
Definition Uint8_store (arr : list Z) (i : nat) (v : Z) : list Z :=
  <[i := (v mod 256)%Z]> arr.

(** [setStep(note, step, velocity)] on integers. *)
Definition setStep (note step velocity : Z) (s : t) : t :=
  match patterns s !! currentPattern s with
  | None => s
  | Some pattern =>
      let pattern :=
        match pattern !! note with
        | Some _ => pattern
        | None => <[note := replicate (resolution s) 0%Z]> pattern
        end in
      match pattern !! note with
      | Some steps =>
          let steps :=
            if decide (0 ≤ step ∧ step < Z.of_nat (resolution s))%Z
            then Uint8_store steps (Z.to_nat step) velocity
            else steps in
          set_store (resolution s) (currentStep s)
            (<[currentPattern s := <[note := steps]> pattern]> (patterns s))
            (currentPattern s) s
      | None => s
      end
  end.

Definition getSwingAdjustedTime (step : nat) (baseTime : Q) (s : t) : Q :=
  if (step mod 2 =? 1)%nat && bool_decide (0 < swing s)
  then baseTime + stepInterval s * swing s * 0.5
  else baseTime.

Definition scheduleSampleAtTime (note velocity : Z) (time : Q) (s : t) : t :=
  mk (isPlaying s) (currentStep s) (bpm s) (resolution s) (swing s) (patterns s)
     (currentPattern s) (nextStepTime s) (stepInterval s) (schedulerTimer s)
     (intervals s) (nextTimerId s) (calls s ++ [mkCall note velocity time]).

Definition advanceStep (s : t) : t :=
  let next := nextStepTime s + stepInterval s in
  let step := S (currentStep s) in
  set_position (if decide (resolution s ≤ step)%nat then 0%nat else step) next s.

(** One turn of the [while] loop of [scheduleNextSteps]. *)
Definition scheduleNextSteps_body (pattern : option (gmap Z (list Z))) (s : t) : t :=
  let currentStep := currentStep s in
  let s :=
    match pattern with
    | Some pattern =>
        foldl (λ s '(note, steps),
                 match steps !! currentStep with
                 | Some velocity =>
                     if decide (0 < velocity)%Z then
                       let playTime := getSwingAdjustedTime currentStep (nextStepTime s) s in
                       scheduleSampleAtTime note velocity playTime s
                     else s
                 | None => s
                 end)
              s (map_to_list pattern)
    | None => s
    end in
  advanceStep s.

(** [None]: the loop is still running after [fuel] turns. *)
Fixpoint scheduleNextSteps_loop (fuel : nat) (pattern : option (gmap Z (list Z)))
    (endTime : Q) (s : t) : option t :=
  if decide (nextStepTime s < endTime) then
    match fuel with
    | O => None
    | S fuel =>
        scheduleNextSteps_loop fuel pattern endTime (scheduleNextSteps_body pattern s)
    end
  else Some s.

Definition turns (endTime : Q) (s : t) : nat :=
  Z.to_nat (Qceiling ((endTime - nextStepTime s) / stepInterval s)).

(** [scheduleNextSteps()]; [now] is [audioContext.currentTime] and the
    look-ahead is 0.1 s.  [None]: the loop does not end. *)
Definition scheduleNextSteps (now : Q) (s : t) : option t :=
  let currentTime := now in
  let pattern := patterns s !! currentPattern s in
  scheduleNextSteps_loop (turns (currentTime + 0.1) s) pattern (currentTime + 0.1) s.

Definition start (now : Q) (s : t) : option t :=
  if isPlaying s then Some s
  else
    let id := nextTimerId s in
    scheduleNextSteps now
      (mk true 0 (bpm s) (resolution s) (swing s) (patterns s) (currentPattern s)
          now (60.0 / bpm s / 4) (Some id) ({[id]} ∪ intervals s) (S id) (calls s)).

(** [clearInterval(handle)] *)
Definition clearInterval (handle : option nat) (running : gset nat) : gset nat :=
  match handle with
  | Some id => running ∖ {[id]}
  | None => running
  end.

Definition stop (s : t) : t :=
  if negb (isPlaying s) then s
  else
    mk false 0 (bpm s) (resolution s) (swing s) (patterns s) (currentPattern s)
       (nextStepTime s) (stepInterval s) None
       (clearInterval (schedulerTimer s) (intervals s)) (nextTimerId s) (calls s).

Definition setTempo (newBpm : Q) (s : t) : t :=
  let b := Math_max 40 (Math_min 300 newBpm) in
  mk (isPlaying s) (currentStep s) b (resolution s) (swing s) (patterns s)
     (currentPattern s) (nextStepTime s)
     (if isPlaying s then 60.0 / b / 4 else stepInterval s)
     (schedulerTimer s) (intervals s) (nextTimerId s) (calls s).

Definition setSwing (amount : Q) (s : t) : t :=
  mk (isPlaying s) (currentStep s) (bpm s) (resolution s)
     (Math_max 0 (Math_min 1 amount)) (patterns s)
     (currentPattern s) (nextStepTime s) (stepInterval s)
     (schedulerTimer s) (intervals s) (nextTimerId s) (calls s).

(** The [for] loop of [setResolution] for one track: a store of
    [undefined] into a [Uint8Array] writes 0. *)
Definition setResolution_loop (steps resolution : nat) (oldSteps : list Z) : list Z :=
  foldl (λ newSteps i,
           let oldIndex := (i * resolution / steps)%nat in
           if decide (oldIndex < resolution)%nat
           then Uint8_store newSteps i (default 0%Z (oldSteps !! oldIndex))
           else newSteps)
        (replicate steps 0%Z) (seq 0 steps).

Definition setResolution (steps : nat) (s : t) : t :=
  let oldPattern := patterns s !! currentPattern s in
  let newPattern :=
    match oldPattern with
    | Some oldPattern => setResolution_loop steps (resolution s) <$> oldPattern
    | None => ∅
    end in
  set_store steps (if decide (steps ≤ currentStep s)%nat then 0%nat else currentStep s)
    (<[currentPattern s := newPattern]> (patterns s)) (currentPattern s) s.

(** The object made by [savePattern]; [saved_steps] is the object whose
    keys are the notes. *)
Record Saved := mkSaved {
  saved_name : string;
  saved_steps : gmap Z (list Z);
  saved_resolution : nat;
  saved_bpm : Q;
  saved_swing : Q
}.

Definition savePattern (s : t) : option Saved :=
  match patterns s !! currentPattern s with
  | None => None
  | Some pattern =>
      Some (mkSaved (currentPattern s) pattern (resolution s) (bpm s) (swing s))
  end.

(** The argument of [loadPattern]: an absent property is [None],
    [data_steps] is [Object.entries(data.steps)] in the order the host
    enumerates them, each key read by [parseInt]. *)
Record Data := mkData {
  data_name : option string;
  data_steps : option (list (Z * list Z))
}.

(** [new Map()] filled by [pattern.set] in the order of the entries: the
    first value the map yields is the one of the first key set. *)
Definition loaded_pattern (entries : list (Z * list Z)) : gmap Z (list Z) :=
  list_to_map
    (reverse ((λ e : Z * list Z, (e.1, (λ v, v mod 256)%Z <$> e.2)) <$> entries)).

Definition loadPattern (data : Data) (s : t) : bool * t :=
  match data_name data, data_steps data with
  | Some name, Some entries =>
      if bool_decide (name = "") then (false, s)
      else
        let pattern := loaded_pattern entries in
        let firstSteps := head entries ≫= λ e, pattern !! e.1 in
        let res := match firstSteps with
                   | Some firstSteps => length firstSteps
                   | None => resolution s
                   end in
        (true, set_store res (currentStep s) (<[name := pattern]> (patterns s)) name s)
  | _, _ => (false, s)
  end.

(** The host runs the callback of the interval [id], if it is running. *)
Definition fire (id : nat) (now : Q) (s : t) : option t :=
  if decide (id ∈ intervals s) then scheduleNextSteps now s else Some s.

(** [getCurrentPattern().get(note)[i]] *)
Definition cell (note : Z) (i : nat) (s : t) : option Z :=
  pattern ← patterns s !! currentPattern s; steps ← pattern !! note; steps !! i.

(** Every track of the current pattern has [resolution] cells, all bytes. *)
Definition Inv (s : t) : Prop :=
  ∀ pattern note steps,
    patterns s !! currentPattern s = Some pattern → pattern !! note = Some steps →
    length steps = resolution s ∧ Forall (λ v, 0 ≤ v < 256)%Z steps.

(** What can happen to a sequencer. *)
Inductive op :=
| OpStart (now : Q)
| OpStop
| OpSetTempo (bpm : Q)
| OpSetSwing (amount : Q)
| OpSetStep (note step velocity : Z)
| OpSetResolution (steps : nat)
| OpCreatePattern (name : string)
| OpFire (id : nat) (now : Q).

Definition run_op (o : op) (s : t) : option t :=
  match o with
  | OpStart now => start now s
  | OpStop => Some (stop s)
  | OpSetTempo b => Some (setTempo b s)
  | OpSetSwing a => Some (setSwing a s)
  | OpSetStep note step velocity => Some (setStep note step velocity s)
  | OpSetResolution steps => Some (setResolution steps s)
  | OpCreatePattern name => Some (createPattern name s)
  | OpFire id now => fire id now s
  end.

Fixpoint run_ops (ops : list op) (s : t) : option t :=
  match ops with
  | [] => Some s
  | o :: ops => s ← run_op o s; run_ops ops s
  end.

(** The scheduler's timer and the host's table agree: one interval runs
    while the sequencer plays, none while it is stopped. *)
Definition one_interval (s : t) : Prop :=
  if isPlaying s
  then ∃ id, schedulerTimer s = Some id ∧ intervals s = {[id]} ∧ (id < nextTimerId s)%nat
  else schedulerTimer s = None ∧ intervals s = ∅.

End Sequencer.


(** What a scheduling pass of the sequencer leaves alone: all but the step
    counter, the next step time and the calls made. *)
Definition same_but_position (s s' : Sequencer.t) : Prop :=
  Sequencer.isPlaying s' = Sequencer.isPlaying s ∧
  Sequencer.bpm s' = Sequencer.bpm s ∧
  Sequencer.resolution s' = Sequencer.resolution s ∧
  Sequencer.swing s' = Sequencer.swing s ∧
  Sequencer.patterns s' = Sequencer.patterns s ∧
  Sequencer.currentPattern s' = Sequencer.currentPattern s ∧
  Sequencer.stepInterval s' = Sequencer.stepInterval s ∧
  Sequencer.schedulerTimer s' = Sequencer.schedulerTimer s ∧
  Sequencer.intervals s' = Sequencer.intervals s ∧
  Sequencer.nextTimerId s' = Sequencer.nextTimerId s.

(** The state the sequencer keeps through every operation. *)
Definition sequencer_ok (s : Sequencer.t) : Prop :=
  Sequencer.one_interval s ∧ 40 <= Sequencer.bpm s <= 300 ∧
  (Sequencer.isPlaying s = true → 0 < Sequencer.stepInterval s).


(** ** LaunchpadMI (launchpad37.js): the outgoing message queue *)

Module LaunchpadMI.

Definition MIDI_CC : Z := 0xb0.
Definition MIDI_CHANNEL_1 : Z := 0x00.

(** A MIDI message is an array of bytes.  [sent] lists the calls of
    [outputPort.send]; [frames] counts the pending
    [requestAnimationFrame(this.processMessageQueue)] callbacks. *)
Record t := mk {
  inputConnected : bool;
  outputConnected : bool;
  messageQueue : list (list Z);
  processingQueue : bool;
  sent : list (list Z);
  frames : nat
}.

Definition constructor : t := mk false false [] false [] 0.


Definition requestAnimationFrame (s : t) : t :=
  mk (inputConnected s) (outputConnected s) (messageQueue s) (processingQueue s)
     (sent s) (S (frames s)).


Definition queueMessage (message : list Z) (s : t) : t :=
  let s := mk (inputConnected s) (outputConnected s) (messageQueue s ++ [message])
              (processingQueue s) (sent s) (frames s) in
  if negb (processingQueue s) then requestAnimationFrame s else s.





(** [setBrightness(numerator, denominator)] on integers; [None] is the
    [Error] thrown for values out of range. *)
Definition setBrightness (numerator denominator : Z) (s : t) : option t :=
  if bool_decide (numerator < 1)%Z || bool_decide (16 < numerator)%Z ||
     bool_decide (denominator < 3)%Z || bool_decide (18 < denominator)%Z
  then None
  else
    let data :=
      if bool_decide (numerator < 9)%Z
      then (0x10 * (numerator - 1) + (denominator - 3))%Z
      else (0x10 * (numerator - 9) + (denominator - 3))%Z in
    let controller := if bool_decide (numerator < 9)%Z then 0x1e%Z else 0x1f%Z in
    Some (queueMessage [Z.lor MIDI_CC MIDI_CHANNEL_1; controller; data] s).

End LaunchpadMI.

(** ** Conditions of the statements on runs and on live presses *)

(** Whether note [m] was itself pressed during step [step]: its marker is
    set and belongs to that step. *)
Definition pressed_during_step (m : Z) (step : nat) (pattern : Pattern.t) : bool :=
  bool_decide (Pattern.lastStepTriggered pattern = Z.of_nat step) &&
  bool_decide (m ∈ Pattern.manuallyTriggeredNotes pattern).

(** The app of [beat_mode_app] with the clock running: started at time 0
    it stands at step 4.  Note 38 carries a marker left from a press
    during step 2. *)
Definition beat_mode_running : LaunchpadApp.t :=
  LaunchpadApp.mk true (Some (Pattern.set_manual {[38%Z]} 2 snare_on_4))
    (LaunchpadApp.sampleManager beat_mode_app)
    (default (Clock.constructor 120) (Clock.start 0 (Clock.constructor 120))) [].


(** The tempi [setBPM] allows, with the step duration computed from the
    tempo, as on the app's clock ([new Clock(context)] at 120 BPM, then
    [setBPM]): the step duration lies between 1/32 s and 3/16 s. *)
Definition app_tempo (c : Clock.t) : Prop :=
  40 <= Clock.bpm c <= 240 ∧
  Clock.stepDuration c = Clock.calculateStepDuration (Clock.bpm c).

(** Readings of the audio clock up to 2^20 s (twelve days).  At these
    magnitudes and step durations a binary64 sum [time + stepDuration]
    differs from the exact sum by less than a nanosecond, so the exact
    arithmetic of the model decides the loop of a pass as the doubles do,
    but for a target time that falls on the end of the window up to such a
    rounding. *)
Definition audio_time (t : Q) : Prop := 0 <= t <= 1048576.


(** A call or a firing at an audio time. *)
Definition timed_op (o : clock_op) : Prop :=
  match o with
  | OpStart now | OpSetBPM _ now | OpFire _ now => audio_time now
  | OpStop => True
  end.

(** * Theorems *)

(** ** Array lemmas *)

Section arrays.
Context {A : Type}.
Implicit Types (arr src : jsarray A) (v : option A).

Lemma length_Array_fill n (x : A) : length (Array_fill n x) = n.
Proof. apply length_replicate. Qed.

Lemma length_js_fill arr (x : A) : length (js_fill arr x) = length arr.
Proof. apply length_replicate. Qed.

Lemma length_js_set_lt arr i v :
  (i < length arr)%nat → length (js_set arr i v) = length arr.
Proof. intros Hi. unfold js_set. rewrite decide_True by done. apply length_insert. Qed.

Lemma length_js_set_ge arr i v :
  (length arr ≤ i)%nat → length (js_set arr i v) = S i.
Proof.
  intros Hi. unfold js_set. rewrite decide_False by lia.
  rewrite !length_app, length_replicate. simpl. lia.
Qed.

Lemma js_get_set_eq arr i v : js_get (js_set arr i v) i = v.
Proof.
  unfold js_get, js_set. case_decide as Hi.
  - by rewrite list_lookup_insert_eq.
  - rewrite lookup_app_r by lia.
    rewrite lookup_app_r by (rewrite length_replicate; lia).
    rewrite length_replicate. by replace (i - length arr - (i - length arr))%nat with 0%nat by lia.
Qed.

Lemma js_get_set_ne arr i j v :
  i ≠ j → (i < length arr)%nat → js_get (js_set arr i v) j = js_get arr j.
Proof.
  intros Hne Hi. unfold js_get, js_set. rewrite decide_True by done.
  by rewrite list_lookup_insert_ne.
Qed.

Lemma js_get_ge arr i : (length arr ≤ i)%nat → js_get arr i = None.
Proof. intros Hi. unfold js_get. by rewrite lookup_ge_None_2. Qed.

Lemma js_get_Array_fill n (x : A) i :
  (i < n)%nat → js_get (Array_fill n x) i = Some x.
Proof. intros Hi. unfold js_get, Array_fill. by rewrite lookup_replicate_2. Qed.

(** Two arrays of one length with the same reads are equal. *)
Lemma jsarray_eq arr1 arr2 :
  length arr1 = length arr2 →
  (∀ i, (i < length arr1)%nat → js_get arr1 i = js_get arr2 i) → arr1 = arr2.
Proof.
  intros Hlen Hget. apply list_eq_same_length with (length arr1); [done..|].
  intros i x y Hi Hx Hy. specialize (Hget i Hi). unfold js_get in Hget.
  rewrite Hx, Hy in Hget. simpl in Hget. congruence.
Qed.

End arrays.

(** ** The copy loops of [shift], [double] and [halve] *)

Section loops.
Context {A : Type}.
Implicit Types (src : jsarray A) (fill : A).

Lemma halve_loop_upto n k fill src :
  (k ≤ n)%nat →
  let acc := foldl (λ acc i, js_set acc i (js_get src i)) (Array_fill n fill) (seq 0 k) in
  length acc = n ∧
  ∀ j, (j < n)%nat → js_get acc j = if decide (j < k)%nat then js_get src j else Some fill.
Proof.
  induction k as [|k IH]; intros Hk; cbv zeta.
  - simpl. split; [apply length_Array_fill|]. intros j Hj. by apply js_get_Array_fill.
  - destruct IH as [Hlen Hget]; [lia|].
    rewrite seq_S, foldl_app. simpl. split.
    + rewrite length_js_set_lt; [done | lia].
    + intros j Hj. destruct (decide (j = k)) as [->|Hne].
      * rewrite js_get_set_eq. by rewrite decide_True by lia.
      * rewrite js_get_set_ne by lia. rewrite Hget by done.
        repeat case_decide; (done || lia).
Qed.

Lemma length_halve_loop n fill src : length (Pattern.halve_loop n fill src) = n.
Proof. by apply (halve_loop_upto n n fill src). Qed.

Lemma js_get_halve_loop n fill src j :
  (j < n)%nat → js_get (Pattern.halve_loop n fill src) j = js_get src j.
Proof.
  intros Hj. destruct (halve_loop_upto n n fill src) as [_ Hget]; [done|].
  unfold Pattern.halve_loop. rewrite Hget by done. by rewrite decide_True.
Qed.

(** On a source at least as long as the target, [halve]'s loop is [take]. *)
Lemma halve_loop_take n fill src :
  (n ≤ length src)%nat → Pattern.halve_loop n fill src = take n src.
Proof.
  intros Hn. apply jsarray_eq.
  - rewrite length_halve_loop, length_take. lia.
  - intros i Hi. rewrite length_halve_loop in Hi. rewrite js_get_halve_loop by done.
    unfold js_get. by rewrite lookup_take_lt.
Qed.

Lemma double_loop_upto n k fill src :
  (k ≤ n)%nat →
  let acc := foldl (λ acc i, js_set (js_set acc i (js_get src i)) (i + n) (js_get src i))
               (Array_fill (n * 2) fill) (seq 0 k) in
  length acc = (n * 2)%nat ∧
  ∀ j, (j < n * 2)%nat →
    js_get acc j =
      if decide (j < k)%nat then js_get src j
      else if decide (n ≤ j < n + k)%nat then js_get src (j - n)
      else Some fill.
Proof.
  induction k as [|k IH]; intros Hk; cbv zeta.
  - simpl. split; [apply length_Array_fill|]. intros j Hj.
    rewrite js_get_Array_fill by done. by rewrite decide_False by lia.
  - destruct IH as [Hlen Hget]; [lia|].
    rewrite seq_S, foldl_app. simpl. split.
    + rewrite !length_js_set_lt; rewrite ?length_js_set_lt; (done || lia).
    + intros j Hj. destruct (decide (j = k + n)%nat) as [->|Hne1].
      * rewrite js_get_set_eq. rewrite decide_False by lia.
        rewrite decide_True by lia. f_equal. lia.
      * rewrite js_get_set_ne; [|lia|rewrite length_js_set_lt; lia].
        destruct (decide (j = k)) as [->|Hne2].
        -- rewrite js_get_set_eq. by rewrite decide_True by lia.
        -- rewrite js_get_set_ne by lia. rewrite Hget by done.
           repeat case_decide; (done || lia).
Qed.

Lemma length_double_loop n fill src : length (Pattern.double_loop n fill src) = (n * 2)%nat.
Proof. by apply (double_loop_upto n n fill src). Qed.

Lemma js_get_double_loop n fill src j :
  (j < n * 2)%nat →
  js_get (Pattern.double_loop n fill src) j =
    if decide (j < n)%nat then js_get src j else js_get src (j - n).
Proof.
  intros Hj. destruct (double_loop_upto n n fill src) as [_ Hget]; [done|].
  unfold Pattern.double_loop. rewrite Hget by done.
  repeat case_decide; (done || lia).
Qed.

(** On a source of the pattern's length, [double]'s loop is the source
    twice. *)
Lemma double_loop_app fill src :
  Pattern.double_loop (length src) fill src = src ++ src.
Proof.
  apply jsarray_eq.
  - rewrite length_double_loop, length_app. lia.
  - intros i Hi. rewrite length_double_loop in Hi. rewrite js_get_double_loop by done.
    unfold js_get. case_decide.
    + by rewrite lookup_app_l.
    + by rewrite lookup_app_r by lia.
Qed.

Lemma length_js_set_Z_rem (acc : jsarray A) (x : Z) (v : option A) :
  length acc ≠ 0%nat →
  length (js_set_Z acc (Z.rem x (Z.of_nat (length acc))) v) = length acc.
Proof.
  intros Hn. unfold js_set_Z. case_decide; [done|].
  apply length_js_set_lt.
  assert (Z.abs (Z.rem x (Z.of_nat (length acc))) < Z.abs (Z.of_nat (length acc)))%Z
    by (apply Z.rem_bound_abs; lia).
  lia.
Qed.

Lemma length_shift_loop n amount fill src :
  length (Pattern.shift_loop n amount fill src) = n.
Proof.
  unfold Pattern.shift_loop.
  destruct (decide (n = 0%nat)) as [->|Hn]; [done|].
  assert (∀ l (acc : jsarray A), length acc = n →
    length (foldl (λ acc i,
      let newPos := Z.rem (Z.of_nat i + amount + Z.of_nat n) (Z.of_nat n) in
      js_set_Z acc newPos (js_get src i)) acc l) = n) as Hgen.
  { induction l as [|i l IH]; intros acc Hacc; simpl; [done|].
    apply IH. subst n. by apply length_js_set_Z_rem. }
  apply Hgen, length_Array_fill.
Qed.

End loops.

(** ** The pattern invariant *)

Section pattern_invariant.
Import Pattern.
Implicit Types (p : Pattern.t) (note : Z).

Lemma Inv_constructor now n nm : Inv (constructor now n nm).
Proof. intros note track Hl. simpl in Hl. by rewrite lookup_empty in Hl. Qed.

(** Under the invariant no velocity array is missing, so the rebuilding
    [forEach] does not throw, and it acts on each note separately. *)
Lemma forEach_track_Some p f count init body :
  Inv p →
  ∃ p', forEach_track f (with_velocity count init body) p = Some p' ∧
    steps p' = steps p ∧ name p' = name p ∧ id p' = id p ∧
    tracks p' = f <$> tracks p ∧
    ∀ note track, tracks p !! note = Some track →
      ∃ vel, velocities p !! note = Some vel ∧
             velocities p' !! note = Some (body vel).
Proof.
  intros HInv. unfold forEach_track. rewrite decide_True.
  - eexists. split; [done|]. simpl. repeat split.
    intros note track Hl. destruct (HInv _ _ Hl) as (_ & vel & Hv & _).
    exists vel. split; [done|]. rewrite lookup_merge, Hl, Hv. done.
  - intros note track Hl. destruct (HInv _ _ Hl) as (_ & vel & Hv & _).
    rewrite Hv. by eexists.
Qed.

Lemma forEach_track_Inv p p' f count init body n :
  Inv p →
  (∀ track, length track = steps p → length (f track) = n) →
  (∀ vel, length vel = steps p → length (body vel) = n) →
  forEach_track f (with_velocity count init body) p = Some p' →
  Inv (set_steps n p').
Proof.
  intros HInv Hf Hg Hp'.
  destruct (forEach_track_Some p f count init body HInv)
    as (q & Hq & _ & _ & _ & Htr & Hve).
  rewrite Hp' in Hq. injection Hq as <-.
  intros note track Hl. simpl in Hl. rewrite Htr, lookup_fmap in Hl.
  destruct (tracks p !! note) as [track0|] eqn:Hl0; [|done].
  injection Hl as <-. destruct (HInv _ _ Hl0) as (Hlen & vel & Hv & Hlenv).
  split; [by apply Hf|]. simpl.
  destruct (Hve _ _ Hl0) as (vel' & Hv' & ->). rewrite Hv in Hv'. injection Hv' as <-.
  eexists. split; [done|]. by apply Hg.
Qed.

Lemma addTrack_Inv note p : Inv p → Inv (addTrack note p).
Proof.
  intros HInv. unfold addTrack. destruct (tracks p !! note) eqn:Hn; [done|].
  intros note' track Hl. simpl in *.
  destruct (decide (note = note')) as [<-|Hne].
  - rewrite lookup_insert_eq in Hl. injection Hl as <-.
    rewrite lookup_insert_eq, length_Array_fill. split; [done|].
    eexists. split; [done|]. apply length_Array_fill.
  - rewrite lookup_insert_ne in Hl by done. rewrite lookup_insert_ne by done.
    by apply HInv.
Qed.

Lemma addTrack_lookup note p : is_Some (tracks (addTrack note p) !! note).
Proof.
  unfold addTrack. destruct (tracks p !! note) eqn:Hn; [by rewrite Hn|].
  simpl. by rewrite lookup_insert_eq.
Qed.

(** In range, recording keeps the invariant and does not throw. *)
Lemma recordNote_Inv note step velocity p :
  Inv p → (step < steps p)%nat →
  ∃ p', recordNote note step velocity p = Some p' ∧ Inv p' ∧ steps p' = steps p.
Proof.
  intros HInv Hstep. pose proof (addTrack_Inv note p HInv) as HInv1.
  assert (steps (addTrack note p) = steps p) as Hsteps.
  { unfold addTrack. by destruct (tracks p !! note). }
  unfold recordNote. destruct (addTrack_lookup note p) as [track Htrack].
  rewrite Htrack. simpl. destruct (HInv1 _ _ Htrack) as (Hlen & vel & Hv & Hlenv).
  rewrite Hv. simpl. eexists. split; [done|]. split; [|done].
  intros note' track' Hl. simpl in *.
  destruct (decide (note = note')) as [<-|Hne].
  - rewrite lookup_insert_eq in Hl. injection Hl as <-.
    rewrite lookup_insert_eq. rewrite length_js_set_lt by lia. split; [done|].
    eexists. split; [done|]. rewrite length_js_set_lt; lia.
  - rewrite lookup_insert_ne in Hl by done. rewrite lookup_insert_ne by done.
    by apply HInv1.
Qed.

Lemma clear_Inv p : Inv p → Inv (clear p).
Proof.
  intros HInv note track Hl. simpl in *. rewrite lookup_fmap in Hl.
  destruct (tracks p !! note) as [track0|] eqn:Hl0; [|done].
  injection Hl as <-. destruct (HInv _ _ Hl0) as (Hlen & vel & Hv & Hlenv).
  rewrite length_js_fill. split; [done|].
  rewrite lookup_fmap, Hv. eexists. split; [done|]. by rewrite length_js_fill.
Qed.

Lemma clearTrack_Inv note p :
  Inv p → ∃ p', clearTrack note p = Some p' ∧ Inv p'.
Proof.
  intros HInv. unfold clearTrack.
  destruct (tracks p !! note) as [track|] eqn:Hl; [|by eexists].
  destruct (HInv _ _ Hl) as (Hlen & vel & Hv & Hlenv). rewrite Hv. simpl.
  eexists. split; [done|]. intros note' track' Hl'. simpl in *.
  destruct (decide (note = note')) as [<-|Hne].
  - rewrite lookup_insert_eq in Hl'. injection Hl' as <-.
    rewrite lookup_insert_eq, !length_js_fill. split; [done|].
    eexists. split; [done|]. by rewrite length_js_fill.
  - rewrite lookup_insert_ne in Hl' by done. rewrite lookup_insert_ne by done.
    by apply HInv.
Qed.

Lemma shift_Inv amount p :
  Inv p → ∃ p', shift amount p = Some p' ∧ Inv p'.
Proof.
  intros HInv. unfold shift.
  destruct (forEach_track_Some p (shift_loop (steps p) amount 0%Z) (steps p)
              (Array_fill (steps p) 1.0) (shift_loop (steps p) amount 1.0) HInv)
    as (p' & Hp' & Hs & _).
  exists p'. split; [done|].
  replace p' with (set_steps (steps p) p') by (destruct p'; simpl in *; by subst).
  eapply forEach_track_Inv; [done| | |done]; intros; apply length_shift_loop.
Qed.

Lemma double_Inv p : Inv p → ∃ p', double p = Some p' ∧ Inv p'.
Proof.
  intros HInv. unfold double. case_decide; [by eexists|].
  destruct (forEach_track_Some p (double_loop (steps p) 0%Z) (steps p)
              (Array_fill (steps p * 2) 1.0) (double_loop (steps p) 1.0) HInv)
    as (p' & Hp' & _).
  rewrite Hp'. simpl. eexists. split; [done|].
  eapply forEach_track_Inv; [done| | |done]; intros; apply length_double_loop.
Qed.

Lemma halve_Inv p :
  Inv p → Nat.even (steps p) = true → ∃ p', halve p = Some p' ∧ Inv p'.
Proof.
  intros HInv Heven. unfold halve. case_decide; [by eexists|]. rewrite Heven.
  destruct (forEach_track_Some p (halve_loop (steps p / 2) 0%Z) (steps p / 2)
              (Array_fill (steps p / 2) 1.0) (halve_loop (steps p / 2) 1.0) HInv)
    as (p' & Hp' & _).
  rewrite Hp'. simpl. eexists. split; [done|].
  eapply forEach_track_Inv; [done| | |done]; intros; apply length_halve_loop.
Qed.

Lemma Map_of_entries_of_Map {A} (m : gmap Z A) :
  Map_of_entries (entries_of_Map m) = m.
Proof.
  unfold Map_of_entries, entries_of_Map.
  rewrite <- (list_to_map_to_list m) at 2.
  apply list_to_map_proper.
  - rewrite fmap_reverse. rewrite reverse_Permutation. apply NoDup_fst_map_to_list.
  - apply reverse_Permutation.
Qed.

(** Loading what [toJSON] wrote keeps the invariant. *)
Lemma fromJSON_toJSON_Inv now p q : Inv p → Inv (fromJSON now (toJSON p) q).
Proof.
  intros HInv note track Hl. unfold fromJSON, toJSON in *. simpl in *.
  rewrite Map_of_entries_of_Map in Hl. rewrite Map_of_entries_of_Map.
  by apply HInv.
Qed.

End pattern_invariant.


(** ** The scheduling pass of the clock *)

Section clock_pass.
Import Clock.
Implicit Types (c : Clock.t) (now endTime : Q).

Lemma same_tempo_refl c : same_tempo c c.
Proof. by repeat split. Qed.

Lemma same_tempo_trans c1 c2 c3 : same_tempo c1 c2 → same_tempo c2 c3 → same_tempo c1 c3.
Proof. unfold same_tempo. intros (-> & -> & -> & ->) (-> & -> & -> & ->). done. Qed.

Lemma no_recalibration_register f k delay c :
  f ≠ CbRecalibrate → no_recalibration c → no_recalibration (snd (register f k delay c)).
Proof.
  intros Hf Hc id tm. simpl. intros Hl.
  destruct (decide (nextTimerId c = id)) as [<-|Hne].
  - rewrite lookup_insert_eq in Hl. by injection Hl as <-.
  - rewrite lookup_insert_ne in Hl by done. by eapply Hc.
Qed.

Lemma no_recalibration_delete id c :
  no_recalibration c → no_recalibration (set_timers (delete id (timers c)) (nextTimerId c) c).
Proof.
  intros Hc id' tm. simpl. intros Hl. apply lookup_delete_Some in Hl as [_ Hl].
  by eapply Hc.
Qed.

Lemma scheduleStep_stopped step time now c :
  isPlaying c = false → scheduleStep step time now c = c.
Proof. intros Hp. unfold scheduleStep. by rewrite Hp. Qed.

Lemma scheduleStep_playing step time now c :
  isPlaying c = true →
  let c' := scheduleStep step time now c in
  log c' = log c ++ [StepEvent step time] ∧ same_tempo c c' ∧
  currentStep c' = currentStep c ∧ nextStepTime c' = nextStepTime c ∧
  (no_recalibration c → no_recalibration c').
Proof.
  intros Hp. unfold scheduleStep. rewrite Hp. simpl.
  case_decide; simpl; repeat split; try done.
  - intros Hc id tm. simpl. intros Hl.
    destruct (decide (nextTimerId c = id)) as [<-|Hne].
    + rewrite lookup_insert_eq in Hl. by injection Hl as <-.
    + rewrite lookup_insert_ne in Hl by done. by eapply Hc.
  - intros Hc id tm. simpl. intros Hl.
    destruct (decide (nextTimerId c = id)) as [<-|Hne].
    + rewrite lookup_insert_eq in Hl. by injection Hl as <-.
    + rewrite lookup_insert_ne in Hl by done. by eapply Hc.
Qed.








(** The loop, by induction on the fuel: with a positive step duration and
    enough fuel it ends, having emitted every step due before [endTime] and
    no other. *)
Lemma scheduleAhead_loop_spec fuel now endTime c :
  0 < stepDuration c →
  endTime - nextStepTime c <= inject_Z (Z.of_nat fuel) * stepDuration c →
  ∃ n c', scheduleAhead_loop fuel now endTime c = Some c' ∧
    same_tempo c c' ∧
    currentStep c' = advance_index n (currentStep c) ∧
    nextStepTime c' = advance_time n (nextStepTime c) (stepDuration c) ∧
    (∀ k, (k < n)%nat → advance_time k (nextStepTime c) (stepDuration c) < endTime) ∧
    endTime <= advance_time n (nextStepTime c) (stepDuration c) ∧
    log c' = log c ++ (if isPlaying c then expected n (currentStep c) (nextStepTime c) (stepDuration c) else []) ∧
    (no_recalibration c → no_recalibration c').
Proof.
  revert c. induction fuel as [|fuel IH]; intros c Hd Hfuel.
  - exists 0%nat, c. simpl. rewrite decide_False.
    + repeat split; try done; try (intros; lia).
      * change (inject_Z (Z.of_nat 0)) with 0 in Hfuel. lra.
      * destruct (isPlaying c); by rewrite app_nil_r.
    + change (inject_Z (Z.of_nat 0)) with 0 in Hfuel. lra.
  - simpl. case_decide as Hlt.
    + set (c1 := advanceStep (scheduleStep (currentStep c) (nextStepTime c) now c)).
      assert (same_tempo c c1 ∧ currentStep c1 = ((currentStep c + 1) mod BEAT_STEPS)%nat ∧
              nextStepTime c1 = nextStepTime c + stepDuration c ∧
              log c1 = log c ++ (if isPlaying c then [StepEvent (currentStep c) (nextStepTime c)] else []) ∧
              (no_recalibration c → no_recalibration c1)) as (Hst & Hcs & Hnt & Hlog & Hnr).
      { subst c1. destruct (isPlaying c) eqn:Hp.
        - destruct (scheduleStep_playing (currentStep c) (nextStepTime c) now c Hp)
            as (Hl & (Hb & Hsd & Hip & Hri) & Hc & Hn & Hr).
          unfold advanceStep. simpl. rewrite Hc, Hn, Hsd.
          repeat split; first [done | by rewrite Hip].
        - rewrite scheduleStep_stopped by done. unfold advanceStep. simpl.
          repeat split; try done. by rewrite app_nil_r. }
      destruct Hst as (Hb & Hsd & Hip & Hri).
      destruct (IH c1) as (n & c' & Hloop & Hst' & Hcs' & Hnt' & Hbefore & Hafter & Hlog' & Hnr').
      { by rewrite Hsd. }
      { rewrite Hsd, Hnt. rewrite Nat2Z.inj_succ, <- Z.add_1_r, inject_Z_plus in Hfuel.
        change (inject_Z 1) with 1 in Hfuel. lra. }
      exists (S n), c'. rewrite Hloop. split; [done|]. split.
      { eapply same_tempo_trans; [|done]. by repeat split. }
      rewrite Hsd, Hnt, Hcs in *. repeat split; try done.
      * intros [|k] Hk; [done|]. simpl. apply Hbefore. lia.
      * rewrite Hlog', Hlog, Hip. destruct (isPlaying c); simpl.
        -- by rewrite <- app_assoc.
        -- by rewrite !app_nil_r.
      * intros Hc. by apply Hnr', Hnr.
    + exists 0%nat, c. repeat split; try done; try (intros; lia).
      * simpl. apply Qnot_lt_le. done.
      * destruct (isPlaying c); by rewrite app_nil_r.
Qed.

(** The fuel [scheduleAhead] gives its loop is enough. *)
Lemma iterations_enough endTime c :
  0 < stepDuration c →
  endTime - nextStepTime c <= inject_Z (Z.of_nat (iterations endTime c)) * stepDuration c.
Proof.
  intros Hd. unfold iterations.
  set (x := (endTime - nextStepTime c) / stepDuration c).
  assert (x <= inject_Z (Z.of_nat (Z.to_nat (Qceiling x)))) as Hx.
  { eapply Qle_trans; [apply Qle_ceiling|]. rewrite <- Zle_Qle. lia. }
  assert (endTime - nextStepTime c == x * stepDuration c) as ->.
  { subst x. field. lra. }
  apply Qmult_le_compat_r; [done | lra].
Qed.

(** One scheduling pass. *)
Lemma scheduleAhead_spec now c :
  0 < stepDuration c →
  ∃ n c', scheduleAhead now c = Some c' ∧
    same_tempo c c' ∧
    currentStep c' = advance_index n (currentStep c) ∧
    nextStepTime c' = advance_time n (nextStepTime c) (stepDuration c) ∧
    (∀ k, (k < n)%nat → advance_time k (nextStepTime c) (stepDuration c) < now + 0.2) ∧
    now + 0.2 <= advance_time n (nextStepTime c) (stepDuration c) ∧
    log c' = log c ++ (if isPlaying c then expected n (currentStep c) (nextStepTime c) (stepDuration c) else []) ∧
    (no_recalibration c → no_recalibration c').
Proof.
  intros Hd.
  destruct (scheduleAhead_loop_spec (iterations (now + 0.2) c) now (now + 0.2) c Hd
              (iterations_enough _ _ Hd))
    as (n & c' & Hloop & Hst & Hcs & Hnt & Hbefore & Hafter & Hlog & Hnr).
  unfold scheduleAhead. rewrite Hloop. simpl.
  destruct (isPlaying c') eqn:Hp'.
  - eexists n, _. split; [done|]. simpl.
    destruct Hst as (Hb & Hsd & Hip & Hri). repeat split; try done.
    intros Hc id tm. simpl. intros Hl.
    destruct (decide (nextTimerId c' = id)) as [<-|Hne].
    + rewrite lookup_insert_eq in Hl. by injection Hl as <-.
    + rewrite lookup_insert_ne in Hl by done. by eapply (Hnr Hc).
  - by exists n, c'.
Qed.

End clock_pass.

(** ** A run of the clock: [start()], then the host firing timers *)

Section clock_run.
Import Clock.
Implicit Types (c : Clock.t) (now : Q).

Lemma steps_of_app l1 l2 : steps_of (l1 ++ l2) = steps_of l1 ++ steps_of l2.
Proof. apply omap_app. Qed.






End clock_run.

Section clock_claims.
Import Clock.





End clock_claims.


Section clock_stop_and_drift.
Import Clock.
Implicit Types (c : Clock.t) (now : Q).

Lemma stop_idempotent c : stop (stop c) = stop c.
Proof. reflexivity. Qed.

Lemma stop_state c :
  isPlaying (stop c) = false ∧ currentStep (stop c) = 0%nat ∧
  scheduledEvents (stop c) = ∅ ∧ scheduledNotes (stop c) = ∅ ∧
  timers (stop c) = timers c.
Proof. done. Qed.

(** C2. [stop()] is idempotent and resets the step index, but it cancels no
    host timer.  At 120 BPM: [start()] at time 0 schedules steps 0..3 and
    arms the rescheduling timeout (handle 4); after [stop()], once or twice,
    that timeout is still registered, and when the host fires it at time
    0.16 the pass advances the step index to 2.  A tick frame requested
    before [stop()] (handle 5) still delivers its tick after it. *)
Theorem stop_leaves_timers_pending :
  let c0 := constructor 120 in
  ∃ c1 c2 c3 c4,
    start 0 c0 = Some c1 ∧
    stop (stop c1) = stop c1 ∧ currentStep (stop c1) = 0%nat ∧
    timers (stop c1) !! 4%nat = Some (mkTimer CbScheduleAhead Timeout 160.00) ∧
    fire 4 0.16 (stop c1) = Some c2 ∧
    isPlaying c2 = false ∧ currentStep c2 = 2%nat ∧ log c2 = log c1 ∧
    fire 1 0.05 c1 = Some c3 ∧
    fire 5 0.06 (stop c3) = Some c4 ∧
    log c4 = log (stop c3) ++ [Tick 1].
Proof.
  intros c0. eexists _, _, _, _.
  split; [vm_compute; reflexivity|].
  split; [reflexivity|]. split; [reflexivity|].
  split; [vm_compute; reflexivity|].
  split; [vm_compute; reflexivity|].
  split; [reflexivity|]. split; [reflexivity|]. split; [reflexivity|].
  split; [vm_compute; reflexivity|].
  split; [vm_compute; reflexivity|].
  reflexivity.
Qed.

Lemma recalibrate_far c now :
  0.05 < Qabs (nextStepTime c - stepDuration c - now) →
  recalibrate now c = set_position (isPlaying c) (currentStep c) (now + stepDuration c) c.
Proof. intros H. unfold recalibrate. by rewrite decide_True. Qed.

Lemma recalibrate_near c now :
  Qabs (nextStepTime c - stepDuration c - now) <= 0.05 → recalibrate now c = c.
Proof. intros H. unfold recalibrate. rewrite decide_False; [done|]. lra. Qed.

Lemma never_recalibrates_scheduleStep step time now c :
  never_recalibrates c → never_recalibrates (scheduleStep step time now c).
Proof.
  intros [Hri Hnr]. destruct (isPlaying c) eqn:Hp.
  - destruct (scheduleStep_playing step time now c Hp) as (_ & (_ & _ & _ & Hri') & _ & _ & Hnr').
    split; [by rewrite Hri' | by apply Hnr'].
  - by rewrite scheduleStep_stopped.
Qed.

Lemma never_recalibrates_loop fuel now endTime : ∀ c c',
  scheduleAhead_loop fuel now endTime c = Some c' →
  never_recalibrates c → never_recalibrates c'.
Proof.
  induction fuel as [|fuel IH]; intros c c'; simpl; case_decide; try done.
  - by intros [= <-].
  - intros Hloop Hc. apply (IH _ _ Hloop).
    by apply (never_recalibrates_scheduleStep (currentStep c) (nextStepTime c) now c).
  - by intros [= <-].
Qed.

Lemma never_recalibrates_scheduleAhead now c c' :
  scheduleAhead now c = Some c' → never_recalibrates c → never_recalibrates c'.
Proof.
  unfold scheduleAhead. intros Hs Hc.
  destruct (scheduleAhead_loop _ now (now + 0.2) c) as [c1|] eqn:Hloop; [|done].
  simpl in Hs. pose proof (never_recalibrates_loop _ _ _ _ _ Hloop Hc) as [Hri Hnr].
  destruct (isPlaying c1); injection Hs as <-; [|done].
  split; [done|]. by apply (no_recalibration_register CbScheduleAhead).
Qed.

Lemma never_recalibrates_op o c c' :
  run_op o c = Some c' → never_recalibrates c → never_recalibrates c'.
Proof.
  destruct o as [now| |b now|id now]; simpl.
  - unfold start. destruct (isPlaying c); [by intros [= <-]|].
    intros Hs Hc. by apply (never_recalibrates_scheduleAhead _ _ _ Hs).
  - by intros [= <-].
  - unfold setBPM. simpl. destruct (_ && _).
    + intros Hs Hc. by apply (never_recalibrates_scheduleAhead _ _ _ Hs).
    + by intros [= <-].
  - unfold fire. destruct (timers c !! id) as [tm|] eqn:Htm; [|by intros [= <-]].
    intros Hf [Hri Hnr]. pose proof (Hnr _ _ Htm) as Hcb. simpl in Hcb.
    set (c1 := match kind tm with
               | Interval => c
               | _ => set_timers (delete id (timers c)) (nextTimerId c) c
               end) in *.
    assert (never_recalibrates c1) as Hc1.
    { subst c1. destruct (kind tm); split; try done; by apply no_recalibration_delete. }
    clearbody c1. destruct (cb tm) as [|step|step|step|]; [| | | |done].
    + by apply (never_recalibrates_scheduleAhead _ _ _ Hf).
    + injection Hf as <-. destruct (isPlaying c1); [|done].
      destruct Hc1. split; [done|]. by apply no_recalibration_register.
    + by injection Hf as <-.
    + injection Hf as <-. by destruct (isPlaying c1).
Qed.

Lemma never_recalibrates_ops ops : ∀ c c',
  run_ops ops c = Some c' → never_recalibrates c → never_recalibrates c'.
Proof.
  induction ops as [|o ops IH]; intros c c'; simpl; [by intros [= <-]|].
  destruct (run_op o c) as [c1|] eqn:Ho; [|done]. simpl.
  intros Hr Hc. apply (IH _ _ Hr). by apply (never_recalibrates_op o c).
Qed.

End clock_stop_and_drift.

Section clock_drift_and_tempo.
Import Clock.
Implicit Types (c : Clock.t) (now : Q).

(** C3, as stated, fails: at 120 BPM, [start()] at time 0 leaves
    [nextStepTime] at 0.25; when the rescheduling timeout fires late, at
    time 2, the expected time of the last step is 1.8125 s behind the audio
    clock, and the pass neither realigns [nextStepTime] to [now +
    stepDuration] nor skips the overdue steps: it emits step 4 for time 0.25
    and goes on from there, and it is not the pass of the recalibrated
    clock. *)
Lemma drift_not_corrected_by_pass :
  ∃ c c',
    run_ops [OpStart 0] (constructor 120) = Some c ∧
    isPlaying c = true ∧
    0.05 < Qabs (nextStepTime c - stepDuration c - 2) ∧
    run_op (OpFire 4 2) c = Some c' ∧
    log c' !! 4%nat = Some (StepEvent 4 (advance_time 4 0 (stepDuration c))) ∧
    advance_time 4 0 (stepDuration c) < 2 ∧
    ¬ nextStepTime c' == 2 + stepDuration c ∧
    scheduleAhead 2 c ≠ scheduleAhead 2 (recalibrate 2 c).
Proof.
  eexists _, _.
  split; [vm_compute; reflexivity|].
  split; [reflexivity|].
  split; [vm_compute; reflexivity|].
  split; [vm_compute; reflexivity|].
  split; [vm_compute; reflexivity|].
  split; [vm_compute; reflexivity|].
  split; [vm_compute; discriminate|].
  vm_compute. discriminate.
Qed.

(** C3, amended.  [recalibrate()] compares [nextStepTime - stepDuration]
    with the audio clock: when the magnitude of the difference exceeds
    0.05 s it sets [nextStepTime] to [now + stepDuration] and changes
    nothing else, and otherwise it changes nothing.  Nothing runs it
    periodically: whatever methods are called on a constructed clock and
    whatever timers the host fires, the recalibration interval is unset and
    no registered timer runs [recalibrate]; a scheduling pass goes on from
    [nextStepTime] as it stands. *)
Theorem recalibrate_only_on_request (c : Clock.t) (now : Q) (b : Q)
    (ops : list clock_op) (c' : Clock.t) :
  let drift := nextStepTime c - stepDuration c - now in
  (0.05 < Qabs drift →
     recalibrate now c =
       set_position (isPlaying c) (currentStep c) (now + stepDuration c) c) ∧
  (Qabs drift <= 0.05 → recalibrate now c = c) ∧
  (run_ops ops (constructor b) = Some c' →
     recalibrationInterval c' = None ∧
     ∀ id tm, timers c' !! id = Some tm → cb tm ≠ CbRecalibrate) ∧
  (isPlaying c = true → 0 < stepDuration c →
     ∃ n c'', scheduleAhead now c = Some c'' ∧
       log c'' = log c ++ expected n (currentStep c) (nextStepTime c) (stepDuration c)).
Proof.
  intros drift. split; [apply recalibrate_far|]. split; [apply recalibrate_near|].
  split.
  - intros Hrun. apply (never_recalibrates_ops _ _ _ Hrun).
    split; [done | apply map_Forall_empty].
  - intros Hp Hd.
    destruct (scheduleAhead_spec now c Hd) as (n & c'' & Hs & _ & _ & _ & _ & _ & Hlog & _).
    exists n, c''. rewrite Hp in Hlog. done.
Qed.

Lemma recalibrate_only_on_request_witness :
  ∃ c, run_ops [OpStart 0] (constructor 120) = Some c ∧
    0.05 < Qabs (nextStepTime c - stepDuration c - 2) ∧
    recalibrate 2 c = set_position (isPlaying c) (currentStep c) (2 + stepDuration c) c ∧
    recalibrationInterval c = None.
Proof.
  eexists. split; [vm_compute; reflexivity|].
  match goal with |- _ ∧ recalibrate 2 ?c = _ ∧ _ =>
    destruct (recalibrate_only_on_request c 2 120 [OpStart 0] c) as (Hfar & _ & Hnever & _)
  end.
  split; [vm_compute; reflexivity|].
  split; [apply Hfar; vm_compute; reflexivity|].
  apply Hnever. vm_compute. reflexivity.
Defined.

(** C4, as stated, fails for version 3.7: [setTempo(1000)] yields 300. *)
Lemma setTempo_1000_is_300 :
  BeatSequencer.bpm (BeatSequencer.setTempo 1000 (BeatSequencer.constructor ∅)) = 300 ∧
  ¬ BeatSequencer.bpm (BeatSequencer.setTempo 1000 (BeatSequencer.constructor ∅)) <= 240.
Proof. split; [reflexivity|]. vm_compute. intros H. by apply H. Qed.

Lemma clamp_bounds lo hi x : lo <= hi → lo <= Math_max lo (Math_min hi x) <= hi.
Proof.
  intros H. unfold Math_max, Math_min. split.
  - apply Q.le_max_l.
  - apply Q.max_lub; [done | apply Q.le_min_l].
Qed.

Lemma calculateStepDuration_pos b : 0 < b → 0 < calculateStepDuration b.
Proof.
  intros Hb. unfold calculateStepDuration, STEPS_PER_QUARTER.
  apply Qlt_shift_div_l; [|lra].
  assert (b / 60 == b * (1 # 60)) as -> by (field; lra). lra.
Qed.

(** C4, amended.  In version 3.5 [setBPM(x)] returns for every [x], with
    the tempo clamped into [40, 240] ([setBPM(10)] gives 40, [setBPM(1000)]
    gives 240) and the step duration recomputed from the clamped tempo.  In
    version 3.7 [setTempo(x)] clamps into [40, 300] ([setTempo(10)] gives
    40, [setTempo(1000)] gives 300), and recomputes the step interval from
    the clamped tempo while the sequencer is playing. *)
Theorem tempo_is_clamped (x now : Q) (c : Clock.t) (s : BeatSequencer.t) :
  (∃ c', setBPM x now c = Some c' ∧
     bpm c' = Math_max 40 (Math_min 240 x) ∧
     40 <= bpm c' <= 240 ∧
     stepDuration c' = calculateStepDuration (bpm c')) ∧
  (∃ c10 c1000, setBPM 10 now c = Some c10 ∧ bpm c10 = 40 ∧
                setBPM 1000 now c = Some c1000 ∧ bpm c1000 = 240) ∧
  (let s' := BeatSequencer.setTempo x s in
   BeatSequencer.bpm s' = Math_max 40 (Math_min 300 x) ∧
   40 <= BeatSequencer.bpm s' <= 300 ∧
   BeatSequencer.stepInterval s' =
     if BeatSequencer.isPlaying s then 60.0 / BeatSequencer.bpm s' / 4
     else BeatSequencer.stepInterval s) ∧
  BeatSequencer.bpm (BeatSequencer.setTempo 10 s) = 40 ∧
  BeatSequencer.bpm (BeatSequencer.setTempo 1000 s) = 300.
Proof.
  assert (∀ y, ∃ c', setBPM y now c = Some c' ∧
     bpm c' = Math_max 40 (Math_min 240 y) ∧
     stepDuration c' = calculateStepDuration (bpm c')) as HsetBPM.
  { intros y. unfold setBPM. simpl. destruct (_ && _).
    - set (c1 := clearScheduledEvents _).
      destruct (scheduleAhead_spec now c1) as (n & c' & Hs & (Hb & Hsd & _) & _).
      { subst c1. simpl. apply calculateStepDuration_pos.
        pose proof (clamp_bounds 40 240 y). lra. }
      exists c'. split; [done|]. by rewrite Hb, Hsd.
    - eexists. by split. }
  split; [|split; [|split]].
  - destruct (HsetBPM x) as (c' & Hs & Hb & Hsd). exists c'.
    split; [done|]. split; [done|]. split; [|done].
    rewrite Hb. apply clamp_bounds. lra.
  - destruct (HsetBPM 10) as (c10 & Hs10 & Hb10 & _).
    destruct (HsetBPM 1000) as (c1000 & Hs1000 & Hb1000 & _).
    by exists c10, c1000.
  - simpl. split; [done|]. split; [apply clamp_bounds; lra | done].
  - done.
Qed.

End clock_drift_and_tempo.

(** ** The sound trigger engine *)

Section sound_trigger.
Import SampleManager.
Implicit Types (sm : SampleManager.t) (note : Z).

Lemma Math_min_cases x y :
  (x <= y ∧ Math_min x y = x) ∨ (y < x ∧ Math_min x y = y).
Proof.
  unfold Math_min, Qmin, GenericMinMax.gmin.
  destruct (Qcompare_spec x y) as [H|H|H]; [left|left|right]; split; try done; lra.
Qed.

Lemma Math_max_cases x y :
  (y <= x ∧ Math_max x y = x) ∨ (x < y ∧ Math_max x y = y).
Proof.
  unfold Math_max, Qmax, GenericMinMax.gmax.
  destruct (Qcompare_spec x y) as [H|H|H]; [left|right|left]; split; try done; lra.
Qed.

(** The clamp of [setSampleRange]: into [0, 1], and the identity inside. *)
Lemma clamp01 x :
  0 <= Math_max 0 (Math_min x 1) <= 1 ∧
  (0 < x <= 1 → Math_max 0 (Math_min x 1) = x) ∧
  (1 < x → Math_max 0 (Math_min x 1) = 1).
Proof.
  destruct (Math_min_cases x 1) as [[H1 ->]|[H1 ->]];
    destruct (Math_max_cases 0 x) as [[H2 E2]|[H2 E2]];
    destruct (Math_max_cases 0 1) as [[H3 E3]|[H3 E3]];
    rewrite ?E2, ?E3; repeat split; intros; try lra; try done.
Qed.

Lemma orQ_pos x d : 0 < x → orQ (Some x) d = x.
Proof.
  intros Hx. unfold orQ, truthyQ. destruct (Qeq_bool x 0) eqn:E; [|done].
  apply Qeq_bool_iff in E. lra.
Qed.

(** With no voice of the note playing, a trigger of a loaded note starts a
    voice; its gain is the constant 0.7 and its duration the length of the
    stored trim region. *)
Lemma triggerSound_voice sm note sample v time now :
  samples sm !! note = Some sample → playing sm !! note = None →
  ∃ sm' info, triggerSound note v time now sm = (sm', Some info) ∧
    gain info = Math_min (Math_sqrt 1) 1.0 * 0.7 ∧
    source_when info = time ∧
    source_offset info = buffer_duration sample * orQ (Some (start sample)) 0 ∧
    source_duration info =
      buffer_duration sample * orQ (Some (end' sample)) 1
      - buffer_duration sample * orQ (Some (start sample)) 0.
Proof.
  intros Hs Hp. unfold triggerSound. rewrite Hs, Hp. simpl.
  eexists _, _. split; [done|]. done.
Qed.

(** C5.  The gain of a new voice does not follow the velocity passed to
    [triggerSound]: the function sets [velocity = 1] before the square-root
    curve is applied.  With a sample loaded on note 36, a trigger at
    velocity 0.25 starts a voice of gain 0.7, where the curve
    [min(sqrt(0.25), 1) * 0.7] gives 0.35; the gain is the same at every
    velocity. *)
Theorem triggerSound_gain_ignores_velocity :
  let sm := SampleManager.mk {[ 36%Z := mkSample 2 "kick.wav" 0 1 ]} ∅ in
  (∃ sm' info, triggerSound 36 0.25 0 0 sm = (sm', Some info) ∧
     gain info == 0.7 ∧
     Math_min (Math_sqrt 0.25) 1.0 * 0.7 == 0.35 ∧
     ¬ gain info == Math_min (Math_sqrt 0.25) 1.0 * 0.7) ∧
  ∀ v v' time now,
    gain <$> snd (triggerSound 36 v time now sm) =
    gain <$> snd (triggerSound 36 v' time now sm).
Proof.
  intros sm. split.
  - eexists _, _. split; [vm_compute; reflexivity|].
    split; [vm_compute; reflexivity|]. split; [vm_compute; reflexivity|].
    vm_compute. discriminate.
  - intros v v' time now. reflexivity.
Qed.

(** Version 3.7 sets the gain linearly in the velocity. *)
Lemma scheduleSampleAtTime_gain (s : BeatSequencer.t) note sample v time :
  BeatSequencer.samples s !! note = Some sample →
  ∃ voice, BeatSequencer.scheduleSampleAtTime note v time s = Some voice ∧
    BeatSequencer.gain_value voice = (v / 127) * BeatSequencer.gain sample.
Proof. intros Hs. unfold BeatSequencer.scheduleSampleAtTime. rewrite Hs. by eexists. Qed.

Lemma setSampleRange_lookup sm note sample s e :
  samples sm !! note = Some sample →
  samples (setSampleRange note s e sm) !! note =
    Some (mkSample (buffer_duration sample) (file sample)
            (Math_max 0 (Math_min s 1)) (Math_max 0 (Math_min e 1))) ∧
  playing (setSampleRange note s e sm) = playing sm.
Proof.
  intros Hs. unfold setSampleRange. rewrite Hs. simpl. by rewrite lookup_insert_eq.
Qed.

(** C10.  [setSampleRange] clamps [start] and [end] into [0, 1], each on its
    own.  When [0 < end < start] and [end < 1] the stored region is
    inverted, and the next trigger of the note starts a voice whose
    duration, [buffer.duration * end - buffer.duration * start], is
    negative and is what [source.start] receives. *)
Theorem inverted_trim_region (sm : SampleManager.t) (note : Z) (sample : Sample)
    (s e v time now : Q) :
  samples sm !! note = Some sample → playing sm !! note = None →
  0 < buffer_duration sample →
  0 < e → e < s → e < 1 →
  ∃ stored sm' info,
    samples (setSampleRange note s e sm) !! note = Some stored ∧
    0 <= start stored <= 1 ∧ 0 <= end' stored <= 1 ∧
    end' stored = e ∧ end' stored < start stored ∧
    triggerSound note v time now (setSampleRange note s e sm) = (sm', Some info) ∧
    source_duration info =
      buffer_duration sample * end' stored - buffer_duration sample * start stored ∧
    source_duration info < 0.
Proof.
  intros Hs Hp Hd He Hes He1.
  destruct (setSampleRange_lookup sm note sample s e Hs) as [Hl Hpl].
  set (stored := mkSample _ _ _ _) in Hl.
  destruct (clamp01 s) as (Hs01 & Hsid & Hs1).
  destruct (clamp01 e) as (He01 & Heid & _).
  assert (end' stored = e) as Hend by (apply Heid; lra).
  assert (e < start stored) as Hstart.
  { simpl. destruct (Qlt_le_dec 1 s) as [H|H].
    - by rewrite Hs1.
    - rewrite Hsid; lra. }
  destruct (triggerSound_voice (setSampleRange note s e sm) note stored v time now)
    as (sm' & info & Ht & _ & _ & _ & Hdur); [done | by rewrite Hpl |].
  exists stored, sm', info. split; [done|]. split; [done|]. split; [done|].
  split; [done|]. split; [by rewrite Hend|]. split; [done|].
  rewrite Hdur. rewrite !orQ_pos by (rewrite ?Hend; lra). split; [done|].
  rewrite Hend. change (buffer_duration stored) with (buffer_duration sample).
  assert (buffer_duration sample * e < buffer_duration sample * start stored)
    by (apply Qmult_lt_l; done).
  lra.
Qed.

Lemma inverted_trim_region_witness :
  let sm := SampleManager.mk {[ 36%Z := mkSample 2 "kick.wav" 0 1 ]} ∅ in
  ∃ stored sm' info,
    samples (setSampleRange 36 0.8 0.3 sm) !! 36%Z = Some stored ∧
    start stored = 0.8 ∧ end' stored = 0.3 ∧
    triggerSound 36 1 0 0 (setSampleRange 36 0.8 0.3 sm) = (sm', Some info) ∧
    source_duration info < 0.
Proof.
  intros sm.
  destruct (inverted_trim_region sm 36 (mkSample 2 "kick.wav" 0 1) 0.8 0.3 1 0 0)
    as (stored & sm' & info & Hl & _ & _ & He & _ & Ht & _ & Hneg);
    try (vm_compute; reflexivity).
  exists stored, sm', info. split; [exact Hl|].
  split; [|split; [exact He | split; [exact Ht | exact Hneg]]].
  vm_compute in Hl. injection Hl as <-. reflexivity.
Defined.

End sound_trigger.

(** ** The pattern store: recording, serialization, length transforms *)

Section pattern_claims.
Import Pattern.
Implicit Types (p q : Pattern.t) (note : Z).

Lemma recordNote_read note step v p p1 :
  recordNote note step v p = Some p1 →
  getNoteParams note step p1 = mkParams true (Math_max 0.1 (Math_min 1.0 v)) ∧
  name p1 = name p ∧ id p1 = id p ∧ steps p1 = steps p.
Proof.
  unfold recordNote. intros Hr.
  assert (name (addTrack note p) = name p ∧ id (addTrack note p) = id p ∧
          steps (addTrack note p) = steps p) as (Hn & Hi & Hs).
  { unfold addTrack. by destruct (tracks p !! note). }
  destruct (tracks (addTrack note p) !! note) as [track|]; [|done]. simpl in Hr.
  revert Hr.
  destruct (velocities (addTrack note p) !! note) as [vel|]; [|done]. simpl.
  intros [= <-]. unfold getNoteParams, getStep, getVelocity. simpl.
  rewrite !lookup_insert_eq. simpl. rewrite !js_get_set_eq. simpl.
  by rewrite Hn, Hi, Hs.
Qed.


(** A loaded pattern has a name, and an id when the clock string is not
    empty: the hypotheses of the round trip hold for every pattern the
    store builds. *)
Lemma fromJSON_named now data q :
  name (fromJSON now data q) ≠ "" ∧ (now ≠ "" → id (fromJSON now data q) ≠ "").
Proof.
  unfold fromJSON. simpl. split.
  - by destruct (d_name data) as [[|]|].
  - intros Hnow. by destruct (d_id data) as [[|]|].
Qed.





End pattern_claims.

Section pattern_lengths.
Import Pattern.
Implicit Types (p q : Pattern.t) (note : Z).

(** [double()] below the limit, on a pattern of the store: the step count
    doubles and every track and its velocities are copied twice. *)
Lemma double_spec p :
  Inv p → (steps p < 64)%nat →
  ∃ pd, double p = Some pd ∧ steps pd = (steps p * 2)%nat ∧
    tracks pd = (λ track, track ++ track) <$> tracks p ∧
    ∀ note track, tracks p !! note = Some track →
      ∃ vel, velocities p !! note = Some vel ∧ velocities pd !! note = Some (vel ++ vel).
Proof.
  intros HInv Hlt. unfold double. rewrite decide_False by lia.
  destruct (forEach_track_Some p (double_loop (steps p) 0%Z) (steps p)
              (Array_fill (steps p * 2) 1.0) (double_loop (steps p) 1.0) HInv)
    as (p' & Hp' & Hs & _ & _ & Htr & Hve).
  rewrite Hp'. simpl. eexists. split; [done|]. simpl. split; [done|]. split.
  - rewrite Htr. apply map_eq. intros note. rewrite !lookup_fmap.
    destruct (tracks p !! note) as [track|] eqn:Hl; [|done]. simpl.
    destruct (HInv _ _ Hl) as (<- & _). by rewrite double_loop_app.
  - intros note track Hl. destruct (Hve _ _ Hl) as (vel & Hv & Hv').
    destruct (HInv _ _ Hl) as (_ & vel0 & Hv0 & Hlen). rewrite Hv in Hv0.
    injection Hv0 as <-. exists vel. split; [done|].
    by rewrite Hv', <- Hlen, double_loop_app.
Qed.

(** [halve()] above the limit, on a pattern of the store with an even step
    count: the step count halves and the first half of every track and of
    its velocities is kept. *)
Lemma halve_spec p :
  Inv p → (4 < steps p)%nat → Nat.even (steps p) = true →
  ∃ ph, halve p = Some ph ∧ steps ph = (steps p / 2)%nat ∧
    tracks ph = take (steps p / 2) <$> tracks p ∧
    ∀ note track, tracks p !! note = Some track →
      ∃ vel, velocities p !! note = Some vel ∧
             velocities ph !! note = Some (take (steps p / 2) vel).
Proof.
  intros HInv Hlt Heven. unfold halve. rewrite decide_False by lia. rewrite Heven.
  assert (steps p / 2 ≤ steps p)%nat as Hhalf by (apply Nat.Div0.div_le_upper_bound; lia).
  remember (steps p / 2)%nat as n eqn:Hn.
  destruct (forEach_track_Some p (halve_loop n 0%Z) n
              (Array_fill n 1.0) (halve_loop n 1.0) HInv)
    as (p' & Hp' & Hs & _ & _ & Htr & Hve).
  rewrite Hp'. simpl. eexists. split; [done|]. simpl. split; [done|]. split.
  - rewrite Htr. apply map_eq. intros note. rewrite !lookup_fmap.
    destruct (tracks p !! note) as [track|] eqn:Hl; [|done]. simpl.
    destruct (HInv _ _ Hl) as (Hlen & _). rewrite halve_loop_take; [done | lia].
  - intros note track Hl. destruct (Hve _ _ Hl) as (vel & Hv & Hv').
    destruct (HInv _ _ Hl) as (_ & vel0 & Hv0 & Hlen). rewrite Hv in Hv0.
    injection Hv0 as <-. exists vel. split; [done|].
    rewrite Hv', halve_loop_take; [done | lia].
Qed.

Lemma js_get_app_twice {A} (l : list (option A)) i :
  js_get (l ++ l) i =
    if decide (i < length l)%nat then js_get l i else js_get l (i - length l).
Proof.
  unfold js_get. case_decide.
  - by rewrite lookup_app_l.
  - by rewrite lookup_app_r by lia.
Qed.

Lemma js_get_take {A} (l : list (option A)) n i :
  js_get (take n l) i = if decide (i < n)%nat then js_get l i else None.
Proof.
  unfold js_get. case_decide.
  - by rewrite lookup_take_lt.
  - by rewrite lookup_take_ge by lia.
Qed.

Lemma getStep_ge note i p : Inv p → (steps p ≤ i)%nat → getStep note i p = 0%Z.
Proof.
  intros HInv Hi. unfold getStep. destruct (tracks p !! note) as [track|] eqn:Hl; [|done].
  simpl. destruct (HInv _ _ Hl) as (Hlen & _). rewrite js_get_ge; [done | lia].
Qed.

(** C8.  Pattern length transforms, from any 32-step pattern of the store in
    which note 36 is active exactly at steps 0, 8, 16 and 24.  [double()]
    gives 64 steps with note 36 active exactly at 0, 8, ..., 56 and the
    velocities copied into both halves; [halve()] gives 16 steps with note
    36 active exactly at 0 and 8 and the velocities of the first half.
    [double()] changes nothing from 64 steps on, [halve()] nothing up to 4
    steps. *)
Theorem length_transforms (p : Pattern.t) :
  Inv p → steps p = 32%nat →
  (∀ i, (0 < getStep 36 i p)%Z ↔ i ∈ [0; 8; 16; 24]%nat) →
  (∃ pd, double p = Some pd ∧ steps pd = 64%nat ∧
     (∀ i, (0 < getStep 36 i pd)%Z ↔ i ∈ [0; 8; 16; 24; 32; 40; 48; 56]%nat) ∧
     (∀ i, (i < 32)%nat →
        getVelocity 36 i pd = getVelocity 36 i p ∧
        getVelocity 36 (i + 32) pd = getVelocity 36 i p)) ∧
  (∃ ph, halve p = Some ph ∧ steps ph = 16%nat ∧
     (∀ i, (0 < getStep 36 i ph)%Z ↔ i ∈ [0; 8]%nat) ∧
     (∀ i, (i < 16)%nat → getVelocity 36 i ph = getVelocity 36 i p)) ∧
  (∀ q, (64 ≤ steps q)%nat → double q = Some q) ∧
  (∀ q, (steps q ≤ 4)%nat → halve q = Some q).
Proof.
  intros HInv Hsteps Hact.
  assert (∃ track, tracks p !! 36%Z = Some track) as [track Hl].
  { destruct (tracks p !! 36%Z) as [track|] eqn:Hl; [by eexists|].
    assert (0 < getStep 36 0 p)%Z as H0 by (apply Hact, elem_of_cons; by left).
    unfold getStep in H0. rewrite Hl in H0. simpl in H0. lia. }
  destruct (HInv _ _ Hl) as (Hlen & vel & Hv & Hlenv).
  split; [|split; [|split]].
  - destruct (double_spec p HInv) as (pd & Hd & Hsd & Htr & Hve); [lia|].
    exists pd. split; [done|]. split; [lia|].
    destruct (Hve _ _ Hl) as (vel' & Hv' & Hvd). rewrite Hv in Hv'. injection Hv' as <-.
    split.
    + intros i. unfold getStep. rewrite Htr, lookup_fmap, Hl. simpl.
      rewrite js_get_app_twice, Hlen, Hsteps.
      pose proof (Hact i) as Hi. pose proof (Hact (i - 32)%nat) as Hi'.
      unfold getStep in Hi, Hi'. rewrite Hl in Hi, Hi'. simpl in Hi, Hi'.
      rewrite !elem_of_cons, !elem_of_nil in *.
      case_decide; [rewrite Hi | rewrite Hi']; lia.
    + intros i Hi. unfold getVelocity. rewrite Hvd, Hv. simpl.
      rewrite !js_get_app_twice, Hlenv, Hsteps.
      rewrite decide_True by done. rewrite decide_False by lia.
      split; [done|]. by replace (i + 32 - 32)%nat with i by lia.
  - destruct (halve_spec p HInv) as (ph & Hh & Hsh & Htr & Hve);
      [lia | by rewrite Hsteps |].
    rewrite Hsteps in *. change (32 / 2)%nat with 16%nat in *.
    exists ph. split; [done|]. split; [done|].
    destruct (Hve _ _ Hl) as (vel' & Hv' & Hvh). rewrite Hv in Hv'. injection Hv' as <-.
    split.
    + intros i. unfold getStep. rewrite Htr, lookup_fmap, Hl. simpl.
      rewrite js_get_take. pose proof (Hact i) as Hi.
      unfold getStep in Hi. rewrite Hl in Hi. simpl in Hi.
      rewrite !elem_of_cons, !elem_of_nil in *.
      case_decide; [rewrite Hi | simpl]; lia.
    + intros i Hi. unfold getVelocity. rewrite Hvh, Hv. simpl.
      rewrite js_get_take. by rewrite decide_True.
  - intros q Hq. unfold double. by rewrite decide_True.
  - intros q Hq. unfold halve. by rewrite decide_True.
Qed.

Lemma length_transforms_witness :
  ∃ p pd ph, four_on_the_floor = Some p ∧
    double p = Some pd ∧ steps pd = 64%nat ∧
    halve p = Some ph ∧ steps ph = 16%nat ∧
    (∀ i, (0 < getStep 36 i pd)%Z ↔ i ∈ [0; 8; 16; 24; 32; 40; 48; 56]%nat) ∧
    (∀ i, (0 < getStep 36 i ph)%Z ↔ i ∈ [0; 8]%nat) ∧
    getVelocity 36 40 pd = 0.8.
Proof.
  destruct four_on_the_floor as [p|] eqn:Hp; [|vm_compute in Hp; discriminate].
  assert (Inv p ∧ steps p = 32%nat) as [HInv Hsteps].
  { unfold four_on_the_floor in Hp.
    destruct (recordNote_Inv 36 0 1.0 (constructor "1700000000000" 32 "Untitled"))
      as (p1 & H1 & HI1 & Hs1); [apply Inv_constructor | simpl; lia |].
    rewrite H1 in Hp. simpl in Hp, Hs1.
    destruct (recordNote_Inv 36 8 0.8 p1) as (p2 & H2 & HI2 & Hs2); [exact HI1 | lia |].
    rewrite H2 in Hp. simpl in Hp.
    destruct (recordNote_Inv 36 16 0.6 p2) as (p3 & H3 & HI3 & Hs3); [exact HI2 | lia |].
    rewrite H3 in Hp. simpl in Hp.
    destruct (recordNote_Inv 36 24 0.4 p3) as (p4 & H4 & HI4 & Hs4); [exact HI3 | lia |].
    rewrite H4 in Hp. injection Hp as <-. split; [exact HI4 | lia]. }
  assert (∀ i, (0 < getStep 36 i p)%Z ↔ i ∈ [0; 8; 16; 24]%nat) as Hact.
  { intros i. vm_compute in Hp. injection Hp as <-.
    rewrite !elem_of_cons, elem_of_nil.
    do 32 (destruct i as [|i]; [vm_compute; intuition (try discriminate; try lia) |]).
    unfold getStep. simpl. split; [intros H; exfalso; revert H|lia].
    destruct i; simpl; lia. }
  destruct (length_transforms p HInv Hsteps Hact)
    as ((pd & Hd & Hsd & Hactd & Hveld) & (ph & Hh & Hsh & Hacth & _) & _).
  exists p, pd, ph. repeat split; try assumption; try apply Hactd; try apply Hacth.
  destruct (Hveld 8%nat) as [_ H40]; [lia|]. simpl in H40. rewrite H40.
  vm_compute in Hp. injection Hp as <-. reflexivity.
Defined.

End pattern_lengths.

Section pattern_invariant_claim.
Import Pattern.
Implicit Types (p q : Pattern.t) (note : Z).

Lemma fromJSON_default_Inv now data q :
  d_velocities data = None →
  (∀ note track, Map_of_entries (d_tracks data) !! note = Some track →
     length track = d_steps data) →
  Inv (fromJSON now data q).
Proof.
  intros Hv Hlen note track Hl. unfold fromJSON in *. simpl in *.
  split; [by eapply Hlen|]. rewrite Hv, lookup_fmap, Hl. simpl.
  eexists. split; [done|]. apply length_Array_fill.
Qed.

(** Within bounds every operation of the pattern keeps the invariant (and
    does not throw). *)
Lemma operations_keep_Inv p note step v amount now q :
  Inv p →
  Inv (addTrack note p) ∧
  ((step < steps p)%nat → ∃ p', recordNote note step v p = Some p' ∧ Inv p') ∧
  Inv (clear p) ∧
  (∃ p', clearTrack note p = Some p' ∧ Inv p') ∧
  (∃ p', shift amount p = Some p' ∧ Inv p') ∧
  (∃ p', double p = Some p' ∧ Inv p') ∧
  (Nat.even (steps p) = true → ∃ p', halve p = Some p' ∧ Inv p') ∧
  Inv (fromJSON now (toJSON p) q).
Proof.
  intros HInv. split; [by apply addTrack_Inv|]. split.
  { intros Hs. destruct (recordNote_Inv note step v p HInv Hs) as (p' & ? & ? & _).
    by exists p'. }
  split; [by apply clear_Inv|]. split; [by apply clearTrack_Inv|].
  split; [by apply shift_Inv|]. split; [by apply double_Inv|].
  split; [by apply halve_Inv|]. by apply fromJSON_toJSON_Inv.
Qed.

(** C9.  [recordNote] does not check its step index.  On a new 32-step
    pattern, which satisfies the invariant, [recordNote(60, 40, 1.0)] grows
    the track and the velocity array of note 60 to 41 cells while the step
    count stays 32: the invariant no longer holds. *)
Theorem recordNote_out_of_bounds :
  let p := constructor "1700000000000" 32 "Untitled" in
  Inv p ∧
  ∃ p', recordNote 60 40 1.0 p = Some p' ∧
    steps p' = 32%nat ∧
    length <$> tracks p' !! 60%Z = Some 41%nat ∧
    length <$> velocities p' !! 60%Z = Some 41%nat ∧
    ¬ Inv p'.
Proof.
  intros p. split; [apply Inv_constructor|].
  eexists. split; [vm_compute; reflexivity|].
  split; [reflexivity|]. split; [vm_compute; reflexivity|].
  split; [vm_compute; reflexivity|].
  intros HInv. edestruct (HInv 60%Z) as [Hlen _]; [vm_compute; reflexivity|].
  vm_compute in Hlen. discriminate.
Qed.

End pattern_invariant_claim.

(** ** The step dispatcher *)

Section dispatcher.
Import LaunchpadApp.
Implicit Types (app : LaunchpadApp.t) (pattern : Pattern.t).

Lemma same_setup_refl app : same_setup app app.
Proof. repeat split. by destruct (currentPattern app). Qed.

Lemma same_setup_trans app1 app2 app3 :
  same_setup app1 app2 → same_setup app2 app3 → same_setup app1 app3.
Proof.
  intros (He & Hc & Hs & Hp) (He' & Hc' & Hs' & Hp').
  split; [congruence|]. split; [congruence|]. split; [congruence|].
  destruct (currentPattern app1), (currentPattern app2), (currentPattern app3);
    try done.
  destruct Hp as (? & ? & ?), Hp' as (? & ? & ?). repeat split; congruence.
Qed.

Lemma triggerSound_samples n v t now sm :
  SampleManager.samples (fst (SampleManager.triggerSound n v t now sm)) = SampleManager.samples sm.
Proof.
  unfold SampleManager.triggerSound. destruct (SampleManager.samples sm !! n); [|done].
  by case_bool_decide.
Qed.

Lemma triggerSound_frame n v t now app :
  let app' := triggerSound n v t now app in
  same_setup app app' ∧ currentPattern app' = currentPattern app ∧
  ∃ new, triggered app' = triggered app ++ new ∧ ∀ m info, (m, info) ∈ new → m = n.
Proof.
  unfold triggerSound.
  pose proof (triggerSound_samples n v t now (sampleManager app)) as Hs.
  destruct (SampleManager.triggerSound n v t now (sampleManager app)) as [sm result].
  simpl in *. split; [|split; [done|]].
  - repeat split; try done. by destruct (currentPattern app).
  - eexists. split; [done|]. intros m info Hin. destruct result; [|by apply elem_of_nil in Hin].
    apply list_elem_of_singleton in Hin. by injection Hin.
Qed.

(** Dispatching a batch starts voices for notes of the batch only. *)
Lemma dispatch_batch_frame now (batch : list NoteInfo) : ∀ app,
  let app' := foldl (λ app noteInfo,
                triggerSound (note noteInfo) (velocity noteInfo)
                  (time noteInfo + 0) now app) app batch in
  same_setup app app' ∧ currentPattern app' = currentPattern app ∧
  ∃ new, triggered app' = triggered app ++ new ∧
    ∀ m info, (m, info) ∈ new → m ∈ note <$> batch.
Proof.
  induction batch as [|ni batch IH]; intros app; simpl.
  - split; [apply same_setup_refl|]. split; [done|]. exists [].
    split; [by rewrite app_nil_r|]. intros m info Hin. by apply elem_of_nil in Hin.
  - destruct (triggerSound_frame (note ni) (velocity ni) (time ni + 0) now app)
      as (Hs1 & Hp1 & new1 & Ht1 & Hn1).
    destruct (IH (triggerSound (note ni) (velocity ni) (time ni + 0) now app))
      as (Hs2 & Hp2 & new2 & Ht2 & Hn2).
    split; [by eapply same_setup_trans|]. split; [congruence|].
    exists (new1 ++ new2). split; [by rewrite Ht2, Ht1, app_assoc|].
    intros m info Hin. apply elem_of_app in Hin as [Hin|Hin].
    + apply elem_of_cons. left. by eapply Hn1.
    + apply elem_of_cons. right. by eapply Hn2.
Qed.

(** The batch of the pattern callback, note by note. *)
Lemma elem_of_scheduledNotes ni step adjustedTime pattern sm :
  ni ∈ scheduledNotes step adjustedTime pattern sm ↔
  ∃ track,
    Pattern.tracks pattern !! note ni = Some track ∧
    (note ni ∉ Pattern.manuallyTriggeredNotes pattern) ∧
    truthyZ (js_get track step) = true ∧
    is_Some (SampleManager.getSample (note ni) sm) ∧
    velocity ni = orQ (Pattern.velocities pattern !! note ni ≫= λ a, js_get a step) 1.0 ∧
    time ni = adjustedTime.
Proof.
  unfold scheduledNotes. rewrite list_elem_of_omap. split.
  - intros ([n track] & Hin & Hf). apply elem_of_map_to_list in Hin.
    case_bool_decide as Hm; [done|].
    destruct (truthyZ (js_get track step)) eqn:Ht; [|done].
    destruct (SampleManager.getSample n sm) as [sample|] eqn:Hs; [|done].
    injection Hf as <-. simpl. exists track. by repeat split.
  - intros (track & Hl & Hm & Ht & [sample Hs] & Hv & Htime).
    exists (note ni, track). split; [by apply elem_of_map_to_list|].
    rewrite bool_decide_false by done. rewrite Ht, Hs. f_equal.
    destruct ni as [n v t]. simpl in *. by subst.
Qed.

Lemma patternCallback_frame step time_ now app :
  same_setup app (patternCallback step time_ now app).
Proof.
  unfold patternCallback. destruct (patternEnabled app) eqn:He; simpl;
    [|apply same_setup_refl].
  destruct (currentPattern app) as [pattern|] eqn:Hp; [|apply same_setup_refl].
  set (app1 := mk _ _ _ _ _).
  destruct (dispatch_batch_frame now
              (scheduledNotes step (time_ + 0.005)
                 (Pattern.clearTriggeredNotesIfNeeded (Z.of_nat step) pattern)
                 (sampleManager app1)) app1) as (Hs & _).
  eapply same_setup_trans; [|exact Hs]. subst app1.
  repeat split; simpl; try done. rewrite Hp.
  unfold Pattern.clearTriggeredNotesIfNeeded. by case_decide.
Qed.

Lemma with_clock_frame op now app app' :
  with_clock op now app = Some app' →
  ∃ c, op (clock app) = Some c ∧ clock app' = c ∧
    patternEnabled app' = patternEnabled app ∧
    SampleManager.samples (sampleManager app') = SampleManager.samples (sampleManager app) ∧
    match currentPattern app, currentPattern app' with
    | Some pattern, Some pattern' => same_content pattern pattern'
    | None, None => True
    | _, _ => False
    end.
Proof.
  unfold with_clock. destruct (op (clock app)) as [c|]; [|done]. simpl.
  intros [= <-]. exists c. split; [done|].
  set (app1 := mk _ _ _ c _).
  assert (∀ l a, same_setup a (foldl (dispatch now) a l)) as Hfold.
  { induction l as [|o l IH]; intros a; simpl; [apply same_setup_refl|].
    eapply same_setup_trans; [|apply IH]. destruct o; simpl.
    - apply patternCallback_frame.
    - apply same_setup_refl. }
  destruct (Hfold (drop (length (Clock.log (clock app))) (Clock.log c)) app1)
    as (He & Hc & Hs & Hp).
  by repeat split.
Qed.

Lemma NoDup_scheduledNotes step adjustedTime pattern sm :
  NoDup (note <$> scheduledNotes step adjustedTime pattern sm).
Proof.
  unfold scheduledNotes.
  pose proof (NoDup_fst_map_to_list (Pattern.tracks pattern)) as Hnd.
  induction (map_to_list (Pattern.tracks pattern)) as [|[n track] l IH]; simpl;
    [constructor|].
  apply NoDup_cons in Hnd as [Hn Hnd]. specialize (IH Hnd).
  case_bool_decide; [done|]. destruct (truthyZ _); [|done].
  destruct (SampleManager.getSample n sm); [|done]. simpl.
  apply NoDup_cons. split; [|done]. intros Hin. apply Hn.
  apply list_elem_of_fmap in Hin as (ni & -> & Hin).
  apply list_elem_of_omap in Hin as ([n' track'] & Hin & Hf).
  apply list_elem_of_fmap. exists (n', track'). split; [|done].
  case_bool_decide; [done|]. destruct (truthyZ _); [|done].
  destruct (SampleManager.getSample n' sm); [|done]. by injection Hf as <-.
Qed.

Lemma triggerSound_other n m v t now sm :
  n ≠ m →
  SampleManager.playing (fst (SampleManager.triggerSound n v t now sm)) !! m
    = SampleManager.playing sm !! m.
Proof.
  intros Hne. unfold SampleManager.triggerSound.
  destruct (SampleManager.samples sm !! n); [|done].
  case_bool_decide; [done|]. simpl. by rewrite lookup_insert_ne.
Qed.

(** A note of the batch whose sound is loaded and has no voice yet gets one. *)
Lemma dispatch_batch_starts now m (batch : list NoteInfo) : ∀ app,
  NoDup (note <$> batch) → m ∈ note <$> batch →
  is_Some (SampleManager.samples (sampleManager app) !! m) →
  SampleManager.playing (sampleManager app) !! m = None →
  ∃ info,
    (m, info) ∈ drop (length (triggered app))
      (triggered (foldl (λ app noteInfo,
                    triggerSound (note noteInfo) (velocity noteInfo)
                      (time noteInfo + 0) now app) app batch)).
Proof.
  induction batch as [|ni batch IH]; intros app Hnd Hin [sample Hs] Hp; simpl in *.
  - by apply elem_of_nil in Hin.
  - apply NoDup_cons in Hnd as [Hni Hnd].
    set (app1 := triggerSound (note ni) (velocity ni) (time ni + 0) now app).
    destruct (dispatch_batch_frame now batch app1) as (_ & _ & new & Hnew & _).
    fold app1 in Hnew. cbv zeta in Hnew. rewrite Hnew.
    destruct (decide (note ni = m)) as [Heq|Hne].
    + destruct (triggerSound_voice (sampleManager app) m sample
                  (velocity ni) (time ni + 0) now Hs Hp) as (sm' & info & Ht & _).
      exists info. subst app1. unfold triggerSound. rewrite Heq, Ht. simpl.
      rewrite <- app_assoc, drop_app_length. apply elem_of_cons. by left.
    + apply elem_of_cons in Hin as [Hin|Hin]; [done|].
      destruct (IH app1 Hnd Hin) as [info Hinfo].
      * subst app1. unfold triggerSound.
        pose proof (triggerSound_samples (note ni) (velocity ni) (time ni + 0) now
                      (sampleManager app)) as Hsm.
        destruct (SampleManager.triggerSound _ _ _ _ _). simpl in *.
        rewrite Hsm, Hs. by eexists.
      * subst app1. unfold triggerSound.
        pose proof (triggerSound_other (note ni) m (velocity ni) (time ni + 0) now
                      (sampleManager app) Hne) as Hpl.
        destruct (SampleManager.triggerSound _ _ _ _ _). simpl in *. by rewrite Hpl.
      * exists info. rewrite Hnew in Hinfo. rewrite drop_app_length in Hinfo.
        destruct (triggerSound_frame (note ni) (velocity ni) (time ni + 0) now app)
          as (_ & _ & new1 & Hnew1 & _).
        fold app1 in Hnew1. cbv zeta in Hnew1. rewrite Hnew1, <- app_assoc.
        rewrite drop_app_length. apply elem_of_app. by right.
Qed.

(** The state after a live pad press in beat mode. *)
Lemma handleBeatModePadPress_spec app note_ v now pattern0 :
  currentPattern app = Some pattern0 → Pattern.Inv pattern0 →
  0 < Clock.stepDuration (clock app) →
  ∃ app' pattern,
    handleBeatModePadPress note_ v now app = Some app' ∧
    app' = mk (patternEnabled app) (Some pattern) (sampleManager app') (clock app')
              (triggered app') ∧
    note_ ∈ Pattern.manuallyTriggeredNotes pattern ∧
    Pattern.lastStepTriggered pattern = Z.of_nat (Clock.currentStep (clock app')) ∧
    Pattern.getNoteParams note_ (Clock.currentStep (clock app')) pattern
      = Pattern.mkParams true (Math_max 0.1 (Math_min 1.0 v)).
Proof.
  intros Hp0 HInv Hd. unfold handleBeatModePadPress. rewrite Hp0.
  assert (∃ app1 pattern1,
    (if negb (Clock.isPlaying (clock app))
     then with_clock (Clock.start now) now app else Some app) = Some app1 ∧
    patternEnabled app1 = patternEnabled app ∧
    currentPattern app1 = Some pattern1 ∧ same_content pattern0 pattern1)
    as (app1 & pattern1 & -> & He1 & Hp1 & Hsame).
  { destruct (Clock.isPlaying (clock app)) eqn:Hplay; simpl.
    - exists app, pattern0. by repeat split.
    - assert (∃ c, Clock.start now (clock app) = Some c) as [c Hc].
      { unfold Clock.start. rewrite Hplay.
        destruct (scheduleAhead_spec now (Clock.set_position true 0 now (clock app)) Hd)
          as (n & c & Hs & _). by exists c. }
      destruct (with_clock (Clock.start now) now app) as [app1|] eqn:Hw.
      + destruct (with_clock_frame _ _ _ _ Hw) as (c' & _ & _ & He & _ & Hp).
        rewrite Hp0 in Hp. destruct (currentPattern app1) as [pattern1|] eqn:Hp1; [|done].
        by exists app1, pattern1.
      + unfold with_clock in Hw. by rewrite Hc in Hw. }
  simpl.
  set (app2 := match SampleManager.getSample note_ (sampleManager app1) with
               | Some _ => triggerSound note_ v now now app1
               | None => app1
               end).
  assert (patternEnabled app2 = patternEnabled app1 ∧ clock app2 = clock app1 ∧
          currentPattern app2 = currentPattern app1) as (He2 & Hc2 & Hp2).
  { subst app2. destruct (SampleManager.getSample note_ (sampleManager app1)); [|done].
    destruct (triggerSound_frame note_ v now now app1) as ((? & ? & _) & ? & _).
    done. }
  clearbody app2. rewrite Hp2, Hp1. simpl.
  set (step := Clock.currentStep (clock app2)).
  set (pattern2 := Pattern.set_manual _ _ _).
  assert (Pattern.Inv pattern2) as HInv2.
  { destruct Hsame as (Ht & Hv & Hs). intros n track Hl.
    subst pattern2. unfold Pattern.clearTriggeredNotesIfNeeded in *.
    case_decide; simpl in *; rewrite Ht in Hl; rewrite Hv, Hs; by apply HInv. }
  assert (note_ ∈ Pattern.manuallyTriggeredNotes pattern2 ∧
          Pattern.lastStepTriggered pattern2 = Z.of_nat step) as [Hman Hlast].
  { subst pattern2. unfold Pattern.clearTriggeredNotesIfNeeded.
    case_decide as Hne; simpl; (split; [set_solver|]); [done|].
    destruct (decide (Pattern.lastStepTriggered pattern1 = Z.of_nat step)); done. }
  clearbody pattern2.
  assert (∃ pattern3, Pattern.recordNote note_ step v pattern2 = Some pattern3)
    as [pattern3 Hr].
  { pose proof (addTrack_Inv note_ pattern2 HInv2) as HInv3. unfold Pattern.recordNote.
    destruct (addTrack_lookup note_ pattern2) as [track Htrack]. rewrite Htrack. simpl.
    destruct (HInv3 _ _ Htrack) as (_ & vel & Hv & _). rewrite Hv. by eexists. }
  rewrite Hr. simpl. eexists _, _. split; [done|]. simpl.
  rewrite He2, He1. split; [done|].
  destruct (recordNote_read _ _ _ _ _ Hr) as (Hread & _).
  assert (Pattern.manuallyTriggeredNotes pattern3 = Pattern.manuallyTriggeredNotes pattern2 ∧
          Pattern.lastStepTriggered pattern3 = Pattern.lastStepTriggered pattern2)
    as [Hm3 Hl3].
  { revert Hr. unfold Pattern.recordNote, Pattern.addTrack.
    destruct (Pattern.tracks pattern2 !! note_) eqn:Hl; simpl.
    - rewrite Hl. simpl. destruct (Pattern.velocities pattern2 !! note_); [|done].
      simpl. by intros [= <-].
    - rewrite !lookup_insert_eq. simpl. by intros [= <-]. }
  rewrite Hm3, Hl3. split; [done|]. split; [done|].
  unfold Pattern.getNoteParams, Pattern.getStep, Pattern.getVelocity in *. done.
Qed.

Lemma triggerSound_app n v t now app :
  let r := SampleManager.triggerSound n v t now (sampleManager app) in
  triggered (triggerSound n v t now app)
    = triggered app ++ match r.2 with Some info => [(n, info)] | None => [] end ∧
  sampleManager (triggerSound n v t now app) = r.1.
Proof. unfold triggerSound. by destruct (SampleManager.triggerSound _ _ _ _ _). Qed.

(** A trigger of a loaded note starts a voice exactly when no voice of the
    note started less than 20 ms before [now] (or is yet to start). *)
Lemma triggerSound_starts_iff n v t now sm :
  is_Some (SampleManager.samples sm !! n) →
  is_Some (SampleManager.triggerSound n v t now sm).2 ↔
  Forall (λ info, ¬ now - SampleManager.startTime info < 0.02)
    (default [] (SampleManager.playing sm !! n)).
Proof.
  intros [sample Hs]. unfold SampleManager.triggerSound. rewrite Hs. cbv zeta.
  set (l := default [] (SampleManager.playing sm !! n)).
  case_bool_decide as Hrec; cbn [snd]; split.
  - by intros [? [=]].
  - intros Hall. exfalso.
    destruct (filter _ l) as [|x l'] eqn:Hf; [simpl in Hrec; lia|].
    assert (x ∈ filter (λ info, now - SampleManager.startTime info < 0.02) l) as Hx
      by (rewrite Hf; by left).
    apply list_elem_of_filter in Hx as [HP Hx].
    rewrite Forall_forall in Hall. by apply (Hall x).
  - intros _. apply Forall_forall. intros x Hx HP. apply Hrec.
    assert (x ∈ filter (λ info, now - SampleManager.startTime info < 0.02) l) as Hin
      by (by apply list_elem_of_filter).
    destruct (filter _ l); [by apply elem_of_nil in Hin | simpl; lia].
  - intros _. by eexists.
Qed.

(** The dispatch of a batch starts a voice for a loaded note of the batch
    exactly when the note's trigger is not debounced: the triggers of the
    other notes do not touch its voices. *)
Lemma dispatch_batch_voice now m (batch : list NoteInfo) : ∀ app,
  NoDup (note <$> batch) → m ∈ note <$> batch →
  is_Some (SampleManager.samples (sampleManager app) !! m) →
  (∃ info,
     (m, info) ∈ drop (length (triggered app))
       (triggered (foldl (λ app noteInfo,
                     triggerSound (note noteInfo) (velocity noteInfo)
                       (time noteInfo + 0) now app) app batch))) ↔
  Forall (λ info, ¬ now - SampleManager.startTime info < 0.02)
    (default [] (SampleManager.playing (sampleManager app) !! m)).
Proof.
  induction batch as [|ni batch IH]; intros app Hnd Hin Hs; simpl in *.
  - by apply elem_of_nil in Hin.
  - apply NoDup_cons in Hnd as [Hni Hnd].
    set (app1 := triggerSound (note ni) (velocity ni) (time ni + 0) now app).
    destruct (triggerSound_app (note ni) (velocity ni) (time ni + 0) now app)
      as [Ht1 Hsm1]. fold app1 in Ht1, Hsm1. cbv zeta in Ht1, Hsm1.
    destruct (dispatch_batch_frame now batch app1) as (_ & _ & new2 & Hnew & Hnotes).
    cbv zeta in Hnew. rewrite Hnew, Ht1, <- app_assoc, drop_app_length.
    pose proof (triggerSound_samples (note ni) (velocity ni) (time ni + 0) now
                  (sampleManager app)) as Hsamples.
    rewrite <- Hsm1 in Hsamples.
    destruct (decide (note ni = m)) as [Heq|Hne].
    + rewrite Heq in *.
      rewrite <- (triggerSound_starts_iff m (velocity ni) (time ni + 0) now
                    (sampleManager app) Hs).
      split.
      * intros [info Hinfo]. apply elem_of_app in Hinfo as [Hinfo|Hinfo].
        -- destruct (SampleManager.triggerSound _ _ _ _ _).2; [by eexists|].
           by apply elem_of_nil in Hinfo.
        -- exfalso. apply Hni. by eapply Hnotes.
      * intros [info Hinfo]. exists info. rewrite Hinfo. apply elem_of_app.
        left. by left.
    + apply elem_of_cons in Hin as [Hin|Hin]; [done|].
      assert (SampleManager.playing (sampleManager app1) !! m
              = SampleManager.playing (sampleManager app) !! m) as Hpl.
      { rewrite Hsm1. by apply triggerSound_other. }
      rewrite <- Hpl. rewrite <- (IH app1 Hnd Hin) by (by rewrite Hsamples).
      rewrite Hnew, drop_app_length. split.
      * intros [info Hinfo]. exists info.
        apply elem_of_app in Hinfo as [Hinfo|Hinfo]; [|done].
        destruct (SampleManager.triggerSound _ _ _ _ _).2;
          [|by apply elem_of_nil in Hinfo].
        apply list_elem_of_singleton in Hinfo. by injection Hinfo.
      * intros [info Hinfo]. exists info. apply elem_of_app. by right.
Qed.

Lemma recordNote_other note_ step v pattern pattern' m :
  Pattern.recordNote note_ step v pattern = Some pattern' → m ≠ note_ →
  Pattern.tracks pattern' !! m = Pattern.tracks pattern !! m ∧
  Pattern.velocities pattern' !! m = Pattern.velocities pattern !! m.
Proof.
  intros Hr Hne. revert Hr. unfold Pattern.recordNote, Pattern.addTrack.
  destruct (Pattern.tracks pattern !! note_) eqn:Hl; simpl.
  - rewrite Hl. simpl. destruct (Pattern.velocities pattern !! note_); [|done].
    simpl. intros [= <-]. simpl. by rewrite !lookup_insert_ne.
  - rewrite !lookup_insert_eq. simpl. intros [= <-]. simpl.
    by rewrite !lookup_insert_ne.
Qed.

Lemma recordNote_markers note_ step v pattern pattern' :
  Pattern.recordNote note_ step v pattern = Some pattern' →
  Pattern.manuallyTriggeredNotes pattern' = Pattern.manuallyTriggeredNotes pattern ∧
  Pattern.lastStepTriggered pattern' = Pattern.lastStepTriggered pattern.
Proof.
  unfold Pattern.recordNote, Pattern.addTrack.
  destruct (Pattern.tracks pattern !! note_) eqn:Hl; simpl.
  - rewrite Hl. simpl. destruct (Pattern.velocities pattern !! note_); [|done].
    simpl. by intros [= <-].
  - rewrite !lookup_insert_eq. simpl. by intros [= <-].
Qed.

(** A live pad press in beat mode while the clock runs: the markers of an
    earlier step are dropped, the pressed note is marked for the clock's
    current step and recorded there, and nothing else changes but the
    voices of the pressed note. *)
Lemma handleBeatModePadPress_running app note_ v now pattern0 :
  Clock.isPlaying (clock app) = true →
  currentPattern app = Some pattern0 → Pattern.Inv pattern0 →
  let step := Clock.currentStep (clock app) in
  ∃ app' pattern,
    handleBeatModePadPress note_ v now app = Some app' ∧
    app' = mk (patternEnabled app) (Some pattern) (sampleManager app') (clock app)
              (triggered app') ∧
    Pattern.manuallyTriggeredNotes pattern
      = {[note_]} ∪ (if decide (Pattern.lastStepTriggered pattern0 = Z.of_nat step)
                     then Pattern.manuallyTriggeredNotes pattern0 else ∅) ∧
    Pattern.lastStepTriggered pattern = Z.of_nat step ∧
    Pattern.getNoteParams note_ step pattern
      = Pattern.mkParams true (Math_max 0.1 (Math_min 1.0 v)) ∧
    (∀ m, m ≠ note_ →
       Pattern.tracks pattern !! m = Pattern.tracks pattern0 !! m ∧
       Pattern.velocities pattern !! m = Pattern.velocities pattern0 !! m ∧
       SampleManager.playing (sampleManager app') !! m
         = SampleManager.playing (sampleManager app) !! m) ∧
    SampleManager.samples (sampleManager app')
      = SampleManager.samples (sampleManager app).
Proof.
  intros Hplay Hp0 HInv step. unfold handleBeatModePadPress.
  rewrite Hp0, Hplay. simpl.
  set (app2 := match SampleManager.getSample note_ (sampleManager app) with
               | Some _ => triggerSound note_ v now now app
               | None => app
               end).
  assert (patternEnabled app2 = patternEnabled app ∧ clock app2 = clock app ∧
          currentPattern app2 = currentPattern app ∧
          SampleManager.samples (sampleManager app2)
            = SampleManager.samples (sampleManager app) ∧
          ∀ m, m ≠ note_ →
            SampleManager.playing (sampleManager app2) !! m
              = SampleManager.playing (sampleManager app) !! m)
    as (He2 & Hc2 & Hp2 & Hs2 & Hpl2).
  { subst app2. destruct (SampleManager.getSample note_ (sampleManager app)); [|done].
    destruct (triggerSound_frame note_ v now now app) as ((? & ? & ? & _) & ? & _).
    destruct (triggerSound_app note_ v now now app) as [_ Hsm]. cbv zeta in Hsm.
    repeat split; try done. intros m Hne. rewrite Hsm. by apply triggerSound_other. }
  clearbody app2. rewrite Hp2, Hp0, Hc2. simpl. fold step.
  set (pattern2 := Pattern.set_manual _ _ _).
  assert (Pattern.Inv pattern2) as HInv2.
  { intros n track Hl. subst pattern2. unfold Pattern.clearTriggeredNotesIfNeeded in *.
    case_decide; simpl in *; by apply HInv. }
  assert (Pattern.manuallyTriggeredNotes pattern2
            = {[note_]} ∪ (if decide (Pattern.lastStepTriggered pattern0 = Z.of_nat step)
                           then Pattern.manuallyTriggeredNotes pattern0 else ∅) ∧
          Pattern.lastStepTriggered pattern2 = Z.of_nat step ∧
          Pattern.tracks pattern2 = Pattern.tracks pattern0 ∧
          Pattern.velocities pattern2 = Pattern.velocities pattern0)
    as (Hman & Hlast & Htr2 & Hve2).
  { subst pattern2. unfold Pattern.clearTriggeredNotesIfNeeded.
    destruct (decide (Pattern.lastStepTriggered pattern0 = Z.of_nat step)) as [Heq|Hne].
    - rewrite decide_False by (intros Hn; by apply Hn). done.
    - rewrite decide_True by done. done. }
  clearbody pattern2.
  assert (∃ pattern3, Pattern.recordNote note_ step v pattern2 = Some pattern3)
    as [pattern3 Hr].
  { pose proof (addTrack_Inv note_ pattern2 HInv2) as HInv3. unfold Pattern.recordNote.
    destruct (addTrack_lookup note_ pattern2) as [track Htrack]. rewrite Htrack. simpl.
    destruct (HInv3 _ _ Htrack) as (_ & vel & Hv & _). rewrite Hv. by eexists. }
  rewrite Hr. simpl. eexists _, _. split; [done|]. simpl. rewrite He2.
  destruct (recordNote_read _ _ _ _ _ Hr) as (Hread & _).
  destruct (recordNote_markers _ _ _ _ _ Hr) as [Hm3 Hl3].
  split; [done|]. rewrite Hm3, Hl3. split; [done|]. split; [done|].
  split; [exact Hread|]. split; [|done].
  intros m Hne. destruct (recordNote_other _ _ _ _ _ m Hr Hne) as [Ht Hv].
  simpl. rewrite Ht, Hv, Htr2, Hve2. by rewrite Hpl2.
Qed.

(** C6.  Manual overrides sequenced.  While the clock runs, a pad press in
    beat mode, with a current pattern of the store, returns; the note is
    recorded in the pattern at the clock's current step index, with the
    clamped velocity.  When the pattern callback then runs for that step,
    it hands the batch [scheduledNotes] to [triggerSound]: the pressed note
    is not in it and gets no new voice.  Every other note that is active at
    the step and has a sound loaded is in it, for the common time
    [time + 0.005], unless it was itself pressed during this same step: a
    note pressed during an earlier step is sequenced again, because the
    press drops the markers of earlier steps.  Such a note gets a new
    voice exactly when [triggerSound] does not debounce it, that is when
    none of its voices starts later than 20 ms before the pass. *)
Theorem manual_overrides_sequenced (app : LaunchpadApp.t) (note_ : Z) (v now : Q)
    (pattern0 : Pattern.t) :
  patternEnabled app = true →
  Clock.isPlaying (clock app) = true →
  currentPattern app = Some pattern0 → Pattern.Inv pattern0 →
  let step := Clock.currentStep (clock app) in
  ∃ app' pattern,
    handleBeatModePadPress note_ v now app = Some app' ∧
    clock app' = clock app ∧
    currentPattern app' = Some pattern ∧
    Pattern.getNoteParams note_ step pattern
      = Pattern.mkParams true (Math_max 0.1 (Math_min 1.0 v)) ∧
    ∀ time_ later,
      let batch := scheduledNotes step (time_ + 0.005) pattern (sampleManager app') in
      let app'' := patternCallback step time_ later app' in
      let voices := drop (length (triggered app')) (triggered app'') in
      app'' = foldl (λ app noteInfo,
                triggerSound (note noteInfo) (velocity noteInfo)
                  (time noteInfo + 0) later app) app' batch ∧
      (note_ ∉ note <$> batch) ∧
      (∀ info, (note_, info) ∉ voices) ∧
      ∀ m, m ≠ note_ →
        pressed_during_step m step pattern0 = false →
        (0 < Pattern.getStep m step pattern0)%Z →
        is_Some (SampleManager.getSample m (sampleManager app)) →
        (∃ ni, ni ∈ batch ∧ note ni = m ∧ time ni = time_ + 0.005) ∧
        ((∃ info, (m, info) ∈ voices) ↔
         Forall (λ info, ¬ later - SampleManager.startTime info < 0.02)
           (default [] (SampleManager.playing (sampleManager app) !! m))).
Proof.
  intros He Hplay Hp0 HInv step.
  destruct (handleBeatModePadPress_running app note_ v now pattern0 Hplay Hp0 HInv)
    as (app' & pattern & Hpress & Happ' & Hman & Hlast & Hread & Hother & Hsamples).
  fold step in Hman, Hlast, Hread.
  exists app', pattern. split; [done|]. split; [by rewrite Happ'|].
  split; [by rewrite Happ'|]. split; [done|].
  intros time_ later batch app'' voices.
  assert (app'' = foldl (λ app noteInfo,
                triggerSound (note noteInfo) (velocity noteInfo)
                  (time noteInfo + 0) later app) app' batch) as Hfold.
  { assert (patternEnabled app' = true) as He' by (by rewrite Happ').
    assert (currentPattern app' = Some pattern) as Hp' by (by rewrite Happ').
    assert (clock app' = clock app) as Hc' by (by rewrite Happ').
    subst app'' batch. unfold patternCallback. rewrite He', Hp'. simpl.
    unfold Pattern.clearTriggeredNotesIfNeeded.
    rewrite decide_False by (intros Hne; by apply Hne).
    replace (mk true (Some pattern) (sampleManager app') (clock app') (triggered app'))
      with app'; [done|].
    destruct app'; simpl in *; congruence. }
  split; [done|].
  assert (note_ ∉ note <$> batch) as Hnot.
  { intros Hin. apply list_elem_of_fmap in Hin as (ni & -> & Hin).
    apply elem_of_scheduledNotes in Hin as (_ & _ & Hm & _).
    apply Hm. rewrite Hman. by apply elem_of_union_l, elem_of_singleton. }
  split; [done|]. split.
  - intros info Hin. subst voices. rewrite Hfold in Hin.
    destruct (dispatch_batch_frame later batch app') as (_ & _ & new & Hnew & Hnotes).
    cbv zeta in Hnew. rewrite Hnew, drop_app_length in Hin.
    apply Hnot. by eapply Hnotes.
  - intros m Hne Hpressed Hact Hsample.
    destruct (Hother m Hne) as (Htr & Hve & Hpl).
    assert (∃ ni, ni ∈ batch ∧ note ni = m ∧ time ni = time_ + 0.005) as (ni & Hin & Hn & Ht).
    { unfold Pattern.getStep in Hact.
      destruct (Pattern.tracks pattern0 !! m) as [track|] eqn:Hl; [|simpl in Hact; lia].
      simpl in Hact.
      exists (mkNote m (orQ (Pattern.velocities pattern !! m ≫= λ a, js_get a step) 1.0)
                (time_ + 0.005)).
      split; [|done]. apply elem_of_scheduledNotes. exists track. simpl.
      split; [by rewrite Htr|]. split.
      { rewrite Hman. unfold pressed_during_step in Hpressed.
        intros Hin. apply elem_of_union in Hin as [Hin|Hin];
          [by apply elem_of_singleton in Hin|].
        destruct (decide (Pattern.lastStepTriggered pattern0 = Z.of_nat step));
          [|by apply elem_of_empty in Hin].
        by rewrite !bool_decide_true in Hpressed by done. }
      split.
      { unfold truthyZ. destruct (js_get track step) as [z|]; simpl in *; [|lia].
        apply negb_true_iff, Z.eqb_neq. lia. }
      split; [|done]. unfold SampleManager.getSample in *. by rewrite Hsamples. }
    split; [by exists ni|]. subst voices. rewrite Hfold, <- Hpl.
    apply dispatch_batch_voice.
    + apply NoDup_scheduledNotes.
    + apply list_elem_of_fmap. by exists ni.
    + unfold SampleManager.getSample in Hsample. by rewrite Hsamples.
Qed.

End dispatcher.

Lemma manual_overrides_sequenced_witness :
  ∃ app' pattern,
    LaunchpadApp.handleBeatModePadPress 36 0.8 0.1 beat_mode_running = Some app' ∧
    LaunchpadApp.currentPattern app' = Some pattern ∧
    Clock.currentStep (LaunchpadApp.clock beat_mode_running) = 4%nat ∧
    Pattern.getNoteParams 36 4 pattern = Pattern.mkParams true 0.8 ∧
    (∀ info, (36%Z, info) ∉
       drop (length (LaunchpadApp.triggered app'))
         (LaunchpadApp.triggered (LaunchpadApp.patternCallback 4 0.25 0.16 app'))) ∧
    ∃ info, (38%Z, info) ∈
       drop (length (LaunchpadApp.triggered app'))
         (LaunchpadApp.triggered (LaunchpadApp.patternCallback 4 0.25 0.16 app')).
Proof.
  destruct (manual_overrides_sequenced beat_mode_running 36 0.8 0.1
              (Pattern.set_manual {[38%Z]} 2 snare_on_4))
    as (app' & pattern & Hpress & _ & Hpat & Hread & Hpass).
  - reflexivity.
  - reflexivity.
  - reflexivity.
  - intros n track Hl. simpl in Hl. apply lookup_singleton_Some in Hl as [<- <-].
    split; [reflexivity|]. eexists. split; [apply lookup_singleton_eq | reflexivity].
  - exists app', pattern. split; [exact Hpress|]. split; [exact Hpat|].
    split; [reflexivity|]. split; [exact Hread|].
    destruct (Hpass 0.25 0.16) as (_ & _ & Hno & Hother). split; [exact Hno|].
    destruct (Hother 38%Z) as [_ Hvoice].
    + discriminate.
    + reflexivity.
    + vm_compute. reflexivity.
    + vm_compute. eexists. reflexivity.
    + apply Hvoice. vm_compute. constructor.
Defined.


(** * Further properties of the code *)

(** ** Pattern: shifting *)

Section shift_rotation.
Context {A : Type}.
Implicit Types (src : list (option A)) (fill : A).

Lemma js_set_Z_nonneg (acc : list (option A)) (i : Z) (v : option A) :
  (0 ≤ i)%Z → js_set_Z acc i v = js_set acc (Z.to_nat i) v.
Proof. intros Hi. unfold js_set_Z. by rewrite decide_False by lia. Qed.

Lemma js_set_Z_neg (acc : list (option A)) (i : Z) (v : option A) :
  (i < 0)%Z → js_set_Z acc i v = acc.
Proof. intros Hi. unfold js_set_Z. by rewrite decide_True. Qed.

(** The index [shift] writes for source index [i], when the amount is at
    least [-n]: JavaScript's remainder is the modulus there. *)
Lemma shift_position (n i : nat) (amount : Z) :
  (i < n)%nat → (- Z.of_nat n ≤ amount)%Z →
  Z.rem (Z.of_nat i + amount + Z.of_nat n) (Z.of_nat n)
    = ((Z.of_nat i + amount) mod Z.of_nat n)%Z.
Proof.
  intros Hi Ha. rewrite Z.rem_mod_nonneg by lia.
  rewrite <- (Z.mul_1_l (Z.of_nat n)) at 1. by rewrite Z.mod_add by lia.
Qed.

Lemma shift_loop_upto n k (amount : Z) fill src :
  (k ≤ n)%nat → (- Z.of_nat n ≤ amount)%Z →
  let acc := foldl (λ acc i,
                 let newPos := Z.rem (Z.of_nat i + amount + Z.of_nat n) (Z.of_nat n) in
                 js_set_Z acc newPos (js_get src i))
               (Array_fill n fill) (seq 0 k) in
  length acc = n ∧
  ∀ j, (j < n)%nat →
    js_get acc j =
      if decide (Z.to_nat ((Z.of_nat j - amount) mod Z.of_nat n) < k)%nat
      then js_get src (Z.to_nat ((Z.of_nat j - amount) mod Z.of_nat n))
      else Some fill.
Proof.
  intros Hk Ha. induction k as [|k IH]; cbv zeta.
  - simpl. split; [apply length_Array_fill|]. intros j Hj.
    try (rewrite decide_False by lia). by apply js_get_Array_fill.
  - destruct IH as [Hlen Hget]; [lia|]. cbv zeta in Hlen, Hget.
    rewrite seq_S, foldl_app. simpl.
    rewrite shift_position by lia.
    set (pos := ((Z.of_nat k + amount) mod Z.of_nat n)%Z).
    assert (0 ≤ pos < Z.of_nat n)%Z as Hpos by (apply Z.mod_pos_bound; lia).
    rewrite js_set_Z_nonneg by lia. split.
    + rewrite length_js_set_lt; [done | lia].
    + intros j Hj.
      assert (Z.of_nat j = pos ↔
              ((Z.of_nat j - amount) mod Z.of_nat n)%Z = Z.of_nat k) as Hiff.
      { subst pos. split.
        - intros ->. rewrite Zminus_mod_idemp_l.
          replace (Z.of_nat k + amount - amount)%Z with (Z.of_nat k) by lia.
          apply Z.mod_small. lia.
        - intros Hk'. rewrite <- Hk', Zplus_mod_idemp_l.
          replace (Z.of_nat j - amount + amount)%Z with (Z.of_nat j) by lia.
          symmetry. apply Z.mod_small. lia. }
      destruct (decide (Z.to_nat pos = j)) as [Heq|Hne].
      * subst j. rewrite js_get_set_eq.
        assert (((Z.of_nat (Z.to_nat pos) - amount) mod Z.of_nat n)%Z = Z.of_nat k) as ->
          by (apply Hiff; lia).
        rewrite Nat2Z.id. by rewrite decide_True by lia.
      * rewrite js_get_set_ne by lia. rewrite Hget by done.
        assert (((Z.of_nat j - amount) mod Z.of_nat n)%Z ≠ Z.of_nat k) as Hnk
          by (intros H; apply Hne; apply Hiff in H; lia).
        assert (0 ≤ (Z.of_nat j - amount) mod Z.of_nat n)%Z
          by (apply Z.mod_pos_bound; lia).
        repeat case_decide; (done || lia).
Qed.

(** With an amount of at least [-n], [shift]'s loop is a rotation. *)
Lemma js_get_shift_loop n (amount : Z) fill src j :
  (j < n)%nat → (- Z.of_nat n ≤ amount)%Z →
  js_get (Pattern.shift_loop n amount fill src) j
    = js_get src (Z.to_nat ((Z.of_nat j - amount) mod Z.of_nat n)).
Proof.
  intros Hj Ha. destruct (shift_loop_upto n n amount fill src) as [_ Hget]; [done..|].
  unfold Pattern.shift_loop. rewrite Hget by done.
  assert (0 ≤ (Z.of_nat j - amount) mod Z.of_nat n < Z.of_nat n)%Z
    by (apply Z.mod_pos_bound; lia).
  rewrite decide_True by lia. done.
Qed.

(** With an amount below [-n] and above [-2n], nothing wraps around: the
    cells that would are dropped. *)
Lemma shift_loop_far_upto n k (d : nat) fill src :
  (k ≤ n)%nat → (0 < d < n)%nat →
  let amount := (- Z.of_nat n - Z.of_nat d)%Z in
  let acc := foldl (λ acc i,
                 let newPos := Z.rem (Z.of_nat i + amount + Z.of_nat n) (Z.of_nat n) in
                 js_set_Z acc newPos (js_get src i))
               (Array_fill n fill) (seq 0 k) in
  length acc = n ∧
  ∀ j, (j < n)%nat →
    js_get acc j = if decide (j + d < k)%nat then js_get src (j + d) else Some fill.
Proof.
  intros Hk Hd amount. induction k as [|k IH]; cbv zeta.
  - simpl. split; [apply length_Array_fill|]. intros j Hj.
    try (rewrite decide_False by lia). by apply js_get_Array_fill.
  - destruct IH as [Hlen Hget]; [lia|]. cbv zeta in Hlen, Hget.
    rewrite seq_S, foldl_app. simpl.
    replace (Z.of_nat k + amount + Z.of_nat n)%Z with (Z.of_nat k - Z.of_nat d)%Z
      by (subst amount; lia).
    destruct (decide (k < d)%nat) as [Hlt|Hge].
    + assert (Z.rem (Z.of_nat k - Z.of_nat d) (Z.of_nat n) < 0)%Z as Hneg.
      { rewrite <- (Z.opp_involutive (Z.of_nat k - Z.of_nat d)), Z.rem_opp_l by lia.
        rewrite Z.rem_small by lia. lia. }
      rewrite js_set_Z_neg by done. split; [done|]. intros j Hj.
      rewrite Hget by done. repeat case_decide; (done || lia).
    + rewrite Z.rem_small by lia. rewrite js_set_Z_nonneg by lia.
      replace (Z.to_nat (Z.of_nat k - Z.of_nat d)) with (k - d)%nat by lia.
      split; [rewrite length_js_set_lt; [done | lia]|]. intros j Hj.
      destruct (decide (j = k - d)%nat) as [->|Hne].
      * rewrite js_get_set_eq. rewrite decide_True by lia. f_equal. lia.
      * rewrite js_get_set_ne by lia. rewrite Hget by done.
        repeat case_decide; (done || lia).
Qed.

Lemma js_get_shift_loop_far n (d : nat) fill src j :
  (j < n)%nat → (0 < d < n)%nat →
  js_get (Pattern.shift_loop n (- Z.of_nat n - Z.of_nat d) fill src) j
    = if decide (j + d < n)%nat then js_get src (j + d) else Some fill.
Proof.
  intros Hj Hd. destruct (shift_loop_far_upto n n d fill src) as [_ Hget]; [done..|].
  unfold Pattern.shift_loop. by rewrite Hget.
Qed.

End shift_rotation.


Section pattern_shift.
Import Pattern.
Implicit Types (p : Pattern.t) (note : Z).

(** Under the invariant the rebuilding [forEach] is a map over the notes. *)
Lemma forEach_track_eq p f count init body :
  Inv p →
  forEach_track f (with_velocity count init body) p =
    Some (set_velocities
            (merge (λ tr ve, match tr with
                             | Some _ => with_velocity count init body ve
                             | None => ve
                             end) (tracks p) (velocities p))
            (set_tracks (f <$> tracks p) p)).
Proof.
  intros HInv. unfold forEach_track. rewrite decide_True; [done|].
  intros note track Hl. destruct (HInv _ _ Hl) as (_ & vel & Hv & _).
  rewrite Hv. by eexists.
Qed.

Lemma shift_loop_back {A} n (a : nat) (fill : A) (src : list (option A)) :
  length src = n → (a ≤ n)%nat →
  shift_loop n (- Z.of_nat a) fill (shift_loop n (Z.of_nat a) fill src) = src.
Proof.
  intros Hlen Ha. apply jsarray_eq; [by rewrite length_shift_loop|].
  intros j Hj. rewrite length_shift_loop in Hj.
  rewrite js_get_shift_loop by lia.
  assert (0 ≤ (Z.of_nat j - - Z.of_nat a) mod Z.of_nat n < Z.of_nat n)%Z as Hb
    by (apply Z.mod_pos_bound; lia).
  rewrite js_get_shift_loop by lia. f_equal.
  rewrite Z2Nat.id by lia. rewrite Zminus_mod_idemp_l.
  replace (Z.of_nat j - - Z.of_nat a - Z.of_nat a)%Z with (Z.of_nat j) by lia.
  rewrite Z.mod_small by lia. lia.
Qed.

Lemma four_on_the_floor_Inv p :
  four_on_the_floor = Some p → Inv p ∧ steps p = 32%nat.
Proof.
  unfold four_on_the_floor. intros Hp.
  destruct (recordNote_Inv 36 0 1.0 (constructor "1700000000000" 32 "Untitled"))
    as (p1 & H1 & HI1 & Hs1); [apply Inv_constructor | simpl; lia |].
  rewrite H1 in Hp. simpl in Hp, Hs1.
  destruct (recordNote_Inv 36 8 0.8 p1) as (p2 & H2 & HI2 & Hs2); [exact HI1 | lia |].
  rewrite H2 in Hp. simpl in Hp.
  destruct (recordNote_Inv 36 16 0.6 p2) as (p3 & H3 & HI3 & Hs3); [exact HI2 | lia |].
  rewrite H3 in Hp. simpl in Hp.
  destruct (recordNote_Inv 36 24 0.4 p3) as (p4 & H4 & HI4 & Hs4); [exact HI3 | lia |].
  rewrite H4 in Hp. injection Hp as <-. split; [exact HI4 | lia].
Qed.

(** X1.  For an amount of at least [-steps], on a pattern of the store,
    [shift(amount)] rotates every track and its velocities: what was at
    step [i] is at step [(i + amount) mod steps], the step count and the
    invariant are kept, and nothing is lost. *)
Theorem shift_is_rotation (p : Pattern.t) (amount : Z) :
  Inv p → (- Z.of_nat (steps p) ≤ amount)%Z →
  ∃ p', shift amount p = Some p' ∧ steps p' = steps p ∧ Inv p' ∧
    ∀ note i, (i < steps p)%nat →
      let j := Z.to_nat ((Z.of_nat i + amount) mod Z.of_nat (steps p)) in
      (j < steps p)%nat ∧
      getStep note j p' = getStep note i p ∧
      (is_Some (tracks p !! note) → getVelocity note j p' = getVelocity note i p).
Proof.
  intros HInv Ha. destruct (shift_Inv amount p HInv) as (p' & Hs & HInv').
  exists p'. split; [done|].
  unfold shift in Hs. rewrite forEach_track_eq in Hs by done. injection Hs as <-.
  split; [done|]. split; [done|]. intros note i Hi j.
  assert (0 ≤ (Z.of_nat i + amount) mod Z.of_nat (steps p) < Z.of_nat (steps p))%Z as Hb
    by (apply Z.mod_pos_bound; lia).
  assert (j < steps p)%nat as Hj by (subst j; lia).
  assert (Z.to_nat ((Z.of_nat j - amount) mod Z.of_nat (steps p)) = i) as Hback.
  { subst j. rewrite Z2Nat.id by lia. rewrite Zminus_mod_idemp_l.
    replace (Z.of_nat i + amount - amount)%Z with (Z.of_nat i) by lia.
    rewrite Z.mod_small by lia. lia. }
  split; [done|]. split.
  - unfold getStep. simpl. rewrite lookup_fmap.
    destruct (tracks p !! note) as [track|]; [|done]. simpl.
    by rewrite js_get_shift_loop, Hback.
  - intros [track Hl]. destruct (HInv _ _ Hl) as (_ & vel & Hv & _).
    unfold getVelocity. simpl. rewrite lookup_merge, Hl, Hv. simpl.
    by rewrite js_get_shift_loop, Hback.
Qed.

Lemma shift_is_rotation_witness :
  ∃ p p', four_on_the_floor = Some p ∧ shift 3 p = Some p' ∧
    getStep 36 11 p' = getStep 36 8 p ∧ getVelocity 36 11 p' = 0.8.
Proof.
  destruct four_on_the_floor as [p|] eqn:Hp; [|vm_compute in Hp; discriminate].
  destruct (four_on_the_floor_Inv p Hp) as [HInv Hsteps].
  destruct (shift_is_rotation p 3 HInv) as (p' & Hs & _ & _ & Hrot); [lia|].
  exists p, p'. split; [reflexivity|]. split; [exact Hs|].
  destruct (Hrot 36%Z 8%nat) as (_ & Hstep & Hvel); [lia|].
  rewrite Hsteps in Hstep, Hvel. split; [exact Hstep|].
  transitivity (getVelocity 36 8 p).
  - apply Hvel. vm_compute in Hp. injection Hp as <-. eexists. reflexivity.
  - vm_compute in Hp. injection Hp as <-. reflexivity.
Defined.

(** X2.  [shift(a)] followed by [shift(-a)], for [0 <= a <= steps], gives
    back the pattern unchanged. *)
Theorem shift_there_and_back (p : Pattern.t) (a : nat) :
  Inv p → (a ≤ steps p)%nat →
  ∃ p', shift (Z.of_nat a) p = Some p' ∧ shift (- Z.of_nat a) p' = Some p.
Proof.
  intros HInv Ha. destruct (shift_Inv (Z.of_nat a) p HInv) as (p' & Hs & HInv').
  exists p'. split; [done|].
  unfold shift in Hs. rewrite forEach_track_eq in Hs by done. injection Hs as <-.
  unfold shift. rewrite forEach_track_eq by done. f_equal. simpl.
  destruct p as [n nm tr ve i isn man last ti]. unfold set_velocities, set_tracks.
  simpl in *. f_equal.
  - apply map_eq. intros note. rewrite !lookup_fmap.
    destruct (tr !! note) as [track|] eqn:Hl; [|done]. simpl. f_equal.
    destruct (HInv _ _ Hl) as (Hlen & _). simpl in Hlen. by apply shift_loop_back.
  - apply map_eq. intros note. rewrite !lookup_merge, lookup_fmap.
    destruct (tr !! note) as [track|] eqn:Hl; simpl.
    + destruct (HInv _ _ Hl) as (_ & vel & Hv & Hlen). simpl in Hv, Hlen.
      rewrite Hv. simpl. f_equal. by apply shift_loop_back.
    + by destruct (ve !! note).
Qed.

Lemma shift_there_and_back_witness :
  ∃ p p', four_on_the_floor = Some p ∧
    shift 5 p = Some p' ∧ shift (-5) p' = Some p.
Proof.
  destruct four_on_the_floor as [p|] eqn:Hp; [|vm_compute in Hp; discriminate].
  destruct (four_on_the_floor_Inv p Hp) as [HInv Hsteps].
  destruct (shift_there_and_back p 5 HInv) as (p' & H1 & H2); [lia|].
  exists p, p'. split; [reflexivity|]. split; [exact H1 | exact H2].
Defined.

(** X3.  A shift to the left by more than the pattern length does not wrap
    around: [shift(-(steps + d))], [0 < d < steps], moves every step [d]
    places to the left and erases the [d] steps that would have wrapped. *)
Theorem shift_far_left_drops (p : Pattern.t) (d : nat) :
  Inv p → (0 < d < steps p)%nat →
  ∃ p', shift (- Z.of_nat (steps p) - Z.of_nat d) p = Some p' ∧
    ∀ note j, (j < steps p)%nat →
      getStep note j p' =
        if decide (j + d < steps p)%nat then getStep note (j + d) p else 0%Z.
Proof.
  intros HInv Hd.
  destruct (shift_Inv (- Z.of_nat (steps p) - Z.of_nat d) p HInv) as (p' & Hs & _).
  exists p'. split; [done|].
  unfold shift in Hs. rewrite forEach_track_eq in Hs by done. injection Hs as <-.
  intros note j Hj. unfold getStep. simpl. rewrite lookup_fmap.
  destruct (tracks p !! note) as [track|]; simpl; [|by case_decide].
  rewrite js_get_shift_loop_far by done. by case_decide.
Qed.

Lemma shift_far_left_drops_witness :
  ∃ p p', four_on_the_floor = Some p ∧ shift (-40) p = Some p' ∧
    getStep 36 0 p' = getStep 36 8 p ∧ getStep 36 24 p' = 0%Z.
Proof.
  destruct four_on_the_floor as [p|] eqn:Hp; [|vm_compute in Hp; discriminate].
  destruct (four_on_the_floor_Inv p Hp) as [HInv Hsteps].
  destruct (shift_far_left_drops p 8 HInv) as (p' & Hs & Hget); [lia|].
  rewrite Hsteps in Hs, Hget.
  exists p, p'. split; [reflexivity|]. split; [exact Hs|].
  split; [apply (Hget 36%Z 0%nat) | apply (Hget 36%Z 24%nat)]; lia.
Defined.

End pattern_shift.


(** ** Pattern: length transforms composed, clearing, recording *)

Section pattern_more.
Import Pattern.
Implicit Types (p : Pattern.t) (note : Z).

(** X4.  [double()] followed by [halve()] gives back the pattern unchanged,
    for a pattern of the store with at least 3 and fewer than 64 steps. *)
Theorem double_then_halve (p : Pattern.t) :
  Inv p → (3 ≤ steps p < 64)%nat →
  ∃ pd, double p = Some pd ∧ steps pd = (steps p * 2)%nat ∧ halve pd = Some p.
Proof.
  intros HInv Hs. destruct (double_Inv p HInv) as (pd & Hd & HInvd).
  exists pd. split; [done|].
  unfold double in Hd. rewrite decide_False in Hd by lia.
  rewrite forEach_track_eq in Hd by done. cbn [mbind option_bind] in Hd.
  injection Hd as Hpd.
  assert (steps pd = (steps p * 2)%nat) as Hspd by (by rewrite <- Hpd).
  split; [done|]. unfold halve. rewrite Hspd. rewrite decide_False by lia.
  assert (Nat.even (steps p * 2) = true) as -> by (rewrite Nat.even_mul; apply orb_true_r).
  assert (steps p * 2 / 2 = steps p)%nat as -> by (apply Nat.div_mul; lia).
  rewrite forEach_track_eq by done. cbn [mbind option_bind]. f_equal.
  rewrite <- Hpd. destruct p as [n nm tr ve i isn man last ti].
  unfold set_steps, set_velocities, set_tracks. simpl in *. f_equal.
  - apply map_eq. intros note. rewrite !lookup_fmap.
    destruct (tr !! note) as [track|] eqn:Hl; [|done]. simpl. f_equal.
    destruct (HInv _ _ Hl) as (Hlen & _). simpl in Hlen.
    rewrite <- Hlen at 2. rewrite double_loop_app.
    rewrite halve_loop_take by (rewrite length_app; lia).
    rewrite <- Hlen. by rewrite take_app_length.
  - apply map_eq. intros note. rewrite !lookup_merge, lookup_fmap.
    destruct (tr !! note) as [track|] eqn:Hl; simpl.
    + destruct (HInv _ _ Hl) as (_ & vel & Hv & Hlen). simpl in Hv, Hlen.
      rewrite Hv. simpl. f_equal.
      rewrite <- Hlen at 2. rewrite double_loop_app.
      rewrite halve_loop_take by (rewrite length_app; lia).
      rewrite <- Hlen. by rewrite take_app_length.
    + by destruct (ve !! note).
Qed.

Lemma double_then_halve_witness :
  ∃ p pd, four_on_the_floor = Some p ∧ double p = Some pd ∧
    steps pd = 64%nat ∧ halve pd = Some p.
Proof.
  destruct four_on_the_floor as [p|] eqn:Hp; [|vm_compute in Hp; discriminate].
  destruct (four_on_the_floor_Inv p Hp) as [HInv Hsteps].
  destruct (double_then_halve p HInv) as (pd & Hd & Hs & Hh); [lia|].
  exists p, pd. split; [reflexivity|]. split; [exact Hd|].
  split; [lia | exact Hh].
Defined.

(** X5.  [halve()] followed by [double()] does not give the pattern back:
    the step count is restored, the first half is kept, and the second half
    is replaced by a copy of the first. *)
Theorem halve_then_double (p : Pattern.t) :
  Inv p → (4 < steps p < 128)%nat → Nat.even (steps p) = true →
  ∃ ph pd, halve p = Some ph ∧ double ph = Some pd ∧ steps pd = steps p ∧
    ∀ note i, (i < steps p / 2)%nat →
      getStep note i pd = getStep note i p ∧
      getStep note (i + steps p / 2) pd = getStep note i p.
Proof.
  intros HInv Hs Heven.
  destruct (halve_spec p HInv) as (ph & Hh & Hsh & Htr & _); [lia | done |].
  destruct (halve_Inv p HInv Heven) as (ph' & Hh' & HInvh).
  rewrite Hh in Hh'. injection Hh' as <-.
  assert (steps p / 2 * 2 = steps p)%nat as Hback.
  { apply Nat.even_spec in Heven as [k Hk]. rewrite Hk.
    rewrite (Nat.mul_comm 2 k), Nat.div_mul by lia. done. }
  destruct (double_spec ph HInvh) as (pd & Hd & Hsd & Htrd & _); [lia|].
  exists ph, pd. split; [done|]. split; [done|]. split; [lia|].
  remember (steps p / 2)%nat as h eqn:Hh'.
  intros note i Hi. unfold getStep. rewrite Htrd, Htr, !lookup_fmap.
  destruct (tracks p !! note) as [track|] eqn:Hl; [|done].
  destruct (HInv _ _ Hl) as (Hlen & _).
  cbn [fmap option_fmap option_map mbind option_bind].
  rewrite !js_get_app_twice, length_take, !js_get_take.
  replace (h `min` length track)%nat with h by lia.
  rewrite (decide_True (P := (i < h)%nat)) by done.
  rewrite (decide_False (P := (i + h < h)%nat)) by lia.
  replace (i + h - h)%nat with i by lia.
  by rewrite decide_True by done.
Qed.

Lemma halve_then_double_witness :
  ∃ p ph pd, four_on_the_floor = Some p ∧ halve p = Some ph ∧ double ph = Some pd ∧
    steps pd = 32%nat ∧ getStep 36 24 pd = getStep 36 8 p.
Proof.
  destruct four_on_the_floor as [p|] eqn:Hp; [|vm_compute in Hp; discriminate].
  destruct (four_on_the_floor_Inv p Hp) as [HInv Hsteps].
  destruct (halve_then_double p HInv) as (ph & pd & Hh & Hd & Hs & Hget);
    [lia | by rewrite Hsteps |].
  exists p, ph, pd. split; [reflexivity|]. split; [exact Hh|]. split; [exact Hd|].
  split; [lia|]. rewrite Hsteps in Hget. apply (Hget 36%Z 8%nat).
  change (32 / 2)%nat with 16%nat. lia.
Defined.

(** X6.  [clear()] keeps the notes, the step count and the array lengths;
    afterwards every step of every note reads inactive with velocity 1.0. *)
Theorem clear_resets_all_steps (p : Pattern.t) (note : Z) (step : nat) :
  steps (clear p) = steps p ∧
  dom (tracks (clear p)) = dom (tracks p) ∧
  (length <$> tracks (clear p) !! note) = (length <$> tracks p !! note) ∧
  getNoteParams note step (clear p) = mkParams false 1.0.
Proof.
  split; [done|]. split; [simpl; by rewrite dom_fmap_L|]. split.
  - simpl. rewrite lookup_fmap. destruct (tracks p !! note); [|done]. simpl.
    by rewrite length_js_fill.
  - unfold getNoteParams, getStep, getVelocity. simpl. rewrite !lookup_fmap.
    assert (∀ {A} (l : list (option A)) (x : A) (d : A),
      x = d → nullish (js_get (js_fill l x) step) d = d) as Hfill.
    { intros A l x d ->. unfold js_fill, js_get.
      destruct (decide (step < length l)%nat).
      - by rewrite lookup_replicate_2.
      - rewrite lookup_ge_None_2; [done | rewrite length_replicate; lia]. }
    f_equal.
    + destruct (tracks p !! note) as [track|]; [|done]. simpl. by rewrite Hfill.
    + destruct (velocities p !! note) as [vel|]; [|done]. simpl. by rewrite Hfill.
Qed.

(** X7.  [recordNote] writes one cell.  Whenever it returns, the recorded
    velocity lies in [0.1, 1]; the active flag of every other (note, step)
    is as before, and so is the velocity of every other note and, when the
    note already had a track, of its other steps. *)
Theorem recordNote_writes_one_cell (p p' : Pattern.t) (note : Z) (step : nat)
    (v : Q) (note' : Z) (step' : nat) :
  recordNote note step v p = Some p' →
  0.1 <= getVelocity note step p' <= 1 ∧
  ((note', step') ≠ (note, step) → getStep note' step' p' = getStep note' step' p) ∧
  (note' ≠ note → getVelocity note' step' p' = getVelocity note' step' p) ∧
  (is_Some (tracks p !! note) → step' ≠ step →
     getVelocity note step' p' = getVelocity note step' p).
Proof.
  intros Hr. destruct (recordNote_read _ _ _ _ _ Hr) as (Hread & _).
  split.
  { injection Hread as _ ->. pose proof (clamp_bounds 0.1 1.0 v).
    unfold Math_max, Math_min in *.
    assert (Qmin 1.0 v <= 1) by (eapply Qle_trans; [apply Q.le_min_l|lra]).
    split; [apply Q.le_max_l | apply Q.max_lub; lra]. }
  clear Hread. revert Hr. unfold recordNote, addTrack.
  destruct (tracks p !! note) as [track|] eqn:Hl; simpl.
  - rewrite Hl. simpl. destruct (velocities p !! note) as [vel|] eqn:Hv; [|done].
    simpl. intros [= <-]. unfold getStep, getVelocity. simpl.
    split; [|split].
    + intros Hne. destruct (decide (note' = note)) as [->|Hn].
      * rewrite lookup_insert_eq, Hl. simpl.
        assert (step' ≠ step) by congruence.
        unfold js_get, js_set. case_decide.
        -- by rewrite list_lookup_insert_ne.
        -- destruct (decide (step' < length track)%nat).
           ++ by rewrite lookup_app_l.
           ++ rewrite (lookup_ge_None_2 track) by lia.
              rewrite lookup_app_r by lia.
              destruct (decide (step' - length track < step - length track)%nat).
              ** rewrite lookup_app_l by (rewrite length_replicate; lia).
                 by rewrite lookup_replicate_2.
              ** rewrite lookup_ge_None_2; [done|].
                 rewrite length_app, length_replicate. simpl. lia.
      * by rewrite lookup_insert_ne.
    + intros Hn. by rewrite lookup_insert_ne.
    + intros _ Hne. rewrite lookup_insert_eq, Hv. simpl.
      unfold js_get, js_set. case_decide.
      * by rewrite list_lookup_insert_ne.
      * destruct (decide (step' < length vel)%nat).
        -- by rewrite lookup_app_l.
        -- rewrite (lookup_ge_None_2 vel) by lia.
           rewrite lookup_app_r by lia.
           destruct (decide (step' - length vel < step - length vel)%nat).
           ** rewrite lookup_app_l by (rewrite length_replicate; lia).
              by rewrite lookup_replicate_2.
           ** rewrite lookup_ge_None_2; [done|].
              rewrite length_app, length_replicate. simpl. lia.
  - rewrite !lookup_insert_eq. simpl. intros [= <-].
    unfold getStep, getVelocity. simpl. split; [|split].
    + intros Hne. destruct (decide (note' = note)) as [->|Hn].
      * rewrite lookup_insert_eq, Hl. simpl.
        assert (step' ≠ step) by congruence.
        unfold js_get, js_set, Array_fill. rewrite length_replicate. case_decide.
        -- rewrite list_lookup_insert_ne by done.
           destruct (decide (step' < steps p)%nat).
           ++ by rewrite lookup_replicate_2.
           ++ rewrite lookup_ge_None_2; [done | rewrite length_replicate; lia].
        -- destruct (decide (step' < steps p)%nat).
           ++ rewrite lookup_app_l by (rewrite length_replicate; lia).
              by rewrite lookup_replicate_2.
           ++ rewrite lookup_app_r by (rewrite length_replicate; lia).
              rewrite length_replicate.
              destruct (decide (step' - steps p < step - steps p)%nat).
              ** rewrite lookup_app_l by (rewrite length_replicate; lia).
                 by rewrite lookup_replicate_2.
              ** rewrite lookup_ge_None_2; [done|].
                 rewrite length_app, length_replicate. simpl. lia.
      * by rewrite !lookup_insert_ne.
    + intros Hn. by rewrite !lookup_insert_ne.
    + by intros [? ?].
Qed.

Lemma recordNote_writes_one_cell_witness :
  ∃ p p', four_on_the_floor = Some p ∧ recordNote 36 5 2 p = Some p' ∧
    getVelocity 36 5 p' <= 1 ∧ getStep 36 8 p' = getStep 36 8 p ∧
    getVelocity 36 8 p' = getVelocity 36 8 p.
Proof.
  destruct four_on_the_floor as [p|] eqn:Hp; [|vm_compute in Hp; discriminate].
  destruct (recordNote 36 5 2 p) as [p'|] eqn:Hr;
    [|vm_compute in Hp; injection Hp as <-; vm_compute in Hr; discriminate].
  destruct (recordNote_writes_one_cell p p' 36 5 2 36 8 Hr) as ([_ H1] & H2 & _ & H4).
  exists p, p'. split; [reflexivity|]. split; [exact Hr|]. split; [exact H1|].
  split; [apply H2; discriminate|]. apply H4; [|discriminate].
  vm_compute in Hp. injection Hp as <-. eexists. reflexivity.
Defined.

(** X8.  Swing never moves a step earlier and touches odd steps only: with
    a swing between 0 and 100 and a step duration that is not negative,
    [getStepTime] lies between [time] and [time + 0.33 * stepDuration], and
    on an even step it is [time]. *)
Theorem swing_delays_odd_steps (p : Pattern.t) (step : nat) (time d : Q) :
  0 <= d → 0 <= swing (timing p) <= 100 →
  time <= PatternMore.getStepTime step time d p <= time + 0.33 * d ∧
  (Nat.even step = true → PatternMore.getStepTime step time d p = time) ∧
  (Nat.odd step = true → ¬ swing (timing p) == 0 →
     PatternMore.getStepTime step time d p = time + d * (swing (timing p) / 100 * 0.33)).
Proof.
  intros Hd [Hs0 Hs1]. unfold PatternMore.getStepTime.
  assert (0 <= d * (swing (timing p) / 100 * 0.33) <= 0.33 * d) as Hbound.
  { assert (swing (timing p) / 100 * 0.33 == swing (timing p) * (33 # 10000)) as ->
      by (field; lra).
    split.
    - apply Qmult_le_0_compat; [done|]. apply Qmult_le_0_compat; [done | lra].
    - rewrite (Qmult_comm d). apply Qmult_le_compat_r; [lra | done]. }
  destruct (Qeq_bool (swing (timing p)) 0) eqn:Hz.
  { split; [lra|]. split; [done|]. intros _ Hne. apply Qeq_bool_iff in Hz. done. }
  rewrite bool_decide_true by done.
  assert (step mod 2 = 0 ∨ step mod 2 = 1)%nat as [Hm|Hm]
    by (pose proof (Nat.mod_upper_bound step 2); lia).
  - rewrite Hm. change (0 =? 1)%nat with false. rewrite andb_false_r.
    split; [lra|]. split; [done|].
    intros Hodd. rewrite Nat.odd_spec in Hodd. destruct Hodd as [k ->].
    exfalso. rewrite Nat.add_comm, Nat.mul_comm, Nat.Div0.mod_add in Hm. done.
  - rewrite Hm.
    assert (step mod 4 ≠ 0)%nat as Hm4.
    { intros H4. pose proof (Nat.div_mod_eq step 4). pose proof (Nat.div_mod_eq step 2).
      lia. }
    apply Nat.eqb_neq in Hm4. rewrite Hm4. cbn [andb negb Nat.eqb].
    split; [lra|]. split; [|done].
    intros Heven. rewrite Nat.even_spec in Heven. destruct Heven as [k ->].
    rewrite Nat.mul_comm, Nat.Div0.mod_mul in Hm. done.
Qed.

Lemma swing_delays_odd_steps_witness :
  let p := Pattern.mk 32 "Untitled" ∅ ∅ "1" true ∅ (-1)%Z (Pattern.mkTiming 50 0 0) in
  PatternMore.getStepTime 3 1 (1 # 16) p = 1 + (1 # 16) * (50 / 100 * 0.33) ∧
  PatternMore.getStepTime 4 1 (1 # 16) p = 1.
Proof.
  intros p.
  destruct (swing_delays_odd_steps p 3 1 (1 # 16)) as (_ & _ & Hodd);
    [vm_compute; discriminate | split; vm_compute; discriminate |].
  destruct (swing_delays_odd_steps p 4 1 (1 # 16)) as (_ & Heven & _);
    [vm_compute; discriminate | split; vm_compute; discriminate |].
  split; [apply Hodd; [reflexivity | vm_compute; discriminate] | apply Heven; reflexivity].
Defined.

End pattern_more.


(** ** The sound trigger engine: debounce, stopping, trim regions *)

Section sound_more.
Import SampleManager.
Implicit Types (sm : SampleManager.t) (note : Z).

Lemma triggerSound_first sm note sample v t now :
  samples sm !! note = Some sample → playing sm !! note = None →
  ∃ info, triggerSound note v t now sm
          = (mk (samples sm) (<[note := [info]]> (playing sm)), Some info) ∧
    startTime info = t.
Proof.
  intros Hs Hp. unfold triggerSound. rewrite Hs, Hp. simpl. by eexists.
Qed.

(** X9.  Debounce.  After a first voice of a note, scheduled for time [t],
    a second trigger of the note while the audio clock is less than 20 ms
    past [t] starts nothing and leaves the engine as it is, whatever its own
    velocity and target time (so a voice scheduled ahead blocks every
    trigger of its note until 20 ms after its start); from 20 ms past [t]
    on, the second trigger starts a second voice. *)
Theorem debounce_window (sm : SampleManager.t) (note : Z) (sample : Sample)
    (v v' t t' now now' : Q) :
  samples sm !! note = Some sample → playing sm !! note = None →
  ∃ sm1 info,
    triggerSound note v t now sm = (sm1, Some info) ∧
    (now' - t < 0.02 → triggerSound note v' t' now' sm1 = (sm1, None)) ∧
    (0.02 <= now' - t →
       ∃ sm2 info', triggerSound note v' t' now' sm1 = (sm2, Some info') ∧
         playing sm2 !! note = Some [info; info']).
Proof.
  intros Hs Hp. destruct (triggerSound_first sm note sample v t now Hs Hp)
    as (info & Ht & Hst).
  eexists _, info. split; [exact Ht|]. split.
  - intros Hlt. unfold triggerSound. simpl. rewrite Hs, lookup_insert_eq. simpl.
    rewrite filter_cons, filter_nil, Hst. rewrite decide_True by done. done.
  - intros Hge. unfold triggerSound. simpl. rewrite Hs, lookup_insert_eq. simpl.
    rewrite filter_cons, filter_nil, Hst. rewrite decide_False by lra. simpl.
    eexists _, _. split; [done|]. simpl. by rewrite lookup_insert_eq.
Qed.

Lemma debounce_window_witness :
  let sm := SampleManager.mk {[ 36%Z := mkSample 2 "kick.wav" 0 1 ]} ∅ in
  ∃ sm1 info,
    triggerSound 36 1 0.25 0 sm = (sm1, Some info) ∧
    triggerSound 36 1 0.26 0.1 sm1 = (sm1, None).
Proof.
  intros sm.
  destruct (debounce_window sm 36 (mkSample 2 "kick.wav" 0 1) 1 1 0.25 0.26 0 0.1)
    as (sm1 & info & Ht & Hblocked & _); [reflexivity | reflexivity |].
  exists sm1, info. split; [exact Ht|]. apply Hblocked. vm_compute. reflexivity.
Defined.

(** X10.  [stopSound] ends the debounce: after it the note has no active
    playback, the other notes keep their voices, and the next trigger of the
    note starts a voice at once, however soon it comes. *)
Theorem stopSound_clears_note (sm : SampleManager.t) (note note' : Z) (sample : Sample)
    (v t now : Q) :
  samples sm !! note = Some sample →
  let sm' := SampleManagerMore.stopSound note sm in
  SampleManagerMore.hasActivePlayback note sm' = false ∧
  (note' ≠ note → playing sm' !! note' = playing sm !! note') ∧
  samples sm' = samples sm ∧
  ∃ sm'' info, triggerSound note v t now sm' = (sm'', Some info) ∧
    SampleManagerMore.hasActivePlayback note sm'' = true.
Proof.
  intros Hs sm'.
  assert (playing sm' !! note = None ∧ samples sm' = samples sm ∧
          (note' ≠ note → playing sm' !! note' = playing sm !! note')) as (Hp & Hsm & Ho).
  { subst sm'. unfold SampleManagerMore.stopSound.
    destruct (playing sm !! note) eqn:Hp; simpl; [|done].
    rewrite lookup_delete_eq. repeat split. intros Hne. by rewrite lookup_delete_ne. }
  split; [unfold SampleManagerMore.hasActivePlayback; by rewrite Hp|].
  split; [done|]. split; [done|].
  destruct (triggerSound_first sm' note sample v t now) as (info & Ht & _);
    [by rewrite Hsm | done |].
  eexists _, info. split; [exact Ht|].
  unfold SampleManagerMore.hasActivePlayback. simpl. by rewrite lookup_insert_eq.
Qed.

Lemma stopSound_clears_note_witness :
  let sm := SampleManager.mk {[ 36%Z := mkSample 2 "kick.wav" 0 1 ]} ∅ in
  ∃ sm1 info sm2 info',
    triggerSound 36 1 0 0 sm = (sm1, Some info) ∧
    triggerSound 36 1 0 0 sm1 = (sm1, None) ∧
    triggerSound 36 1 0 0 (SampleManagerMore.stopSound 36 sm1) = (sm2, Some info').
Proof.
  intros sm. eexists _, _. 
  destruct (stopSound_clears_note (triggerSound 36 1 0 0 sm).1 36 36
              (mkSample 2 "kick.wav" 0 1) 1 0 0)
    as (_ & _ & _ & sm2 & info' & Ht & _); [reflexivity|].
  exists sm2, info'. split; [reflexivity|]. split; [reflexivity | exact Ht].
Defined.

(** X11.  A trim region set in order stays inside the buffer: after
    [setSampleRange(note, s, e)] with [0 <= s <= e <= 1] and [0 < e], the next
    voice starts at offset [buffer.duration * s], lasts [buffer.duration *
    (e - s)], which is not negative, and ends within the buffer. *)
Theorem ordered_trim_region (sm : SampleManager.t) (note : Z) (sample : Sample)
    (s e v t now : Q) :
  samples sm !! note = Some sample → playing sm !! note = None →
  0 <= buffer_duration sample → 0 <= s → s <= e → e <= 1 → 0 < e →
  ∃ sm' info,
    triggerSound note v t now (setSampleRange note s e sm) = (sm', Some info) ∧
    source_offset info == buffer_duration sample * s ∧
    source_duration info == buffer_duration sample * (e - s) ∧
    0 <= source_duration info ∧
    source_offset info + source_duration info <= buffer_duration sample.
Proof.
  intros Hs Hp Hd Hs0 Hse He1 He0.
  destruct (setSampleRange_lookup sm note sample s e Hs) as [Hl Hpl].
  set (stored := mkSample _ _ _ _) in Hl.
  destruct (triggerSound_voice (setSampleRange note s e sm) note stored v t now)
    as (sm' & info & Ht & _ & _ & Hoff & Hdur); [done | by rewrite Hpl |].
  exists sm', info. split; [done|]. rewrite Hoff, Hdur.
  change (buffer_duration stored) with (buffer_duration sample).
  destruct (clamp01 e) as (_ & Heid & _).
  assert (end' stored = e) as -> by (apply Heid; lra).
  rewrite (orQ_pos e) by done.
  assert (orQ (Some (start stored)) 0 == s) as Hstart.
  { simpl. destruct (clamp01 s) as (Hs01 & Hsid & _).
    unfold orQ, truthyQ. destruct (Qeq_bool _ 0) eqn:Hz; simpl.
    - apply Qeq_bool_iff in Hz.
      destruct (Qlt_le_dec 0 s) as [Hpos|Hneg]; [|lra].
      rewrite Hsid in Hz by lra. lra.
    - destruct (Qlt_le_dec 0 s) as [Hpos|Hneg].
      + by rewrite Hsid by lra.
      + destruct (Math_min_cases s 1) as [[_ ->]|[? _]]; [|lra].
        destruct (Math_max_cases 0 s) as [[_ ->]|[? _]]; lra. }
  rewrite Hstart.
  assert (0 <= buffer_duration sample * (e - s))
    by (apply Qmult_le_0_compat; lra).
  assert (buffer_duration sample * e <= buffer_duration sample * 1)
    by (rewrite !(Qmult_comm (buffer_duration sample)); apply Qmult_le_compat_r; lra).
  repeat split; lra.
Qed.

Lemma ordered_trim_region_witness :
  let sm := SampleManager.mk {[ 36%Z := mkSample 2 "kick.wav" 0 1 ]} ∅ in
  ∃ sm' info,
    triggerSound 36 1 0 0 (setSampleRange 36 0.25 0.75 sm) = (sm', Some info) ∧
    source_duration info == 1.
Proof.
  intros sm.
  destruct (ordered_trim_region sm 36 (mkSample 2 "kick.wav" 0 1) 0.25 0.75 1 0 0)
    as (sm' & info & Ht & _ & Hdur & _); try (vm_compute; reflexivity);
    try (vm_compute; discriminate).
  exists sm', info. split; [exact Ht|]. rewrite Hdur. vm_compute. reflexivity.
Defined.

(** X12.  A trim end at or below 0 does not give an empty region: the stored
    end is 0, which [sample.end || 1] reads as 1, so the next voice plays
    from the stored start to the end of the buffer. *)
Theorem zero_trim_end_plays_to_end (sm : SampleManager.t) (note : Z) (sample : Sample)
    (s e v t now : Q) :
  samples sm !! note = Some sample → playing sm !! note = None → e <= 0 →
  ∃ stored sm' info,
    samples (setSampleRange note s e sm) !! note = Some stored ∧
    end' stored == 0 ∧
    triggerSound note v t now (setSampleRange note s e sm) = (sm', Some info) ∧
    source_offset info + source_duration info == buffer_duration sample.
Proof.
  intros Hs Hp He.
  destruct (setSampleRange_lookup sm note sample s e Hs) as [Hl Hpl].
  set (stored := mkSample _ _ _ _) in Hl.
  destruct (triggerSound_voice (setSampleRange note s e sm) note stored v t now)
    as (sm' & info & Ht & _ & _ & Hoff & Hdur); [done | by rewrite Hpl |].
  assert (end' stored == 0) as Hend.
  { simpl. destruct (Math_min_cases e 1) as [[_ ->]|[? _]]; [|lra].
    destruct (Math_max_cases 0 e) as [[_ ->]|[? ->]]; lra. }
  exists stored, sm', info. split; [done|]. split; [done|]. split; [done|].
  rewrite Hoff, Hdur. change (buffer_duration stored) with (buffer_duration sample).
  assert (orQ (Some (end' stored)) 1 = 1) as ->.
  { unfold orQ, truthyQ. apply Qeq_bool_iff in Hend. by rewrite Hend. }
  lra.
Qed.

Lemma zero_trim_end_plays_to_end_witness :
  let sm := SampleManager.mk {[ 36%Z := mkSample 2 "kick.wav" 0 1 ]} ∅ in
  ∃ sm' info,
    triggerSound 36 1 0 0 (setSampleRange 36 0.5 0 sm) = (sm', Some info) ∧
    source_offset info + source_duration info == 2.
Proof.
  intros sm.
  destruct (zero_trim_end_plays_to_end sm 36 (mkSample 2 "kick.wav" 0 1) 0.5 0 1 0 0)
    as (stored & sm' & info & _ & _ & Ht & Hsum);
    [reflexivity | reflexivity | vm_compute; discriminate |].
  exists sm', info. split; [exact Ht | exact Hsum].
Defined.

End sound_more.


Section voice_lifecycle.
Import SampleManager SampleManagerMore.
Implicit Types (sm : SampleManager.t) (note : Z).

Lemma stopSound_eq note sm :
  stopSound note sm = mk (samples sm) (delete note (playing sm)).
Proof.
  unfold stopSound. destruct (playing sm !! note) eqn:Hp; [done|].
  rewrite delete_id by done. by destruct sm.
Qed.

Lemma foldr_stopSound notes sm :
  foldr stopSound sm notes = mk (samples sm) (foldr delete (playing sm) notes).
Proof.
  induction notes as [|n notes IH]; simpl; [by destruct sm|].
  by rewrite stopSound_eq, IH.
Qed.

Lemma lookup_foldr_delete {A} (notes : list Z) (m : gmap Z A) k :
  foldr delete m notes !! k = if decide (k ∈ notes) then None else m !! k.
Proof.
  induction notes as [|n notes IH]; simpl.
  - done.
  - destruct (decide (n = k)) as [->|Hne].
    + rewrite lookup_delete_eq. rewrite decide_True; [done | by left].
    + rewrite lookup_delete_ne, IH by done.
      destruct (decide (k ∈ notes)) as [Hin|Hnin].
      * rewrite decide_True; [done | by right].
      * rewrite decide_False; [done|]. intros Hin. apply elem_of_cons in Hin as [->|]; done.
Qed.

(** X13.  A voice's life.  A trigger on an idle note makes the note active;
    when the voice ends, the note is idle again and the engine is exactly as
    it was before the trigger, so the next trigger is not debounced. *)
Theorem trigger_then_ended (sm : SampleManager.t) (note : Z) (sample : Sample)
    (v t now : Q) :
  samples sm !! note = Some sample → playing sm !! note = None →
  ∃ sm1 info,
    triggerSound note v t now sm = (sm1, Some info) ∧
    hasActivePlayback note sm1 = true ∧
    onended note info sm1 = sm ∧
    hasActivePlayback note (onended note info sm1) = false.
Proof.
  intros Hs Hp. destruct (triggerSound_first sm note sample v t now Hs Hp)
    as (info & Ht & _).
  eexists _, info. split; [exact Ht|].
  assert (onended note info (mk (samples sm) (<[note := [info]]> (playing sm))) = sm)
    as Hend.
  { unfold onended. simpl. rewrite lookup_insert_eq. simpl.
    rewrite decide_True by done. simpl.
    rewrite delete_insert_eq, delete_id by done. by destruct sm. }
  split; [|split; [done|]].
  - unfold hasActivePlayback. simpl. by rewrite lookup_insert_eq.
  - rewrite Hend. unfold hasActivePlayback. by rewrite Hp.
Qed.

Lemma trigger_then_ended_witness :
  let sm := SampleManager.mk {[ 36%Z := mkSample 2 "kick.wav" 0 1 ]} ∅ in
  ∃ sm1 info,
    triggerSound 36 1 0 0 sm = (sm1, Some info) ∧ onended 36 info sm1 = sm.
Proof.
  intros sm.
  destruct (trigger_then_ended sm 36 (mkSample 2 "kick.wav" 0 1) 1 0 0)
    as (sm1 & info & Ht & _ & Hend & _); [reflexivity | reflexivity |].
  by exists sm1, info.
Defined.

(** X14.  [stopAll] is [stopSound] for every note: stopping, in any order
    and any number of times, a list of notes that holds every playing note
    leaves the engine as [stopAll] does, with no note active and the
    samples as they were. *)
Theorem stopAll_is_stopSound_for_all (sm : SampleManager.t) (notes : list Z) :
  (∀ note, is_Some (playing sm !! note) → note ∈ notes) →
  foldr stopSound sm notes = stopAll sm ∧
  samples (stopAll sm) = samples sm ∧
  ∀ note, hasActivePlayback note (stopAll sm) = false.
Proof.
  intros Hall. split; [|done].
  rewrite foldr_stopSound. unfold stopAll. f_equal.
  apply map_eq. intros k. rewrite lookup_foldr_delete, lookup_empty.
  destruct (decide (k ∈ notes)) as [Hin|Hnin]; [done|].
  destruct (playing sm !! k) eqn:Hk; [|done].
  exfalso. apply Hnin, Hall. by rewrite Hk.
Qed.

Lemma stopAll_is_stopSound_for_all_witness :
  let sm := SampleManager.mk {[ 36%Z := mkSample 2 "kick.wav" 0 1;
                                38%Z := mkSample 1 "snare.wav" 0 1 ]} ∅ in
  let sm2 := (triggerSound 38 1 0 0 (triggerSound 36 1 0 0 sm).1).1 in
  stopSound 36 (stopSound 38 sm2) = stopAll sm2.
Proof.
  intros sm sm2.
  refine (proj1 (stopAll_is_stopSound_for_all sm2 [36%Z; 38%Z] _)).
  intros note [l Hl].
  destruct (decide (note = 36%Z)) as [->|H36]; [by left|].
  destruct (decide (note = 38%Z)) as [->|H38]; [right; by left|].
  exfalso. subst sm2.
  rewrite (triggerSound_other 38 note) in Hl by done.
  rewrite (triggerSound_other 36 note) in Hl by done.
  subst sm. simpl in Hl. by rewrite lookup_empty in Hl.
Defined.

End voice_lifecycle.

(** ** The step dispatcher: what one callback starts *)

Section dispatcher_more.
Import LaunchpadApp.
Implicit Types (app : LaunchpadApp.t) (pattern : Pattern.t).

Lemma triggerSound_times n v t now sm sm' info :
  SampleManager.triggerSound n v t now sm = (sm', Some info) →
  SampleManager.startTime info = t ∧ SampleManager.source_when info = t.
Proof.
  unfold SampleManager.triggerSound. destruct (SampleManager.samples sm !! n); [|done].
  case_bool_decide; [done|]. by intros [= <- <-].
Qed.

(** The voices started by the dispatch of a batch: at most one for each
    entry, in the order of the batch, each at the time of its entry. *)
Lemma dispatch_batch_voices now (batch : list NoteInfo) : ∀ app,
  ∃ new,
    triggered (foldl (λ app noteInfo,
                 triggerSound (note noteInfo) (velocity noteInfo)
                   (time noteInfo + 0) now app) app batch)
      = triggered app ++ new ∧
    new.*1 `sublist_of` (note <$> batch) ∧
    ∀ m info, (m, info) ∈ new →
      ∃ ni, ni ∈ batch ∧ SampleManager.startTime info = time ni + 0 ∧
        SampleManager.source_when info = time ni + 0.
Proof.
  induction batch as [|ni batch IH]; intros app; simpl.
  - exists []. split; [by rewrite app_nil_r|]. split; [done|].
    intros m info Hin. by apply elem_of_nil in Hin.
  - destruct (IH (triggerSound (note ni) (velocity ni) (time ni + 0) now app))
      as (new2 & Ht2 & Hsub & Hn2).
    rewrite Ht2. clear Ht2. unfold triggerSound.
    destruct (SampleManager.triggerSound (note ni) (velocity ni) (time ni + 0) now
                (sampleManager app)) as [sm [info1|]] eqn:Htr; simpl.
    + exists ((note ni, info1) :: new2). split; [by rewrite <- app_assoc|].
      split; [by apply sublist_skip|].
      intros m info Hin. apply elem_of_cons in Hin as [[= -> ->]|Hin].
      * exists ni. split; [by left|]. by eapply triggerSound_times.
      * destruct (Hn2 m info Hin) as (ni' & Hin' & Htimes).
        exists ni'. split; [by right | done].
    + exists new2. split; [by rewrite app_nil_r|].
      split; [by apply sublist_cons|].
      intros m info Hin. destruct (Hn2 m info Hin) as (ni' & Hin' & Htimes).
      exists ni'. split; [by right | done].
Qed.

(** X15.  One callback, one instant.  The voices a pattern callback for
    [(step, time)] starts are all scheduled for the same audio time,
    [time + 0.005], and no note gets more than one of them. *)
Theorem callback_voices_simultaneous (app : LaunchpadApp.t) (step : nat)
    (time_ now : Q) :
  ∃ voices,
    triggered (patternCallback step time_ now app) = triggered app ++ voices ∧
    NoDup voices.*1 ∧
    ∀ m info, (m, info) ∈ voices →
      SampleManager.startTime info = time_ + 0.005 + 0 ∧
      SampleManager.source_when info = time_ + 0.005 + 0.
Proof.
  assert (∃ voices : list (Z * SampleManager.SoundInfo),
            triggered app = triggered app ++ voices ∧ NoDup voices.*1 ∧
            ∀ m info, (m, info) ∈ voices →
              SampleManager.startTime info = time_ + 0.005 + 0 ∧
              SampleManager.source_when info = time_ + 0.005 + 0) as Hnone.
  { exists []. split; [by rewrite app_nil_r|]. split; [constructor|].
    intros m info Hin. by apply elem_of_nil in Hin. }
  unfold patternCallback. destruct (patternEnabled app); simpl; [|done].
  destruct (currentPattern app) as [pattern|]; [|done].
  set (pattern1 := Pattern.clearTriggeredNotesIfNeeded _ _).
  set (app1 := mk _ _ _ _ _).
  destruct (dispatch_batch_voices now
              (scheduledNotes step (time_ + 0.005) pattern1 (sampleManager app)) app1)
    as (new & Ht & Hsub & Hn).
  exists new. split; [exact Ht|]. split.
  - eapply sublist_NoDup; [|exact Hsub]. apply NoDup_scheduledNotes.
  - intros m info Hin. destruct (Hn m info Hin) as (ni & Hni & Hst & Hw).
    apply elem_of_scheduledNotes in Hni as (_ & _ & _ & _ & _ & _ & Htime).
    by rewrite Hst, Hw, Htime.
Qed.

(** X16.  The clock counts 32 steps whatever the pattern's length, and the
    callback reads the tracks at the clock's step: at a step at or beyond the
    pattern's length the batch is empty, no voice starts and the trigger
    engine is left alone.  A pattern of fewer than 32 steps is silent for
    the rest of the clock's cycle. *)
Theorem silent_beyond_pattern_length (app : LaunchpadApp.t) (pattern : Pattern.t)
    (step : nat) (time_ now : Q) :
  currentPattern app = Some pattern → Pattern.Inv pattern →
  (Pattern.steps pattern ≤ step)%nat →
  scheduledNotes step (time_ + 0.005)
    (Pattern.clearTriggeredNotesIfNeeded (Z.of_nat step) pattern) (sampleManager app) = [] ∧
  triggered (patternCallback step time_ now app) = triggered app ∧
  sampleManager (patternCallback step time_ now app) = sampleManager app.
Proof.
  intros Hp HInv Hge.
  assert (∀ pattern' sm, Pattern.tracks pattern' = Pattern.tracks pattern →
            scheduledNotes step (time_ + 0.005) pattern' sm = []) as Hempty.
  { intros pattern' sm Htr. destruct (scheduledNotes _ _ _ _) as [|ni l] eqn:Hb; [done|].
    assert (ni ∈ scheduledNotes step (time_ + 0.005) pattern' sm) as Hin
      by (rewrite Hb; by left).
    apply elem_of_scheduledNotes in Hin as (track & Hl & _ & Htruthy & _).
    rewrite Htr in Hl. destruct (HInv _ _ Hl) as [Hlen _].
    rewrite js_get_ge in Htruthy by lia. done. }
  assert (Pattern.tracks (Pattern.clearTriggeredNotesIfNeeded (Z.of_nat step) pattern)
          = Pattern.tracks pattern) as Htr.
  { unfold Pattern.clearTriggeredNotesIfNeeded. by case_decide. }
  split; [by apply Hempty|].
  unfold patternCallback. destruct (patternEnabled app); simpl; [|done].
  rewrite Hp. by rewrite (Hempty _ _ Htr).
Qed.

Lemma silent_beyond_pattern_length_witness :
  let pattern := Pattern.addTrack 38 (Pattern.constructor "1700000000000" 16 "Half") in
  let app := LaunchpadApp.mk true (Some pattern) (sampleManager beat_mode_app)
               (Clock.constructor 120) [] in
  triggered (patternCallback 16 2 2 app) = [].
Proof.
  intros pattern app.
  refine (proj1 (proj2 (silent_beyond_pattern_length app pattern 16 2 2 _ _ _)));
    [reflexivity | | vm_compute; lia].
  apply addTrack_Inv, Inv_constructor.
Defined.

(** X17.  A recorded note is sequenced from the next step on.  After a pad
    press in beat mode, the pattern callback of any other step clears the
    manual marker; when the callback then runs for the step of the press,
    the pressed note, if its sound is loaded, is in the batch handed to the
    trigger engine, with the recorded (clamped) velocity and the common time
    [time + 0.005]. *)
Theorem recorded_note_is_sequenced (app : LaunchpadApp.t) (note_ : Z) (v now : Q)
    (pattern0 : Pattern.t) (s : nat) (t1 now1 t2 now2 : Q) :
  patternEnabled app = true →
  currentPattern app = Some pattern0 → Pattern.Inv pattern0 →
  0 < Clock.stepDuration (clock app) →
  ∃ app',
    handleBeatModePadPress note_ v now app = Some app' ∧
    let step := Clock.currentStep (clock app') in
    (is_Some (SampleManager.getSample note_ (sampleManager app')) → s ≠ step →
     let app1 := patternCallback s t1 now1 app' in
     ∃ pattern1,
       currentPattern app1 = Some pattern1 ∧
       Pattern.manuallyTriggeredNotes pattern1 = ∅ ∧
       let pattern2 := Pattern.clearTriggeredNotesIfNeeded (Z.of_nat step) pattern1 in
       let batch := scheduledNotes step (t2 + 0.005) pattern2 (sampleManager app1) in
       patternCallback step t2 now2 app1
         = foldl (λ app noteInfo,
                    triggerSound (note noteInfo) (velocity noteInfo)
                      (time noteInfo + 0) now2 app)
                 (mk true (Some pattern2) (sampleManager app1) (clock app1)
                     (triggered app1)) batch ∧
       mkNote note_ (Math_max 0.1 (Math_min 1.0 v)) (t2 + 0.005) ∈ batch).
Proof.
  intros He Hp0 HInv Hd.
  destruct (handleBeatModePadPress_spec app note_ v now pattern0 Hp0 HInv Hd)
    as (app' & pattern & Hpress & Happ' & Hman & Hlast & Hread).
  exists app'. split; [done|]. intros step Hsample Hne app1.
  assert (patternEnabled app' = true) as He' by (by rewrite Happ').
  assert (currentPattern app' = Some pattern) as Hp' by (by rewrite Happ').
  set (pattern1 := Pattern.clearTriggeredNotesIfNeeded (Z.of_nat s) pattern).
  assert (pattern1 = Pattern.set_manual ∅ (Z.of_nat s) pattern) as Hp1.
  { subst pattern1. unfold Pattern.clearTriggeredNotesIfNeeded.
    rewrite decide_True; [done|]. rewrite Hlast. fold step. lia. }
  destruct (patternCallback_frame s t1 now1 app') as (He1 & Hc1 & Hs1 & _).
  fold app1 in He1, Hc1, Hs1.
  assert (currentPattern app1 = Some pattern1) as Hcp1.
  { subst app1. unfold patternCallback. rewrite He', Hp'. simpl.
    set (app0 := mk _ _ _ _ _).
    destruct (dispatch_batch_frame now1
                (scheduledNotes s (t1 + 0.005) pattern1 (sampleManager app0)) app0)
      as (_ & Hcp & _).
    cbv zeta in Hcp. fold pattern1. subst app0. simpl in Hcp. exact Hcp. }
  exists pattern1. split; [done|]. split; [by rewrite Hp1|].
  intros pattern2 batch. split.
  - unfold patternCallback. rewrite He1, He', Hcp1. done.
  - apply elem_of_scheduledNotes. simpl.
    assert (Pattern.tracks pattern2 = Pattern.tracks pattern ∧
            Pattern.velocities pattern2 = Pattern.velocities pattern ∧
            Pattern.manuallyTriggeredNotes pattern2 = ∅) as (Htr & Hve & Hm2).
    { subst pattern2. unfold Pattern.clearTriggeredNotesIfNeeded.
      case_decide; rewrite Hp1; done. }
    injection Hread as Hact Hvel. unfold Pattern.getStep in Hact.
    unfold Pattern.getVelocity in Hvel. fold step in Hact, Hvel.
    destruct (Pattern.tracks pattern !! note_) as [track|] eqn:Htrack;
      [|simpl in Hact; done].
    exists track. rewrite Htr, Hve, Hm2. split; [done|]. split; [set_solver|].
    simpl in Hact. split.
    { unfold truthyZ. destruct (js_get track step) as [z|]; simpl in *; [|done].
      apply negb_true_iff, Z.eqb_neq. apply Z.ltb_lt in Hact. lia. }
    split.
    { unfold SampleManager.getSample in *. by rewrite Hs1. }
    split; [|done].
    assert (0 < Math_max 0.1 (Math_min 1.0 v)) as Hpos.
    { pose proof (clamp_bounds 0.1 1.0 v). lra. }
    destruct (Pattern.velocities pattern !! note_ ≫= λ a, js_get a step) as [x|] eqn:Hx.
    + simpl in Hvel. subst x. by rewrite orQ_pos.
    + simpl in Hvel. unfold orQ. simpl. done.
Qed.

Lemma recorded_note_is_sequenced_witness :
  ∃ app', handleBeatModePadPress 36 0.8 0 beat_mode_app = Some app' ∧
    Clock.currentStep (clock app') = 4%nat ∧
    let app1 := patternCallback 5 0.3125 0.2 app' in
    ∃ pattern1, currentPattern app1 = Some pattern1 ∧
      mkNote 36 0.8 (2.25 + 0.005)
        ∈ scheduledNotes 4 (2.25 + 0.005)
            (Pattern.clearTriggeredNotesIfNeeded 4 pattern1) (sampleManager app1).
Proof.
  destruct (recorded_note_is_sequenced beat_mode_app 36 0.8 0 snare_on_4 5
              0.3125 0.2 2.25 2.2)
    as (app' & Hpress & Hseq).
  - reflexivity.
  - reflexivity.
  - intros n track Hl. simpl in Hl. apply lookup_singleton_Some in Hl as [<- <-].
    split; [reflexivity|]. eexists. split; [apply lookup_singleton_eq | reflexivity].
  - vm_compute. reflexivity.
  - exists app'. split; [exact Hpress|].
    vm_compute in Hpress. injection Hpress as <-.
    split; [reflexivity|]. intros app1.
    destruct Hseq as (pattern1 & Hcp & _ & _ & Hin).
    + vm_compute. eexists. reflexivity.
    + vm_compute. discriminate.
    + exists pattern1. split; [exact Hcp|]. exact Hin.
Defined.

End dispatcher_more.


(** ** The clock: stopped clocks, termination, tempo changes *)

Section clock_more.
Import Clock.
Implicit Types (c : Clock.t) (now : Q).

Lemma steps_of_Tick l step : steps_of (l ++ [Tick step]) = steps_of l.
Proof. rewrite steps_of_app. simpl. by rewrite app_nil_r. Qed.

Lemma clamped_duration_pos b : 0 < calculateStepDuration (Math_max 40 (Math_min 240 b)).
Proof. apply calculateStepDuration_pos. pose proof (clamp_bounds 40 240 b). lra. Qed.

Lemma stopped_op o c :
  isPlaying c = false → 0 < stepDuration c → ¬ is_start o →
  ∃ c', run_op o c = Some c' ∧ isPlaying c' = false ∧ 0 < stepDuration c' ∧
    steps_of (log c') = steps_of (log c).
Proof.
  intros Hp Hd Ho. destruct o as [now| |b now|id now]; simpl.
  - by destruct Ho.
  - eexists. by repeat split.
  - unfold setBPM. simpl. rewrite Hp. simpl. eexists. split; [done|]. simpl.
    split; [done|]. split; [apply clamped_duration_pos | done].
  - unfold fire. destruct (timers c !! id) as [tm|]; [|by exists c].
    set (c1 := match kind tm with
               | Interval => c
               | _ => set_timers (delete id (timers c)) (nextTimerId c) c
               end).
    assert (isPlaying c1 = false ∧ stepDuration c1 = stepDuration c ∧ log c1 = log c)
      as (Hp1 & Hd1 & Hl1) by (subst c1; by destruct (kind tm)).
    clearbody c1. rewrite <- Hl1, <- Hd1 in *.
    destruct (cb tm) as [|step|step|step|].
    + destruct (scheduleAhead_spec now c1 Hd)
        as (n & c' & Hs & (_ & Hsd & Hip & _) & _ & _ & _ & _ & Hlog & _).
      exists c'. split; [done|]. rewrite Hip, Hsd, Hlog, Hp1, app_nil_r. done.
    + rewrite Hp1. by exists c1.
    + eexists. split; [done|]. simpl. by rewrite steps_of_Tick.
    + rewrite Hp1. by exists c1.
    + rewrite Hp1. by exists c1.
Qed.

(** X18.  A stopped clock is silent.  While the clock is stopped, whatever
    timers the host fires (the ones [stop()] left pending among them) and
    whatever tempo is set, every call returns, the clock stays stopped and
    the pattern callback is not called: only [start()] makes it run. *)
Theorem stopped_clock_is_silent (c : Clock.t) (ops : list clock_op) :
  isPlaying c = false → 0 < stepDuration c →
  Forall (λ o, ¬ is_start o) ops →
  ∃ c', run_ops ops c = Some c' ∧ isPlaying c' = false ∧
    steps_of (log c') = steps_of (log c).
Proof.
  revert c. induction ops as [|o ops IH]; intros c Hp Hd Hops.
  - by exists c.
  - inversion Hops as [|? ? Ho Hops']; subst.
    destruct (stopped_op o c Hp Hd Ho) as (c1 & Hr & Hp1 & Hd1 & Hl1).
    destruct (IH c1 Hp1 Hd1 Hops') as (c' & Hr' & Hp' & Hl').
    exists c'. simpl. rewrite Hr. simpl. split; [done|]. split; [done | congruence].
Qed.

Lemma stopped_clock_is_silent_witness :
  ∃ c1 c', start 0 (constructor 120) = Some c1 ∧
    run_ops [OpFire 4 0.16; OpSetBPM 200 0.2; OpFire 1 0.3; OpStop; OpFire 6 0.4]
      (stop c1) = Some c' ∧
    isPlaying c' = false ∧ steps_of (log c') = steps_of (log c1).
Proof.
  eexists _. 
  match goal with |- ∃ c', ?s = Some ?c1 ∧ _ =>
    let v := eval vm_compute in s in
    match v with Some ?x => unify c1 x end
  end.
  destruct (stopped_clock_is_silent
              (stop (default (constructor 120) (start 0 (constructor 120))))
              [OpFire 4 0.16; OpSetBPM 200 0.2; OpFire 1 0.3; OpStop; OpFire 6 0.4])
    as (c' & Hr & Hp & Hl).
  - reflexivity.
  - vm_compute. reflexivity.
  - repeat constructor; by intros [].
  - exists c'. split; [vm_compute; reflexivity|]. split; [exact Hr|]. split; [exact Hp|].
    exact Hl.
Defined.

Lemma app_tempo_pos c : app_tempo c → 0 < stepDuration c.
Proof.
  intros [Hb Hc]. rewrite Hc. apply calculateStepDuration_pos. lra.
Qed.

Lemma app_tempo_op o c :
  app_tempo c → ∃ c', run_op o c = Some c' ∧ app_tempo c'.
Proof.
  intros Hc. pose proof (app_tempo_pos c Hc) as Hd. destruct Hc as [Hb Hc].
  destruct o as [now| |b now|id now]; simpl.
  - unfold start. destruct (isPlaying c); [by exists c|].
    destruct (scheduleAhead_spec now (set_position true 0 now c) Hd)
      as (n & c' & Hs & (Hbpm & Hsd & _) & _).
    exists c'. split; [done|]. split; rewrite ?Hsd, Hbpm; done.
  - by eexists.
  - assert (app_tempo (set_tempo (Math_max 40 (Math_min 240 b))
                         (calculateStepDuration (Math_max 40 (Math_min 240 b))) c))
      as Hc1.
    { split; [|done]. simpl. apply clamp_bounds. lra. }
    unfold setBPM. simpl. destruct (_ && _); [|by eexists].
    set (c1 := clearScheduledEvents _).
    destruct (scheduleAhead_spec now c1) as (n & c' & Hs & (Hbpm & Hsd & _) & _);
      [apply clamped_duration_pos|].
    exists c'. split; [done|]. destruct Hc1 as [Hb1 Hc1].
    split; rewrite ?Hsd, Hbpm; done.
  - unfold fire. destruct (timers c !! id) as [tm|]; [|by exists c].
    set (c1 := match kind tm with
               | Interval => c
               | _ => set_timers (delete id (timers c)) (nextTimerId c) c
               end).
    assert (stepDuration c1 = stepDuration c ∧ bpm c1 = bpm c)
      as (Hd1 & Hb1) by (subst c1; by destruct (kind tm)).
    clearbody c1. rewrite <- Hd1, <- Hb1 in *.
    destruct (cb tm) as [|step|step|step|].
    + destruct (scheduleAhead_spec now c1 Hd) as (n & c' & Hs & (Hbpm & Hsd & _) & _).
      exists c'. split; [done|]. split; rewrite ?Hsd, Hbpm; done.
    + eexists. split; [done|]. by destruct (isPlaying c1).
    + by eexists.
    + eexists. split; [done|]. by destruct (isPlaying c1).
    + eexists. split; [done|]. destruct (isPlaying c1); [|done].
      unfold recalibrate. by case_decide.
Qed.

(** X19.  The clock never hangs.  On a clock constructed with a tempo
    between 40 and 240 BPM (the app's is 120), every sequence of [start],
    [stop], [setBPM] and timer firings at audio times below 2^20 s returns:
    the tempo stays between 40 and 240 BPM and the step duration stays
    [1 / (bpm / 60 * 8)] of it, at least 1/32 s, so every turn of the loop
    of a scheduling pass moves [nextStepTime] on and the loop ends. *)
Theorem clock_never_hangs (b : Q) (ops : list clock_op) :
  40 <= b <= 240 → Forall timed_op ops →
  ∃ c', run_ops ops (constructor b) = Some c' ∧
    40 <= bpm c' <= 240 ∧
    stepDuration c' = calculateStepDuration (bpm c') ∧
    0.03125 <= stepDuration c'.
Proof.
  intros Hb _.
  assert (∀ c, app_tempo c → ∃ c', run_ops ops c = Some c' ∧ app_tempo c') as Hrun.
  { induction ops as [|o ops IH]; intros c Hc; [by exists c|].
    destruct (app_tempo_op o c Hc) as (c1 & Hr & Hc1).
    destruct (IH c1 Hc1) as (c' & Hr' & H').
    exists c'. simpl. rewrite Hr. done. }
  destruct (Hrun (constructor b)) as (c' & Hr & Hb' & Hc'); [by split|].
  exists c'. split; [done|]. split; [done|]. split; [done|].
  rewrite Hc'. unfold calculateStepDuration, STEPS_PER_QUARTER.
  assert (bpm c' / 60 * 8 == bpm c' * (2 # 15)) as -> by field.
  apply Qle_shift_div_l; lra.
Qed.

Lemma clock_never_hangs_witness :
  ∃ c', run_ops [OpStart 0; OpSetBPM 90 0.1; OpFire 4 0.16; OpStop; OpStart 1]
          (constructor 120) = Some c' ∧
    0.03125 <= stepDuration c'.
Proof.
  destruct (clock_never_hangs 120
              [OpStart 0; OpSetBPM 90 0.1; OpFire 4 0.16; OpStop; OpStart 1])
    as (c' & Hr & _ & _ & Hd).
  - lra.
  - repeat constructor; unfold audio_time; simpl; lra.
  - exists c'. split; [exact Hr | exact Hd].
Defined.

(** X20.  A tempo change while the clock runs moves no step that was
    scheduled and does not re-anchor the next one: the pending step keeps
    its time [nextStepTime], and the steps after it are spaced by the new
    step duration.  A change of more than 5 BPM runs a scheduling pass at
    once, which emits, at the new spacing, the steps due before
    [now + 0.2]; a smaller change emits nothing and leaves the timers as
    they are. *)
Theorem tempo_change_while_playing (c : Clock.t) (b now : Q) :
  isPlaying c = true →
  let b' := Math_max 40 (Math_min 240 b) in
  let d' := calculateStepDuration b' in
  ∃ n c',
    setBPM b now c = Some c' ∧ bpm c' = b' ∧ stepDuration c' = d' ∧
    log c' = log c ++ expected n (currentStep c) (nextStepTime c) d' ∧
    nextStepTime c' = advance_time n (nextStepTime c) d' ∧
    (Qabs (bpm c - b') <= 5 → n = 0%nat ∧ timers c' = timers c) ∧
    (5 < Qabs (bpm c - b') →
       (∀ k, (k < n)%nat → advance_time k (nextStepTime c) d' < now + 0.2) ∧
       now + 0.2 <= advance_time n (nextStepTime c) d').
Proof.
  intros Hp b' d'. unfold setBPM. simpl. rewrite Hp. simpl. fold b'. fold d'.
  case_bool_decide as Hbig.
  - set (c1 := clearScheduledEvents _).
    destruct (scheduleAhead_spec now c1)
      as (n & c' & Hs & (Hbpm & Hsd & _) & _ & Hnt & Hbefore & Hafter & Hlog & _);
      [apply clamped_duration_pos|].
    exists n, c'. split; [done|]. split; [done|]. split; [done|].
    split; [by rewrite Hlog; simpl; rewrite Hp|]. split; [done|].
    split; [intros Hsmall; lra | done].
  - exists 0%nat. eexists. split; [done|]. split; [done|]. split; [done|].
    split; [by simpl; rewrite app_nil_r|]. split; [done|].
    split; [done | intros Hgt; done].
Qed.

Lemma tempo_change_while_playing_witness :
  ∃ c1 n c', start 0 (constructor 120) = Some c1 ∧
    setBPM 60 0.1 c1 = Some c' ∧ stepDuration c' = calculateStepDuration 60 ∧
    log c' = log c1 ++ expected n (currentStep c1) (nextStepTime c1)
                         (calculateStepDuration 60).
Proof.
  eexists _.
  match goal with |- ∃ n c', ?s = Some ?c1 ∧ _ =>
    let v := eval vm_compute in s in
    match v with Some ?x => unify c1 x end
  end.
  destruct (tempo_change_while_playing
              (default (constructor 120) (start 0 (constructor 120))) 60 0.1)
    as (n & c' & Hs & _ & Hd & Hlog & _); [reflexivity|].
  exists n, c'. split; [vm_compute; reflexivity|]. split; [exact Hs|].
  split; [exact Hd | exact Hlog].
Defined.

Lemma handles_below_register f k delay c :
  handles_below c →
  handles_below (register f k delay c).2 ∧
  timers (register f k delay c).2 !! nextTimerId c = Some (mkTimer f k delay) ∧
  (nextTimerId c < nextTimerId (register f k delay c).2)%nat ∧
  ∀ id, (id < nextTimerId c)%nat →
    timers (register f k delay c).2 !! id = timers c !! id.
Proof.
  intros Hc. simpl. split; [|split; [by rewrite lookup_insert_eq|split; [lia|]]].
  - intros id [tm Hl]. simpl in *.
    destruct (decide (nextTimerId c = id)) as [<-|Hne]; [lia|].
    rewrite lookup_insert_ne in Hl by done. specialize (Hc id). 
    assert (id < nextTimerId c)%nat by (apply Hc; by eexists). lia.
  - intros id Hid. rewrite lookup_insert_ne by lia. done.
Qed.

Lemma keeps_timers_refl c : handles_below c → keeps_timers c c.
Proof. intros Hc. split; [done|]. split; [lia | done]. Qed.

Lemma keeps_timers_trans c1 c2 c3 :
  keeps_timers c1 c2 → keeps_timers c2 c3 → keeps_timers c1 c3.
Proof.
  intros (_ & Hle & Hk) (Hb & Hle' & Hk'). split; [done|]. split; [lia|].
  intros id Hid. rewrite Hk' by lia. by apply Hk.
Qed.

Lemma keeps_timers_register f k delay c :
  handles_below c → keeps_timers c (register f k delay c).2.
Proof.
  intros Hc. destruct (handles_below_register f k delay c Hc) as (Hb & _ & Hlt & Hk).
  split; [done|]. split; [lia | done].
Qed.

Lemma keeps_timers_scheduleStep step time now c :
  handles_below c → keeps_timers c (scheduleStep step time now c).
Proof.
  intros Hc. unfold scheduleStep. destruct (isPlaying c); simpl;
    [|by apply keeps_timers_refl].
  case_decide.
  - apply (keeps_timers_register (CbTickTimeout step) Timeout
             (Math_max 0 (Math_max 0 ((time - now) * 1000) - 15))
             (emit (StepEvent step time) c) Hc).
  - apply (keeps_timers_register (CbGuardedTickFrame step) Frame 0
             (emit (StepEvent step time) c) Hc).
Qed.

Lemma keeps_timers_loop fuel now endTime : ∀ c c',
  scheduleAhead_loop fuel now endTime c = Some c' → handles_below c → keeps_timers c c'.
Proof.
  induction fuel as [|fuel IH]; intros c c'; simpl.
  - case_decide; [done|]. intros [= <-]. apply keeps_timers_refl.
  - case_decide; [|intros [= <-]; apply keeps_timers_refl].
    intros Hl Hc.
    pose proof (keeps_timers_scheduleStep (currentStep c) (nextStepTime c) now c Hc)
      as Hk.
    eapply keeps_timers_trans; [exact Hk|]. apply (IH _ _ Hl). by destruct Hk.
Qed.

Lemma keeps_timers_scheduleAhead now c c' :
  scheduleAhead now c = Some c' → handles_below c →
  keeps_timers c c' ∧
  (isPlaying c' = true →
   ∃ id' tm', (nextTimerId c ≤ id')%nat ∧ timers c' !! id' = Some tm' ∧
     cb tm' = CbScheduleAhead ∧ scheduleTimeout c' = Some id').
Proof.
  unfold scheduleAhead.
  destruct (scheduleAhead_loop _ _ _ _) as [c1|] eqn:Hloop; [|done].
  simpl. intros Hs Hc. pose proof (keeps_timers_loop _ _ _ _ _ Hloop Hc) as Hk.
  destruct (isPlaying c1) eqn:Hp1; injection Hs as <-.
  - destruct Hk as (Hb1 & Hle & Hk1).
    destruct (handles_below_register CbScheduleAhead Timeout
                ((now + 0.2 - now) * 0.8 * 1000) c1 Hb1) as (Hb & Hnew & Hlt & Hold).
    split.
    + split; [exact Hb|]. split; [simpl in *; lia|].
      intros id Hid. simpl. rewrite <- Hk1 by done.
      rewrite lookup_insert_ne by lia. done.
    + intros _. exists (nextTimerId c1), (mkTimer CbScheduleAhead Timeout
                ((now + 0.2 - now) * 0.8 * 1000)).
      split; [done|]. split; [exact Hnew | done].
  - split; [done|]. intros Hp. simpl in Hp. congruence.
Qed.

Lemma handles_below_op o c c' :
  run_op o c = Some c' → handles_below c → handles_below c'.
Proof.
  destruct o as [now| |b now|id now]; simpl.
  - unfold start. destruct (isPlaying c); [by intros [= <-]|].
    intros Hs Hc. by destruct (keeps_timers_scheduleAhead _ _ _ Hs Hc) as ((? & _) & _).
  - by intros [= <-].
  - unfold setBPM. simpl. destruct (_ && _); [|by intros [= <-]].
    intros Hs Hc. by destruct (keeps_timers_scheduleAhead _ _ _ Hs Hc) as ((? & _) & _).
  - unfold fire. destruct (timers c !! id) as [tm|]; [|by intros [= <-]].
    intros Hf Hc.
    set (c1 := match kind tm with
               | Interval => c
               | _ => set_timers (delete id (timers c)) (nextTimerId c) c
               end) in *.
    assert (handles_below c1) as Hc1.
    { assert (handles_below (set_timers (delete id (timers c)) (nextTimerId c) c)).
      { intros id' [tm' Hl]. simpl in *. apply lookup_delete_Some in Hl as [_ Hl].
        apply Hc. by eexists. }
      subst c1. by destruct (kind tm). }
    clearbody c1. destruct (cb tm) as [|step|step|step|].
    + by destruct (keeps_timers_scheduleAhead _ _ _ Hf Hc1) as ((? & _) & _).
    + injection Hf as <-. destruct (isPlaying c1); [|done].
      by destruct (handles_below_register (CbTickFrame step) Frame 0 c1 Hc1).
    + by injection Hf as <-.
    + injection Hf as <-. by destruct (isPlaying c1).
    + injection Hf as <-. destruct (isPlaying c1); [|done].
      unfold recalibrate. by case_decide.
Qed.

Lemma handles_below_ops ops : ∀ c c',
  run_ops ops c = Some c' → handles_below c → handles_below c'.
Proof.
  induction ops as [|o ops IH]; intros c c'; simpl; [by intros [= <-]|].
  destruct (run_op o c) as [c1|] eqn:Ho; [|done]. simpl.
  intros Hr Hc. apply (IH _ _ Hr). by apply (handles_below_op o c).
Qed.

Lemma tempo_is_clamped_run b now c :
  isPlaying c = true → ∃ c', setBPM b now c = Some c' ∧ isPlaying c' = true.
Proof.
  intros Hp. unfold setBPM. simpl. destruct (_ && _); [|by eexists].
  set (c1 := clearScheduledEvents _).
  destruct (scheduleAhead_spec now c1) as (n & c' & Hs & (_ & _ & Hip & _) & _);
    [apply clamped_duration_pos|].
  exists c'. split; [done|]. by rewrite Hip.
Qed.

(** X21.  A tempo change cancels no timer.  On a clock that was constructed
    and then used in any way, a [setBPM] of more than 5 BPM while playing
    runs a pass and arms a new rescheduling timeout, which becomes
    [scheduleTimeout]; every timer that was pending, the previous
    rescheduling timeout among them, is still pending afterwards. *)
Theorem tempo_change_cancels_no_timer (b0 : Q) (ops : list clock_op) (c : Clock.t)
    (b now : Q) (id : nat) (tm : timer) :
  run_ops ops (constructor b0) = Some c →
  isPlaying c = true → timers c !! id = Some tm →
  5 < Qabs (bpm c - Math_max 40 (Math_min 240 b)) →
  ∃ c' id' tm',
    setBPM b now c = Some c' ∧
    timers c' !! id = Some tm ∧
    id' ≠ id ∧ timers c' !! id' = Some tm' ∧ cb tm' = CbScheduleAhead ∧
    scheduleTimeout c' = Some id'.
Proof.
  intros Hrun Hp Hid Hbig.
  assert (handles_below c) as Hc.
  { apply (handles_below_ops _ _ _ Hrun). intros id0 [tm0 Hl]. simpl in Hl.
    by rewrite lookup_empty in Hl. }
  assert (id < nextTimerId c)%nat as Hlt by (apply Hc; by eexists).
  destruct (tempo_is_clamped_run b now c) as (c' & Hs & Hp').
  { done. }
  exists c'. revert Hs. unfold setBPM. simpl. rewrite Hp. simpl.
  rewrite bool_decide_true by done. intros Hs.
  destruct (keeps_timers_scheduleAhead _ _ _ Hs) as ((_ & _ & Hk) & Hnew); [done|].
  destruct (Hnew Hp') as (id' & tm' & Hle & Hl' & Hcb & Hst). simpl in *.
  exists id', tm'. split; [done|]. split; [by rewrite Hk|].
  split; [lia | done].
Qed.

Lemma tempo_change_cancels_no_timer_witness :
  ∃ c c' id', run_ops [OpStart 0] (constructor 120) = Some c ∧
    timers c !! 4%nat = Some (mkTimer CbScheduleAhead Timeout 160.00) ∧
    setBPM 200 0.1 c = Some c' ∧
    timers c' !! 4%nat = Some (mkTimer CbScheduleAhead Timeout 160.00) ∧
    id' ≠ 4%nat ∧ scheduleTimeout c' = Some id'.
Proof.
  eexists _.
  match goal with |- ∃ c' id', ?s = Some ?c ∧ _ =>
    let v := eval vm_compute in s in
    match v with Some ?x => unify c x end
  end.
  destruct (tempo_change_cancels_no_timer 120 [OpStart 0]
              (default (constructor 120) (run_ops [OpStart 0] (constructor 120)))
              200 0.1 4 (mkTimer CbScheduleAhead Timeout 160.00))
    as (c' & id' & tm' & Hs & Hold & Hne & _ & _ & Hst).
  - vm_compute. reflexivity.
  - reflexivity.
  - vm_compute. reflexivity.
  - vm_compute. reflexivity.
  - exists c', id'. split; [vm_compute; reflexivity|].
    split; [vm_compute; reflexivity|]. split; [exact Hs|]. split; [exact Hold|].
    split; [exact Hne | exact Hst].
Defined.

End clock_more.


(** ** The LED matrix: notes and positions *)

Section matrix_state.
Import MatrixState.
Implicit Types (m : MatrixState.t) (x y : Z).

Lemma small_cases (x : Z) :
  (0 ≤ x ≤ 8)%Z →
  x = 0%Z ∨ x = 1%Z ∨ x = 2%Z ∨ x = 3%Z ∨ x = 4%Z ∨ x = 5%Z ∨ x = 6%Z ∨ x = 7%Z ∨ x = 8%Z.
Proof. lia. Qed.

(** X22.  Positions and notes.  For the 80 positions of the matrix (the
    8 x 8 pads, the top row [y = 8] and the right column [x = 8]) [toNote]
    gives a note and [fromNote] takes it back to the position, with one
    exception: the pad [(0, 6)] has note 96, which is also
    [MIDI.RIGHT.SOLO], the note of the side button [(8, 6)], and [fromNote]
    reads 96 as the side button. *)
Theorem note_position_round_trip (x y : Z) :
  (0 ≤ x ≤ 8)%Z → (0 ≤ y ≤ 8)%Z → (x, y) ≠ (8, 8)%Z →
  ∃ note, toNote x y = Some note ∧
    ((x, y) ≠ (0, 6)%Z → fromNote note = (x, y)) ∧
    ((x, y) = (0, 6)%Z →
       note = 96%Z ∧ toNote 8 6 = Some note ∧ fromNote note = (8, 6)%Z).
Proof.
  intros Hx Hy Hne.
  destruct (small_cases x Hx) as [->|[->|[->|[->|[->|[->|[->|[->| ->]]]]]]]];
  destruct (small_cases y Hy) as [->|[->|[->|[->|[->|[->|[->|[->| ->]]]]]]]];
    try done;
    (eexists; split; [reflexivity|]; split;
     [first [intros _; reflexivity | intros H; by destruct H]
     | first [by intros [=] | intros _; by repeat split]]).
Qed.

Lemma note_position_round_trip_witness :
  toNote 3 2 = Some 35%Z ∧ fromNote 35 = (3, 2)%Z.
Proof.
  destruct (note_position_round_trip 3 2) as (note & Hto & Hfrom & _);
    [lia | lia | discriminate |].
  assert (note = 35%Z) as -> by (vm_compute in Hto; congruence).
  split; [exact Hto | apply Hfrom; discriminate].
Defined.

Lemma at_Z_index (arr : list Z) x y :
  (0 ≤ x ≤ 8)%Z → (0 ≤ y ≤ 8)%Z →
  at_Z arr (y * 9 + x) = arr !! Z.to_nat (y * 9 + x).
Proof. intros Hx Hy. unfold at_Z. rewrite decide_False by lia. done. Qed.

Lemma in_range x y : (0 ≤ x ≤ 8)%Z → (0 ≤ y ≤ 8)%Z → out_of_range x y = false.
Proof.
  intros Hx Hy. unfold out_of_range.
  rewrite !bool_decide_false by lia. done.
Qed.

Lemma out_of_range_false x y :
  out_of_range x y = false → (0 ≤ x ≤ 8)%Z ∧ (0 ≤ y ≤ 8)%Z.
Proof.
  unfold out_of_range. rewrite !orb_false_iff. intros [[[H1 H2] H3] H4].
  apply bool_decide_eq_false in H1, H2, H3, H4. lia.
Qed.

(** [setColor] in range, in closed form. *)
Lemma setColor_in_range (m : MatrixState.t) (x y color : Z) :
  Inv m → (0 ≤ x ≤ 8)%Z → (0 ≤ y ≤ 8)%Z →
  setColor x y color m =
    mk (<[Z.to_nat (y * 9 + x) := (color mod 256)%Z]> (matrix m))
       (dirty m || negb (bool_decide (matrix m !! Z.to_nat (y * 9 + x) = Some color))).
Proof.
  intros [Hlen Hbytes] Hx Hy.
  assert (Z.to_nat (y * 9 + x) < length (matrix m))%nat as Hidx by lia.
  destruct (lookup_lt_is_Some_2 _ _ Hidx) as [current Hcur].
  assert (0 ≤ current < 256)%Z as Hbyte.
  { rewrite Forall_lookup in Hbytes. by eapply Hbytes. }
  unfold setColor. rewrite (in_range x y Hx Hy). cbv zeta.
  rewrite (at_Z_index _ x y Hx Hy), Hcur.
  destruct (decide (Some current ≠ Some color)) as [Hne|Heq].
  - unfold Uint8_set. rewrite decide_False by lia.
    rewrite bool_decide_false by done. simpl. by rewrite orb_true_r.
  - assert (current = color) as ->.
    { destruct (decide (current = color)) as [|Hn]; [done|].
      exfalso. apply Heq. congruence. }
    rewrite bool_decide_true by done. simpl. rewrite orb_false_r.
    rewrite Z.mod_small by lia. rewrite list_insert_id by done. by destruct m.
Qed.

Lemma getColor_setColor (m : MatrixState.t) (x y color : Z) :
  Inv m → out_of_range x y = false →
  getColor x y (setColor x y color m) = Some (color mod 256)%Z ∧
  ∀ x' y', out_of_range x' y' = false → (x', y') ≠ (x, y) →
    getColor x' y' (setColor x y color m) = getColor x' y' m.
Proof.
  intros HInv Hr. destruct (out_of_range_false x y Hr) as [Hx Hy].
  rewrite (setColor_in_range m x y color HInv Hx Hy). destruct HInv as [Hlen _].
  unfold getColor. rewrite Hr. simpl. split.
  - rewrite (at_Z_index _ x y Hx Hy). apply list_lookup_insert_eq. lia.
  - intros x' y' Hr' Hne. rewrite Hr'.
    destruct (out_of_range_false x' y' Hr') as [Hx' Hy'].
    rewrite !(at_Z_index _ x' y' Hx' Hy'). apply list_lookup_insert_ne.
    intros Heq. apply Hne. f_equal; lia.
Qed.

(** X23.  Lighting a cell.  On a matrix as the constructor makes it, a
    [setColor] inside the 9 x 9 range is read back by [getColor] as the
    colour's low eight bits, changes no other cell, and keeps the matrix 81
    bytes long; outside the range it does nothing and [getColor] answers 0.
    The matrix is marked dirty exactly when the colour differs from the
    cell. *)
Theorem setColor_getColor (m : MatrixState.t) (x y color : Z) :
  Inv m →
  Inv (setColor x y color m) ∧
  (out_of_range x y = true →
     setColor x y color m = m ∧ getColor x y m = Some 0%Z) ∧
  (out_of_range x y = false →
     getColor x y (setColor x y color m) = Some (color mod 256)%Z ∧
     (∀ x' y', out_of_range x' y' = false → (x', y') ≠ (x, y) →
        getColor x' y' (setColor x y color m) = getColor x' y' m) ∧
     dirty (setColor x y color m)
       = dirty m || negb (bool_decide (getColor x y m = Some color))).
Proof.
  intros HInv. destruct (out_of_range x y) eqn:Hr.
  { unfold setColor, getColor. rewrite Hr. destruct HInv. by repeat split. }
  destruct (out_of_range_false x y Hr) as [Hx Hy].
  split; [|split; [done|intros _]].
  - rewrite (setColor_in_range m x y color HInv Hx Hy).
    destruct HInv as [Hlen Hbytes]. split; simpl; [by rewrite length_insert|].
    apply Forall_insert; [done|]. apply Z.mod_pos_bound. lia.
  - destruct (getColor_setColor m x y color HInv Hr) as [Hget Hother].
    split; [done|]. split; [done|].
    rewrite (setColor_in_range m x y color HInv Hx Hy). simpl.
    unfold getColor. rewrite Hr. by rewrite (at_Z_index _ x y Hx Hy).
Qed.

Lemma setColor_getColor_witness :
  getColor 3 2 (setColor 3 2 300 constructor) = Some 44%Z ∧
  getColor 9 2 (setColor 9 2 300 constructor) = Some 0%Z.
Proof.
  assert (Inv constructor) as HInv.
  { split; [reflexivity|]. apply Forall_replicate. lia. }
  destruct (setColor_getColor constructor 3 2 300 HInv) as (_ & _ & Hin).
  destruct (setColor_getColor constructor 9 2 300 HInv) as (_ & Hout & _).
  split.
  - by destruct (Hin eq_refl) as (-> & _).
  - by destruct (Hout eq_refl) as (-> & ->).
Defined.

(** X24.  Lighting by note.  [setColorByNote] with the note of a position
    lights that position, and [getColorByNote] reads it back, for every
    position but the pad [(0, 6)]: its note, 96, lights the side button
    [(8, 6)] and leaves the pad's cell as it was. *)
Theorem setColorByNote_lights_position (m : MatrixState.t) (x y note color : Z) :
  Inv m → (0 ≤ x ≤ 8)%Z → (0 ≤ y ≤ 8)%Z → toNote x y = Some note →
  let m' := setColorByNote note color m in
  ((x, y) ≠ (0, 6)%Z →
     getColor x y m' = Some (color mod 256)%Z ∧
     getColorByNote note m' = Some (color mod 256)%Z) ∧
  ((x, y) = (0, 6)%Z →
     getColor x y m' = getColor x y m ∧
     getColor 8 6 m' = Some (color mod 256)%Z).
Proof.
  intros HInv Hx Hy Hto m'.
  assert (∀ x0 y0, fromNote note = (x0, y0) → out_of_range x0 y0 = false →
            getColor x0 y0 m' = Some (color mod 256)%Z ∧
            getColorByNote note m' = Some (color mod 256)%Z ∧
            ∀ x' y', out_of_range x' y' = false → (x', y') ≠ (x0, y0) →
              getColor x' y' m' = getColor x' y' m) as Hset.
  { intros x0 y0 Hfrom Hr. subst m'. unfold setColorByNote, getColorByNote.
    rewrite Hfrom.
    destruct (getColor_setColor m x0 y0 color HInv Hr) as (Hget & Hother). done. }
  destruct (small_cases x Hx) as [->|[->|[->|[->|[->|[->|[->|[->| ->]]]]]]]];
  destruct (small_cases y Hy) as [->|[->|[->|[->|[->|[->|[->|[->| ->]]]]]]]];
    try done; injection Hto as <-;
    (split; [first [intros H; by destruct H
                   | intros _; destruct (Hset _ _ eq_refl eq_refl) as (? & ? & _); done]
            | first [by intros [=]
                   | intros _; destruct (Hset _ _ eq_refl eq_refl) as (? & _ & Hother);
                     split; [by apply Hother | done]]]).
Qed.

Lemma setColorByNote_lights_position_witness :
  getColor 3 2 (setColorByNote 35 60 constructor) = Some 60%Z ∧
  getColorByNote 35 (setColorByNote 35 60 constructor) = Some 60%Z.
Proof.
  assert (Inv constructor) as HInv.
  { split; [reflexivity|]. apply Forall_replicate. lia. }
  destruct (setColorByNote_lights_position constructor 3 2 35 60 HInv)
    as [Hpad _]; [lia | lia | reflexivity |].
  apply Hpad. discriminate.
Defined.

End matrix_state.


(** ** The sequencer of version 3.7: steps, resolution, save and load *)

Section sequencer.
Import Sequencer.
Implicit Types (s : Sequencer.t) (note : Z).

Lemma setStep_eq s pattern note step velocity :
  patterns s !! currentPattern s = Some pattern →
  setStep note step velocity s =
    let steps := default (replicate (resolution s) 0%Z) (pattern !! note) in
    let steps :=
      if decide (0 ≤ step ∧ step < Z.of_nat (resolution s))%Z
      then Uint8_store steps (Z.to_nat step) velocity else steps in
    set_store (resolution s) (currentStep s)
      (<[currentPattern s := <[note := steps]> pattern]> (patterns s))
      (currentPattern s) s.
Proof.
  intros Hp. unfold setStep. rewrite Hp.
  destruct (pattern !! note) as [steps|] eqn:Hn; simpl.
  - rewrite Hn. done.
  - rewrite lookup_insert_eq. by rewrite insert_insert_eq.
Qed.

(** X25.  [setStep] is guarded.  Every track of the current pattern keeps
    exactly [resolution] byte cells whatever step and velocity are given: a
    step inside [0, resolution) stores the velocity's low eight bits in
    that one cell, a step outside it stores nothing, and no array grows.
    A note without a track gets an all-zero track first, in both cases;
    the other notes' tracks are untouched. *)
Theorem setStep_guard (s : Sequencer.t) (note step velocity : Z) :
  is_Some (getCurrentPattern s) → Inv s →
  let s' := setStep note step velocity s in
  Inv s' ∧ resolution s' = resolution s ∧
  ((0 ≤ step < Z.of_nat (resolution s))%Z →
     cell note (Z.to_nat step) s' = Some (velocity mod 256)%Z) ∧
  (∀ i, ((0 ≤ step < Z.of_nat (resolution s))%Z → i ≠ Z.to_nat step) →
     cell note i s' =
       match getCurrentPattern s ≫= (.!! note) with
       | Some steps => steps !! i
       | None => if decide (i < resolution s)%nat then Some 0%Z else None
       end) ∧
  (∀ note' i, note' ≠ note → cell note' i s' = cell note' i s).
Proof.
  intros [pattern Hp] HInv s'. unfold getCurrentPattern in *.
  subst s'. rewrite (setStep_eq s pattern note step velocity Hp). cbv zeta.
  set (steps0 := default (replicate (resolution s) 0%Z) (pattern !! note)).
  assert (length steps0 = resolution s ∧ Forall (λ v, 0 ≤ v < 256)%Z steps0)
    as [Hlen0 Hbytes0].
  { subst steps0. destruct (pattern !! note) as [steps|] eqn:Hn; simpl.
    - by apply (HInv pattern note).
    - split; [apply length_replicate|]. apply Forall_replicate. lia. }
  set (steps1 := if decide (0 ≤ step ∧ step < Z.of_nat (resolution s))%Z
                 then Uint8_store steps0 (Z.to_nat step) velocity else steps0).
  assert (length steps1 = resolution s ∧ Forall (λ v, 0 ≤ v < 256)%Z steps1)
    as [Hlen1 Hbytes1].
  { subst steps1. case_decide; [|done]. unfold Uint8_store.
    split; [by rewrite length_insert|].
    apply Forall_insert; [done|]. apply Z.mod_pos_bound. lia. }
  split; [|split; [done|split; [|split]]].
  - intros pattern' note' steps'. simpl. rewrite lookup_insert_eq.
    intros [= <-]. destruct (decide (note' = note)) as [->|Hne].
    + rewrite lookup_insert_eq. by intros [= <-].
    + rewrite lookup_insert_ne by done. by apply HInv.
  - intros Hin. unfold cell. simpl. rewrite lookup_insert_eq. simpl.
    rewrite lookup_insert_eq. simpl. subst steps1.
    rewrite decide_True by lia. unfold Uint8_store.
    apply list_lookup_insert_eq. lia.
  - intros i Hi. unfold cell. simpl. rewrite lookup_insert_eq. simpl.
    rewrite lookup_insert_eq. simpl. rewrite Hp. simpl.
    assert (steps1 !! i = steps0 !! i) as ->.
    { subst steps1. case_decide as Hin; [|done]. unfold Uint8_store.
      apply list_lookup_insert_ne. intros Heq. by apply (Hi Hin). }
    subst steps0. destruct (pattern !! note) as [steps|]; simpl; [done|].
    case_decide.
    + by apply lookup_replicate_2.
    + apply lookup_ge_None_2. rewrite length_replicate. lia.
  - intros note' i Hne. unfold cell. simpl. rewrite lookup_insert_eq, Hp. simpl.
    by rewrite lookup_insert_ne.
Qed.

Lemma setStep_spec_Inv s note step velocity :
  is_Some (getCurrentPattern s) → Inv s →
  Inv (setStep note step velocity s) ∧ is_Some (getCurrentPattern (setStep note step velocity s)).
Proof.
  intros [pattern Hp] HInv. unfold getCurrentPattern in *.
  rewrite (setStep_eq s pattern note step velocity Hp). cbv zeta. split.
  - intros pattern' note' steps'. simpl. rewrite lookup_insert_eq. intros [= <-].
    destruct (decide (note' = note)) as [->|Hne].
    + rewrite lookup_insert_eq. intros [= <-].
      assert (length (default (replicate (resolution s) 0%Z) (pattern !! note))
                = resolution s ∧
              Forall (λ v, 0 ≤ v < 256)%Z
                (default (replicate (resolution s) 0%Z) (pattern !! note)))
        as [Hlen0 Hbytes0].
      { destruct (pattern !! note) as [steps|] eqn:Hn; simpl.
        - by apply (HInv pattern note).
        - split; [apply length_replicate|]. apply Forall_replicate. lia. }
      case_decide; [|done]. unfold Uint8_store.
      split; [by rewrite length_insert|].
      apply Forall_insert; [done|]. apply Z.mod_pos_bound. lia.
    + rewrite lookup_insert_ne by done. by apply HInv.
  - simpl. rewrite lookup_insert_eq. by eexists.
Qed.

Lemma Inv_constructor_seq : Sequencer.Inv constructor.
Proof.
  intros pattern note steps. simpl. rewrite lookup_insert_eq. intros [= <-].
  by rewrite lookup_empty.
Qed.

Lemma setStep_guard_witness :
  cell 36 3 (setStep 36 3 300 constructor) = Some 44%Z ∧
  cell 36 3 (setStep 36 16 127 constructor) = Some 0%Z ∧
  cell 36 16 (setStep 36 16 127 constructor) = None.
Proof.
  assert (is_Some (getCurrentPattern constructor)) as Hcur by (by eexists).
  destruct (setStep_guard constructor 36 3 300 Hcur Inv_constructor_seq)
    as (_ & _ & Hin & _).
  destruct (setStep_guard constructor 36 16 127 Hcur Inv_constructor_seq)
    as (_ & _ & _ & Hout & _).
  split; [apply Hin; simpl; lia|].
  split; [rewrite Hout by (simpl; lia); reflexivity|].
  rewrite Hout by (simpl; lia). reflexivity.
Defined.

Lemma setResolution_loop_upto steps res (old : list Z) k :
  (k ≤ steps)%nat →
  let acc :=
    foldl (λ newSteps i,
             let oldIndex := (i * res / steps)%nat in
             if decide (oldIndex < res)%nat
             then Uint8_store newSteps i (default 0%Z (old !! oldIndex))
             else newSteps)
          (replicate steps 0%Z) (seq 0 k) in
  length acc = steps ∧
  ∀ j, (j < steps)%nat →
    acc !! j = Some (if decide (j < k ∧ j * res / steps < res)%nat
                     then (default 0 (old !! (j * res / steps)%nat)) mod 256
                     else 0)%Z.
Proof.
  induction k as [|k IH]; intros Hk; cbv zeta.
  - cbn [seq foldl]. split; [apply length_replicate|]. intros j Hj.
    rewrite decide_False by lia. by apply lookup_replicate_2.
  - destruct IH as [Hlen Hget]; [lia|]. cbv zeta in Hlen, Hget.
    rewrite seq_S, foldl_app. cbn [foldl Nat.add].
    set (acc := foldl _ _ (seq 0 k)) in *.
    case_decide as Hold.
    + unfold Uint8_store. split; [by rewrite length_insert|].
      intros j Hj. destruct (decide (j = k)) as [->|Hne].
      * rewrite list_lookup_insert_eq by lia. by rewrite decide_True by lia.
      * rewrite list_lookup_insert_ne by done. rewrite Hget by done.
        repeat case_decide; (done || lia).
    + split; [done|]. intros j Hj. rewrite Hget by done.
      destruct (decide (j = k)) as [->|Hne].
      * rewrite !decide_False by lia. done.
      * repeat case_decide; (done || lia).
Qed.

Lemma length_setResolution_loop steps res old :
  length (setResolution_loop steps res old) = steps.
Proof. by apply (setResolution_loop_upto steps res old steps). Qed.

Lemma lookup_setResolution_loop steps res old j :
  (j < steps)%nat → (j * res / steps < res)%nat →
  setResolution_loop steps res old !! j
    = Some ((default 0 (old !! (j * res / steps)%nat)) mod 256)%Z.
Proof.
  intros Hj Hold. destruct (setResolution_loop_upto steps res old steps) as [_ Hget];
    [done|].
  unfold setResolution_loop. rewrite Hget by done. by rewrite decide_True.
Qed.

Lemma bytes_setResolution_loop steps res old :
  Forall (λ v, 0 ≤ v < 256)%Z (setResolution_loop steps res old).
Proof.
  apply Forall_lookup. intros j v Hl.
  assert (j < steps)%nat as Hj.
  { rewrite <- (length_setResolution_loop steps res old). by eapply lookup_lt_Some. }
  destruct (setResolution_loop_upto steps res old steps) as [_ Hget]; [done|].
  unfold setResolution_loop in Hl. rewrite Hget in Hl by done. injection Hl as <-.
  case_decide; [|lia]. apply Z.mod_pos_bound. lia.
Qed.

(** Stretching a track by a whole factor repeats every step. *)
Lemma stretch_lookup k res old j :
  (0 < k)%nat → (0 < res)%nat → length old = res →
  Forall (λ v, 0 ≤ v < 256)%Z old → (j < k * res)%nat →
  setResolution_loop (k * res) res old !! j = old !! (j / k)%nat.
Proof.
  intros Hk Hres Hlen Hbytes Hj.
  assert (j * res / (k * res) = j / k)%nat as Hdiv
    by (apply Nat.Div0.div_mul_cancel_r; lia).
  assert (j / k < res)%nat as Hlt by (apply Nat.Div0.div_lt_upper_bound; lia).
  rewrite lookup_setResolution_loop by (rewrite ?Hdiv; lia). rewrite Hdiv.
  destruct (lookup_lt_is_Some_2 old (j / k)%nat) as [v Hv]; [lia|].
  rewrite Hv. simpl. f_equal. apply Z.mod_small.
  rewrite Forall_lookup in Hbytes. by eapply Hbytes.
Qed.

(** Compressing it back keeps every [k]-th step. *)
Lemma compress_lookup k res new i :
  (0 < k)%nat → (0 < res)%nat → length new = (k * res)%nat →
  Forall (λ v, 0 ≤ v < 256)%Z new → (i < res)%nat →
  setResolution_loop res (k * res) new !! i = new !! (i * k)%nat.
Proof.
  intros Hk Hres Hlen Hbytes Hi.
  assert (i * (k * res) / res = i * k)%nat as Hdiv.
  { rewrite Nat.mul_assoc. apply Nat.div_mul. lia. }
  assert (i * k < k * res)%nat as Hlt by nia.
  rewrite lookup_setResolution_loop by (rewrite ?Hdiv; lia). rewrite Hdiv.
  destruct (lookup_lt_is_Some_2 new (i * k)%nat) as [v Hv]; [lia|].
  rewrite Hv. simpl. f_equal. apply Z.mod_small.
  rewrite Forall_lookup in Hbytes. by eapply Hbytes.
Qed.

(** X26.  Changing the resolution.  [setResolution] to [k] times the
    resolution repeats every step of the current pattern [k] times, and
    [setResolution] back to the old resolution then restores the pattern
    store exactly, and the step counter if it was inside the pattern. *)
Theorem stretch_then_compress (s : Sequencer.t) (k : nat) :
  is_Some (getCurrentPattern s) → Inv s →
  (0 < resolution s)%nat → (0 < k)%nat →
  let s1 := setResolution (k * resolution s) s in
  let s2 := setResolution (resolution s) s1 in
  Inv s1 ∧ resolution s1 = (k * resolution s)%nat ∧
  (∀ note i, (i < k * resolution s)%nat → cell note i s1 = cell note (i / k) s) ∧
  patterns s2 = patterns s ∧ resolution s2 = resolution s ∧
  currentPattern s2 = currentPattern s ∧
  ((currentStep s < resolution s)%nat → currentStep s2 = currentStep s).
Proof.
  intros [pattern Hp] HInv Hres Hk s1 s2. unfold getCurrentPattern in *.
  assert (patterns s1 = <[currentPattern s :=
            setResolution_loop (k * resolution s) (resolution s) <$> pattern]> (patterns s))
    as Hps1 by (subst s1; unfold setResolution; by rewrite Hp).
  split; [|split; [done|split; [|split; [|split; [done|split; [done|]]]]]].
  - intros pattern' note steps. simpl. rewrite Hp, lookup_insert_eq. intros [= <-].
    rewrite lookup_fmap. destruct (pattern !! note) as [old|]; [|done].
    simpl. intros [= <-]. split; [apply length_setResolution_loop|].
    apply bytes_setResolution_loop.
  - intros note i Hi. unfold cell. rewrite Hps1. simpl.
    rewrite lookup_insert_eq, Hp. simpl. rewrite lookup_fmap.
    destruct (pattern !! note) as [old|] eqn:Hn; [|done]. simpl.
    destruct (HInv pattern note old Hp Hn) as [Hlen Hbytes].
    by apply stretch_lookup.
  - subst s2. unfold setResolution at 1. rewrite Hps1. simpl.
    rewrite lookup_insert_eq, insert_insert_eq.
    apply map_eq. intros name. destruct (decide (name = currentPattern s)) as [->|Hne];
      [|by rewrite lookup_insert_ne].
    rewrite lookup_insert_eq, Hp. f_equal.
    apply map_eq. intros note. rewrite !lookup_fmap.
    destruct (pattern !! note) as [old|] eqn:Hn; [|done]. simpl. f_equal.
    destruct (HInv pattern note old Hp Hn) as [Hlen Hbytes].
    apply list_eq_same_length with (resolution s);
      [done | apply length_setResolution_loop |].
    intros i x y Hi Hx Hy.
    rewrite compress_lookup in Hx; try done.
    + rewrite stretch_lookup in Hx; try done; [|nia].
      rewrite Nat.div_mul in Hx by lia. congruence.
    + apply length_setResolution_loop.
    + apply bytes_setResolution_loop.
  - intros Hcs. subst s2 s1. simpl.
    rewrite (decide_False (P := (k * resolution s ≤ currentStep s)%nat)) by nia.
    by rewrite decide_False by lia.
Qed.

Lemma stretch_then_compress_witness :
  let s := setStep 36 1 100 constructor in
  cell 36 2 (setResolution 32 s) = Some 100%Z ∧
  cell 36 3 (setResolution 32 s) = Some 100%Z ∧
  patterns (setResolution 16 (setResolution 32 s)) = patterns s.
Proof.
  intros s.
  assert (is_Some (getCurrentPattern s)) as Hcur by (by eexists).
  assert (Inv s) as HInv.
  { by destruct (setStep_spec_Inv constructor 36 1 100) as [? _];
      [by eexists | apply Inv_constructor_seq |]. }
  destruct (stretch_then_compress s 2 Hcur HInv) as (_ & _ & Hcell & Hback & _);
    [vm_compute; lia | lia |].
  split.
  { transitivity (cell 36 (2 / 2) s); [|vm_compute; reflexivity].
    apply (Hcell 36%Z 2%nat). vm_compute. lia. }
  split; [|exact Hback].
  transitivity (cell 36 (3 / 2) s); [|vm_compute; reflexivity].
  apply (Hcell 36%Z 3%nat). vm_compute. lia.
Defined.

End sequencer.


Section sequencer_run.
Import Sequencer.
Implicit Types (s : Sequencer.t).

Lemma same_but_position_refl s : same_but_position s s.
Proof. by repeat split. Qed.

Lemma same_but_position_trans s1 s2 s3 :
  same_but_position s1 s2 → same_but_position s2 s3 → same_but_position s1 s3.
Proof.
  intros (?&?&?&?&?&?&?&?&?&?) (?&?&?&?&?&?&?&?&?&?).
  repeat split; congruence.
Qed.

Lemma forEach_frame {X} (f : t → X → t) (l : list X) : ∀ s,
  (∀ s x, same_but_position s (f s x) ∧ nextStepTime (f s x) = nextStepTime s ∧
          currentStep (f s x) = currentStep s) →
  same_but_position s (foldl f s l) ∧ nextStepTime (foldl f s l) = nextStepTime s ∧
  currentStep (foldl f s l) = currentStep s.
Proof.
  induction l as [|x l IH]; intros s Hf; simpl.
  - split; [apply same_but_position_refl | done].
  - destruct (Hf s x) as (H1 & H2 & H3). destruct (IH (f s x) Hf) as (H4 & H5 & H6).
    split; [by eapply same_but_position_trans|]. split; congruence.
Qed.

Lemma scheduleNextSteps_body_frame pattern s :
  let s' := scheduleNextSteps_body pattern s in
  same_but_position s s' ∧ nextStepTime s' = nextStepTime s + stepInterval s.
Proof.
  unfold scheduleNextSteps_body. cbv zeta.
  set (s1 := match pattern with Some _ => _ | None => s end).
  assert (same_but_position s s1 ∧ nextStepTime s1 = nextStepTime s ∧
          currentStep s1 = currentStep s) as (Hf & Hn & Hc).
  { subst s1. destruct pattern as [pattern|];
      [|split; [apply same_but_position_refl | done]].
    apply forEach_frame. intros s0 [note steps].
    destruct (steps !! currentStep s) as [velocity|];
      [|split; [apply same_but_position_refl | done]].
    case_decide; [|split; [apply same_but_position_refl | done]].
    by repeat split. }
  clearbody s1. unfold advanceStep. simpl.
  destruct Hf as (?&?&?&?&?&?&Hsi&?&?&?). rewrite Hn, Hsi.
  by repeat split.
Qed.

Lemma scheduleNextSteps_loop_spec fuel pattern endTime : ∀ s,
  0 < stepInterval s →
  endTime - nextStepTime s <= inject_Z (Z.of_nat fuel) * stepInterval s →
  ∃ s', scheduleNextSteps_loop fuel pattern endTime s = Some s' ∧
    same_but_position s s' ∧ endTime <= nextStepTime s'.
Proof.
  induction fuel as [|fuel IH]; intros s Hd Hfuel; simpl.
  - change (inject_Z (Z.of_nat 0)) with 0 in Hfuel.
    rewrite decide_False by lra. exists s.
    split; [done|]. split; [apply same_but_position_refl | lra].
  - case_decide as Hlt.
    + destruct (scheduleNextSteps_body_frame pattern s) as (Hf & Hn).
      cbv zeta in Hf, Hn.
      destruct (IH (scheduleNextSteps_body pattern s)) as (s' & Hl & Hf' & Hend).
      * destruct Hf as (?&?&?&?&?&?&Hsi&?). by rewrite Hsi.
      * destruct Hf as (?&?&?&?&?&?&Hsi&?). rewrite Hsi, Hn.
        rewrite Nat2Z.inj_succ, <- Z.add_1_r, inject_Z_plus in Hfuel.
        change (inject_Z 1) with 1 in Hfuel. lra.
      * exists s'. split; [done|]. split; [by eapply same_but_position_trans | done].
    + exists s. split; [done|]. split; [apply same_but_position_refl | lra].
Qed.

Lemma turns_enough endTime s :
  0 < stepInterval s →
  endTime - nextStepTime s <= inject_Z (Z.of_nat (turns endTime s)) * stepInterval s.
Proof.
  intros Hd. unfold turns.
  set (x := (endTime - nextStepTime s) / stepInterval s).
  assert (x <= inject_Z (Z.of_nat (Z.to_nat (Qceiling x)))) as Hx.
  { eapply Qle_trans; [apply Qle_ceiling|]. rewrite <- Zle_Qle. lia. }
  assert (endTime - nextStepTime s == x * stepInterval s) as ->.
  { subst x. field. lra. }
  apply Qmult_le_compat_r; [done | lra].
Qed.

Lemma scheduleNextSteps_spec now s :
  0 < stepInterval s →
  ∃ s', scheduleNextSteps now s = Some s' ∧ same_but_position s s' ∧
    now + 0.1 <= nextStepTime s'.
Proof.
  intros Hd. unfold scheduleNextSteps.
  apply scheduleNextSteps_loop_spec; [done | by apply turns_enough].
Qed.

Lemma interval_pos b : 40 <= b → 0 < 60.0 / b / 4.
Proof.
  intros Hb. assert (60.0 / b / 4 == 15 / b) as -> by (field; lra).
  apply Qlt_shift_div_l; lra.
Qed.

Lemma sequencer_ok_frame s s' :
  same_but_position s s' → sequencer_ok s → sequencer_ok s'.
Proof.
  intros (Hp&Hb&_&_&_&_&Hsi&Hst&Hi&Hn) (Hone & Hbpm & Hpos).
  unfold sequencer_ok, one_interval in *. rewrite Hp, Hb, Hsi, Hst, Hi, Hn. done.
Qed.

Lemma sequencer_ok_op o s :
  sequencer_ok s → ∃ s', run_op o s = Some s' ∧ sequencer_ok s'.
Proof.
  intros Hok. pose proof Hok as (Hone & Hbpm & Hpos).
  destruct o as [now| |b|a|note step velocity|steps|name|id now]; simpl.
  - unfold start. destruct (isPlaying s) eqn:Hp; [by exists s|].
    set (s0 := mk true 0 _ _ _ _ _ _ _ _ _ _ _).
    destruct (scheduleNextSteps_spec now s0) as (s' & Hs & Hf & _);
      [simpl; apply interval_pos; lra|].
    exists s'. split; [done|]. apply (sequencer_ok_frame s0 s' Hf).
    unfold sequencer_ok, one_interval in *. rewrite Hp in Hone. simpl.
    destruct Hone as [_ Hi]. split; [|split; [done|intros _; apply interval_pos; lra]].
    exists (nextTimerId s). rewrite Hi. split; [done|].
    split; [apply (right_id_L ∅ (∪)) | lia].
  - eexists. split; [done|]. unfold stop. destruct (isPlaying s) eqn:Hp; simpl; [|done].
    unfold sequencer_ok, one_interval in *. rewrite Hp in Hone. simpl.
    destruct Hone as (id & -> & -> & _). simpl.
    split; [split; [done | apply difference_diag_L]|]. split; [done|]. done.
  - eexists. split; [done|]. unfold sequencer_ok, one_interval in *. simpl.
    split; [done|]. pose proof (clamp_bounds 40 300 b). split; [lra|].
    intros Hp. rewrite Hp. apply interval_pos. lra.
  - eexists. by split.
  - eexists. split; [done|]. unfold setStep.
    destruct (patterns s !! currentPattern s) as [pattern|]; [|done].
    destruct (_ !! note); done.
  - eexists. by split.
  - eexists. by split.
  - unfold fire. case_decide as Hin; [|by exists s].
    destruct (isPlaying s) eqn:Hp.
    + destruct (scheduleNextSteps_spec now s (Hpos eq_refl)) as (s' & Hs & Hf & _).
      exists s'. split; [done|]. by apply (sequencer_ok_frame s s' Hf).
    + unfold one_interval in Hone. rewrite Hp in Hone. destruct Hone as [_ Hi].
      rewrite Hi in Hin. set_solver.
Qed.

(** X27.  The sequencer of version 3.7 never hangs and never leaks a
    timer.  Whatever is done to a constructed sequencer, every call
    returns; while it plays exactly one interval runs, the one held in
    [schedulerTimer], and the step interval is positive; while it is
    stopped none runs.  So after [stop()] nothing the host fires reaches
    the scheduler. *)
Theorem sequencer_one_interval (ops : list op) :
  ∃ s, run_ops ops constructor = Some s ∧
    one_interval s ∧ 40 <= bpm s <= 300 ∧
    intervals (stop s) = ∅ ∧
    ∀ id now, fire id now (stop s) = Some (stop s).
Proof.
  assert (∀ s0, sequencer_ok s0 → ∃ s, run_ops ops s0 = Some s ∧ sequencer_ok s) as Hrun.
  { induction ops as [|o ops IH]; intros s0 Hok; [by exists s0|].
    destruct (sequencer_ok_op o s0 Hok) as (s1 & Hr & Hok1).
    destruct (IH s1 Hok1) as (s & Hr' & Hok'). exists s. simpl. by rewrite Hr. }
  destruct (Hrun constructor) as (s & Hr & Hok).
  { split; [done|]. split; [|done]. simpl. lra. }
  exists s. split; [done|]. pose proof Hok as (Hone & Hbpm & _).
  split; [done|]. split; [done|].
  assert (intervals (stop s) = ∅) as Hstop.
  { destruct (sequencer_ok_op OpStop s Hok) as (s' & [= <-] & Hone' & _).
    unfold one_interval in Hone'.
    assert (isPlaying (stop s) = false) as Hp
      by (unfold stop; by destruct (isPlaying s) eqn:?).
    rewrite Hp in Hone'. by destruct Hone'. }
  split; [done|]. intros id now. unfold fire. rewrite Hstop.
  rewrite decide_False; [done | set_solver].
Qed.

End sequencer_run.


Section sequencer_save_load.
Import Sequencer.
Implicit Types (s : Sequencer.t).

Lemma fmap_bytes_id (l : list Z) :
  Forall (λ v, 0 ≤ v < 256)%Z l → (λ v, v mod 256)%Z <$> l = l.
Proof.
  induction 1 as [|v l Hv _ IH]; [done|].
  rewrite fmap_cons, IH. f_equal. by apply Z.mod_small.
Qed.

Lemma loaded_pattern_entries (pattern : gmap Z (list Z)) entries :
  (∀ note steps, pattern !! note = Some steps → Forall (λ v, 0 ≤ v < 256)%Z steps) →
  entries ≡ₚ map_to_list pattern →
  loaded_pattern entries = pattern.
Proof.
  intros Hbytes Hperm. unfold loaded_pattern.
  assert ((λ e : Z * list Z, (e.1, (λ v, v mod 256)%Z <$> e.2)) <$> entries = entries)
    as ->.
  { rewrite <- (list_fmap_id entries) at 2. apply list_fmap_ext.
    intros i [note steps] Hl. simpl. f_equal. apply fmap_bytes_id.
    apply (Hbytes note). apply elem_of_map_to_list. rewrite <- Hperm.
    by eapply list_elem_of_lookup_2. }
  transitivity (list_to_map (M := gmap Z (list Z)) (map_to_list pattern));
    [|apply list_to_map_to_list].
  apply list_to_map_proper.
  - rewrite fmap_reverse, reverse_Permutation, Hperm. apply NoDup_fst_map_to_list.
  - by rewrite reverse_Permutation.
Qed.

Lemma setResolution_Inv steps s : Inv (setResolution steps s).
Proof.
  intros pattern note tr. unfold setResolution. simpl. rewrite lookup_insert_eq.
  intros [= <-]. destruct (patterns s !! currentPattern s) as [old|].
  - rewrite lookup_fmap. destruct (old !! note); simpl; [|done]. intros [= <-].
    split; [apply length_setResolution_loop | apply bytes_setResolution_loop].
  - by rewrite lookup_empty.
Qed.

(** X28.  Saving and loading a pattern.  [loadPattern] of what
    [savePattern] made, with the saved steps enumerated in any order,
    brings back the pattern under its name as the current pattern, into
    any sequencer; the resolution comes back too unless the pattern has no
    track, in which case the loading sequencer keeps its own.  The tempo
    and the swing are saved but not loaded.  A pattern named by the empty
    string is saved but cannot be loaded. *)
Theorem save_then_load (s s0 : Sequencer.t) (saved : Saved)
    (entries : list (Z * list Z)) :
  savePattern s = Some saved → Inv s →
  entries ≡ₚ map_to_list (saved_steps saved) →
  let data := mkData (Some (saved_name saved)) (Some entries) in
  (saved_name saved = "" → loadPattern data s0 = (false, s0)) ∧
  (saved_name saved ≠ "" →
   ∃ s1, loadPattern data s0 = (true, s1) ∧
     currentPattern s1 = currentPattern s ∧
     getCurrentPattern s1 = getCurrentPattern s ∧
     resolution s1 = (if decide (saved_steps saved = ∅) then resolution s0
                      else resolution s) ∧
     bpm s1 = bpm s0 ∧ swing s1 = swing s0).
Proof.
  unfold savePattern, getCurrentPattern.
  destruct (patterns s !! currentPattern s) as [pattern|] eqn:Hp; [|done].
  intros [= <-] HInv Hperm. simpl in *. split.
  - intros Hname. unfold loadPattern. simpl. by rewrite Hname.
  - intros Hname. unfold loadPattern. simpl. rewrite bool_decide_false by done.
    assert (loaded_pattern entries = pattern) as ->.
    { apply loaded_pattern_entries; [|done]. intros note steps Hn.
      by apply (HInv pattern note steps Hp Hn). }
    eexists. split; [done|]. simpl. rewrite lookup_insert_eq.
    split; [done|]. split; [done|]. split; [|done].
    destruct entries as [|[note steps] entries]; simpl.
    + rewrite decide_True; [done|]. apply map_to_list_empty_iff.
      by apply Permutation_nil.
    + assert (pattern !! note = Some steps) as Hn.
      { apply elem_of_map_to_list. rewrite <- Hperm. by left. }
      rewrite Hn. rewrite decide_False by (intros ->; by rewrite lookup_empty in Hn).
      by apply (HInv pattern note steps Hp Hn).
Qed.

Lemma save_then_load_witness :
  let s := setStep 38 2 90 (setStep 36 1 100 (setResolution 8 constructor)) in
  ∃ saved s1,
    savePattern s = Some saved ∧
    loadPattern (mkData (Some "Default")
                   (Some [(36%Z, [0; 100; 0; 0; 0; 0; 0; 0]%Z);
                          (38%Z, [0; 0; 90; 0; 0; 0; 0; 0]%Z)])) constructor
      = (true, s1) ∧
    getCurrentPattern s1 = getCurrentPattern s ∧ resolution s1 = 8%nat.
Proof.
  intros s.
  assert (Inv s) as HInv.
  { pose proof (setResolution_Inv 8 constructor) as H0.
    destruct (setStep_spec_Inv (setResolution 8 constructor) 36 1 100) as [H1 Hc1];
      [by eexists | done |].
    by destruct (setStep_spec_Inv _ 38 2 90 Hc1 H1). }
  destruct (save_then_load s constructor
              (mkSaved "Default" (default ∅ (getCurrentPattern s)) 8 120 0)
              [(36%Z, [0; 100; 0; 0; 0; 0; 0; 0]%Z); (38%Z, [0; 0; 90; 0; 0; 0; 0; 0]%Z)])
    as [_ Hload].
  - vm_compute. reflexivity.
  - exact HInv.
  - vm_compute. apply perm_swap.
  - destruct Hload as (s1 & Hl & _ & Hcur & Hres & _); [discriminate|].
    eexists _, s1. split; [vm_compute; reflexivity|]. split; [exact Hl|].
    split; [exact Hcur|]. rewrite Hres. vm_compute. reflexivity.
Defined.

End sequencer_save_load.


(** ** The MIDI output queue of version 3.7 *)

Section message_queue.
Import LaunchpadMI.
Implicit Types (s : LaunchpadMI.t).






(** X30.  The brightness message.  For a numerator in 1..16 and a
    denominator in 3..18 [setBrightness] queues one control-change message
    whose controller is 0x1e or 0x1f and whose data byte fits seven bits;
    the two bytes determine the numerator and the denominator.  For any
    other values it throws and queues nothing. *)
Theorem setBrightness_encoding (numerator denominator : Z) (s : LaunchpadMI.t) :
  ((1 ≤ numerator ≤ 16)%Z ∧ (3 ≤ denominator ≤ 18)%Z →
     ∃ controller data,
       setBrightness numerator denominator s
         = Some (queueMessage [0xb0; controller; data]%Z s) ∧
       (controller = 0x1e ∨ controller = 0x1f)%Z ∧ (0 ≤ data ≤ 127)%Z ∧
       numerator = (data / 16 + if decide (controller = 0x1e) then 1 else 9)%Z ∧
       denominator = (data mod 16 + 3)%Z) ∧
  (¬ ((1 ≤ numerator ≤ 16)%Z ∧ (3 ≤ denominator ≤ 18)%Z) →
     setBrightness numerator denominator s = None).
Proof.
  unfold setBrightness. split.
  - intros [Hn Hd]. rewrite !bool_decide_false by lia. simpl.
    case_bool_decide as H9.
    + eexists _, _. split; [reflexivity|]. split; [by left|].
      split; [lia|]. rewrite decide_True by done.
      split; Z.div_mod_to_equations; lia.
    + eexists _, _. split; [reflexivity|]. split; [by right|].
      split; [lia|]. rewrite decide_False by done.
      split; Z.div_mod_to_equations; lia.
  - intros Hout.
    destruct (bool_decide (numerator < 1)%Z) eqn:H1; [done|].
    destruct (bool_decide (16 < numerator)%Z) eqn:H2; [done|].
    destruct (bool_decide (denominator < 3)%Z) eqn:H3; [done|].
    destruct (bool_decide (18 < denominator)%Z) eqn:H4; [done|].
    apply bool_decide_eq_false in H1, H2, H3, H4. exfalso. apply Hout. lia.
Qed.

Lemma setBrightness_encoding_witness :
  (∃ controller data,
     setBrightness 10 5 constructor
       = Some (queueMessage [0xb0; controller; data]%Z constructor) ∧
     (0 ≤ data ≤ 127)%Z ∧ 10%Z = (data / 16 + if decide (controller = 0x1e) then 1 else 9)%Z) ∧
  setBrightness 0 5 constructor = None.
Proof.
  destruct (setBrightness_encoding 10 5 constructor) as [Hin _].
  destruct (setBrightness_encoding 0 5 constructor) as [_ Hout].
  split; [|apply Hout; lia].
  destruct Hin as (controller & data & Hs & _ & Hdata & Hnum & _); [lia|].
  by exists controller, data.
Defined.

End message_queue.
